(** * Folder synchronisation (Main.py): model and verification

    The development embeds [calculate_md5], [log_operation],
    [sync_folders] and the loop of [main] of Main.py.  The file system is
    one tree that holds the source, the replica and the log file, wherever
    the three paths lie; the library calls of the script ([os.listdir],
    [os.path.isdir], [os.path.exists], [open], [shutil.copytree],
    [shutil.copy2], [os.remove], [shutil.rmtree], [time.sleep]) are
    primitives of a small state-and-exception monad that also records every
    call in a trace. *)

From stdpp Require Import gmap strings list fin_maps sorting.
From Stdlib Require Import ZArith Strings.Ascii Strings.Byte Lia.

Open Scope string_scope.
Open Scope Z_scope.
Open Scope list_scope.

(* ===================================================================== *)
(** * hashlib.md5 (RFC 1321) *)
(* ===================================================================== *)

Module MD5.

Definition add32 (x y : Z) : Z := (x + y) mod 2 ^ 32.

Definition not32 (x : Z) : Z := Z.lxor x 0xFFFFFFFF.

Definition rotl32 (x c : Z) : Z :=
  Z.lor (Z.shiftl x c mod 2 ^ 32) (Z.shiftr x (32 - c)).

(** [K i = floor (2^32 * |sin (i + 1)|)]. *)
Definition K : list Z :=
  [ 0xd76aa478; 0xe8c7b756; 0x242070db; 0xc1bdceee;
    0xf57c0faf; 0x4787c62a; 0xa8304613; 0xfd469501;
    0x698098d8; 0x8b44f7af; 0xffff5bb1; 0x895cd7be;
    0x6b901122; 0xfd987193; 0xa679438e; 0x49b40821;
    0xf61e2562; 0xc040b340; 0x265e5a51; 0xe9b6c7aa;
    0xd62f105d; 0x02441453; 0xd8a1e681; 0xe7d3fbc8;
    0x21e1cde6; 0xc33707d6; 0xf4d50d87; 0x455a14ed;
    0xa9e3e905; 0xfcefa3f8; 0x676f02d9; 0x8d2a4c8a;
    0xfffa3942; 0x8771f681; 0x6d9d6122; 0xfde5380c;
    0xa4beea44; 0x4bdecfa9; 0xf6bb4b60; 0xbebfbc70;
    0x289b7ec6; 0xeaa127fa; 0xd4ef3085; 0x04881d05;
    0xd9d4d039; 0xe6db99e5; 0x1fa27cf8; 0xc4ac5665;
    0xf4292244; 0x432aff97; 0xab9423a7; 0xfc93a039;
    0x655b59c3; 0x8f0ccc92; 0xffeff47d; 0x85845dd1;
    0x6fa87e4f; 0xfe2ce6e0; 0xa3014314; 0x4e0811a1;
    0xf7537e82; 0xbd3af235; 0x2ad7d2bb; 0xeb86d391 ].

(** Per-round left-rotation amounts. *)
Definition shifts : list Z :=
  [ 7; 12; 17; 22; 7; 12; 17; 22; 7; 12; 17; 22; 7; 12; 17; 22;
    5; 9; 14; 20; 5; 9; 14; 20; 5; 9; 14; 20; 5; 9; 14; 20;
    4; 11; 16; 23; 4; 11; 16; 23; 4; 11; 16; 23; 4; 11; 16; 23;
    6; 10; 15; 21; 6; 10; 15; 21; 6; 10; 15; 21; 6; 10; 15; 21 ].

Definition regs : Type := Z * Z * Z * Z.

Definition init : regs := (0x67452301, 0xefcdab89, 0x98badcfe, 0x10325476).

(** One of the 64 operations on a block whose sixteen words are [m]. *)
Definition round (m : list Z) (st : regs) (i : nat) : regs :=
  let '(a, b, c, d) := st in
  let '(f, g) :=
    if (i <? 16)%nat then
      (Z.lor (Z.land b c) (Z.land (not32 b) d), i)
    else if (i <? 32)%nat then
      (Z.lor (Z.land d b) (Z.land (not32 d) c), ((5 * i + 1) mod 16)%nat)
    else if (i <? 48)%nat then
      (Z.lxor (Z.lxor b c) d, ((3 * i + 5) mod 16)%nat)
    else
      (Z.lxor c (Z.lor b (not32 d)), ((7 * i) mod 16)%nat) in
  let f' := add32 (add32 (add32 f a) (nth i K 0)) (nth g m 0) in
  (d, add32 b (rotl32 f' (nth i shifts 0)), b, c).

(** Little-endian value of a list of bytes. *)
Fixpoint le_value (bs : list Z) : Z :=
  match bs with
  | [] => 0
  | b :: bs' => b + 256 * le_value bs'
  end.

(** The little-endian bytes of the [n] low-order bytes of [x]. *)
Fixpoint le_bytes (n : nat) (x : Z) : list Z :=
  match n with
  | O => []
  | S n' => x mod 256 :: le_bytes n' (x / 256)
  end.

(** The [n] 32-bit words at the front of [bs]. *)
Fixpoint words (n : nat) (bs : list Z) : list Z :=
  match n with
  | O => []
  | S n' => le_value (take 4 bs) :: words n' (drop 4 bs)
  end.

Definition process_block (st : regs) (block : list Z) : regs :=
  let m := words 16 block in
  let '(a, b, c, d) := st in
  let '(a', b', c', d') := fold_left (round m) (seq 0 64) st in
  (add32 a a', add32 b b', add32 c c', add32 d d').

(** The [n] 64-byte blocks at the front of [bs]. *)
Fixpoint blocks (n : nat) (bs : list Z) : list (list Z) :=
  match n with
  | O => []
  | S n' => take 64 bs :: blocks n' (drop 64 bs)
  end.

(** Message padding: a 1 bit, zero bits up to 56 modulo 64 bytes, and the
    length in bits as a 64-bit little-endian number. *)
Definition pad (msg : list Z) : list Z :=
  let len := Z.of_nat (length msg) in
  msg ++ [0x80] ++ repeat 0 (Z.to_nat ((55 - len) mod 64))
      ++ le_bytes 8 ((8 * len) mod 2 ^ 64).

Definition digest_bytes (msg : list Z) : list Z :=
  let padded := pad msg in
  let '(a, b, c, d) :=
    fold_left process_block (blocks (length padded / 64) padded) init in
  le_bytes 4 a ++ le_bytes 4 b ++ le_bytes 4 c ++ le_bytes 4 d.

Definition hex_digit (n : Z) : string :=
  String.substring (Z.to_nat n) 1 "0123456789abcdef".

Definition hex_byte (b : Z) : string :=
  hex_digit (b / 16) +:+ hex_digit (b mod 16).

Definition hex (bs : list Z) : string :=
  fold_right (fun b s => hex_byte b +:+ s) "" bs.

Definition byte_value (b : byte) : Z := Z.of_N (Byte.to_N b).

(** The hash object of [hashlib.md5()]: the bytes fed to it so far. *)
Definition hash : Type := list byte.

Definition new : hash := [].

Definition update (h : hash) (chunk : list byte) : hash := h ++ chunk.

Definition hexdigest (h : hash) : string :=
  hex (digest_bytes (map byte_value h)).

End MD5.

(* ===================================================================== *)
(** * The file system *)
(* ===================================================================== *)

(** A path is the list of its components from the root;
    [os.path.join(p, item)] appends one component. *)
Abbreviation path := (list string).

Definition os_path_join (p : path) (item : string) : path := p ++ [item].

(** A regular file carries its bytes and its modification time (the
    metadata that [shutil.copy2] preserves); a directory maps entry names
    to nodes. *)
#[warnings="-register-all"]
Inductive node : Type :=
| File (data : list byte) (mtime : Z)
| Dir (entries : gmap string node).

Definition is_dir (o : option node) : bool :=
  match o with Some (Dir _) => true | _ => false end.

Definition is_file (o : option node) : bool :=
  match o with Some (File _ _) => true | _ => false end.

Fixpoint lookup_path (p : path) (n : node) : option node :=
  match p with
  | [] => Some n
  | x :: q =>
      match n with
      | Dir es => match es !! x with Some c => lookup_path q c | None => None end
      | File _ _ => None
      end
  end.

(** [set_path p v n] binds the entry at [p] to [v] ([None] unlinks it).
    The parent of [p] has to be an existing directory; the root itself is
    not an entry of any directory. *)
Fixpoint set_path (p : path) (v : option node) (n : node) : option node :=
  match p, n with
  | [], _ => None
  | _ :: _, File _ _ => None
  | x :: q, Dir es =>
      match q with
      | [] => Some (Dir (partial_alter (fun _ => v) x es))
      | _ :: _ =>
          match es !! x with
          | Some c =>
              match set_path q v c with
              | Some c' => Some (Dir (<[x := c']> es))
              | None => None
              end
          | None => None
          end
      end
  end.

(** Length of the longest chain of nested directories. *)
Fixpoint depth (n : node) : nat :=
  match n with
  | File _ _ => O
  | Dir es => S (map_fold (fun _ c acc => Nat.max (depth c) acc) O es)
  end.

(** The depth of the entry at [p]; 0 where there is none. *)
Definition depth_at (p : path) (n : node) : nat :=
  from_option depth O (lookup_path p n).

(** Neither path lies at or below the other. *)
Definition separate (p q : path) : Prop := ¬ p `prefix_of` q ∧ ¬ q `prefix_of` p.

(* ===================================================================== *)
(** * Exceptions, library calls and the trace *)
(* ===================================================================== *)

Inductive exn : Type :=
| FileNotFoundError (p : path)
| NotADirectoryError (p : path)
| IsADirectoryError (p : path)
| FileExistsError (p : path)
| SameFileError (p : path)
| PermissionError (p : path)
| OSError (errno : Z) (p : path)
| ValueError (msg : string)
| OverflowError.


(** The four messages that [sync_folders] passes to [log_operation]. *)
Inductive operation : Type :=
| DirectoryCreated (p : path)
| FileCopied (p : path)
| DirectoryRemoved (p : path)
| FileRemoved (p : path).

Definition render_path (p : path) : string :=
  fold_right (fun x s => "/" +:+ x +:+ s) "" p.

Definition message (op : operation) : string :=
  match op with
  | DirectoryCreated p => "Directory created: " +:+ render_path p
  | FileCopied p => "File copied/updated: " +:+ render_path p
  | DirectoryRemoved p => "Directory removed: " +:+ render_path p
  | FileRemoved p => "File removed: " +:+ render_path p
  end.

Definition op_path (op : operation) : path :=
  match op with
  | DirectoryCreated p | FileCopied p | DirectoryRemoved p | FileRemoved p => p
  end.

Inductive call : Type :=
| Listdir (p : path)
| Isdir (p : path)
| Exists (p : path)
| OpenRb (p : path)
| Copytree (src dst : path)
| Copy2 (src dst : path)
| Remove (p : path)
| Rmtree (p : path)
| LogOperation (op : operation) (log_file : path)
| Sleep (interval : Z).

Record event : Type := Event { ev_call : call; ev_exn : option exn }.

(** The entry that a call creates, replaces or removes, for the two copies
    and the two removals; [log_operation] writes to its log file, see
    [log_file_of]. *)
Definition write_target (c : call) : option path :=
  match c with
  | Copytree _ dst | Copy2 _ dst => Some dst
  | Remove p | Rmtree p => Some p
  | Listdir _ | Isdir _ | Exists _ | OpenRb _ | LogOperation _ _ | Sleep _ => None
  end.

(** The file that a call appends to, for [log_operation]. *)
Definition log_file_of (c : call) : option path :=
  match c with
  | LogOperation _ log_file => Some log_file
  | _ => None
  end.

(** The path a call reports to the log, for [log_operation]. *)
Definition log_target (c : call) : option path :=
  match c with
  | LogOperation op _ => Some (op_path op)
  | _ => None
  end.

(** The operations logged by a trace, oldest first. *)
Definition logged (t : list event) : list operation :=
  omap (fun ev =>
          match ev_call ev, ev_exn ev with
          | LogOperation op _, None => Some op
          | _, _ => None
          end) t.

(* ===================================================================== *)
(** * State, exceptions and fuel *)
(* ===================================================================== *)

Record world : Type := World { fs : node; trace : list event }.

(** A reading of the clock: the time in seconds, with which a write stamps
    a file, and its text under the format ["%Y-%m-%d %H:%M:%S"]. *)
Record datetime : Type := Datetime { posix : Z; strftime : string }.

(** The line feed that ends a line of the log. *)
Definition newline : string := String "010"%char "".

Inductive outcome (A : Type) : Type :=
| Ok (a : A)
| Raised (e : exn)
| OutOfFuel.
Arguments Ok {A} a.
Arguments Raised {A} e.
Arguments OutOfFuel {A}.

Definition M (A : Type) : Type := world -> outcome A * world.

Definition ret {A} (a : A) : M A := fun w => (Ok a, w).

Definition bind {A B} (m : M A) (k : A -> M B) : M B :=
  fun w =>
    match m w with
    | (Ok a, w') => k a w'
    | (Raised e, w') => (Raised e, w')
    | (OutOfFuel, w') => (OutOfFuel, w')
    end.

Definition out_of_fuel {A} : M A := fun w => (OutOfFuel, w).

Declare Scope sync_scope.
Delimit Scope sync_scope with sync.
Notation "'let*' x ':=' m 'in' k" := (bind m (fun x => k))
  (at level 10, x name, m at level 100, k at level 200) : sync_scope.
Notation "m1 ;; m2" := (bind m1 (fun _ => m2))
  (at level 100, m2 at level 200, right associativity) : sync_scope.
Open Scope sync_scope.

(** [for x in l: body(x)] *)
Fixpoint for_each {A} (l : list A) (body : A -> M unit) : M unit :=
  match l with
  | [] => ret tt
  | x :: l' => body x ;; for_each l' body
  end.

Definition record (c : call) (e : option exn) (w : world) (n : node) : world :=
  {| fs := n; trace := trace w ++ [Event c e] |}.

(** A call that cannot raise: [os.path.isdir] and [os.path.exists] answer
    [False] where the underlying [stat] fails. *)
Definition query {A} (c : call) (f : node -> A) : M A :=
  fun w => (Ok (f (fs w)), record c None w (fs w)).

Definition os_path_isdir (p : path) : M bool :=
  query (Isdir p) (fun n => is_dir (lookup_path p n)).

Definition os_path_exists (p : path) : M bool :=
  query (Exists p) (fun n => bool_decide (is_Some (lookup_path p n))).

Definition basename (p : path) : string := List.last p "".

(** The chunks that successive [f.read(size)] calls return until the
    empty one. *)
Fixpoint read_chunks (fuel size : nat) (data : list byte) : list (list byte) :=
  match fuel with
  | O => []
  | S fuel' =>
      match data with
      | [] => []
      | _ :: _ => take size data :: read_chunks fuel' size (drop size data)
      end
  end.

(** The digest that [calculate_md5] computes from the bytes of a file. *)
Definition md5_of (data : list byte) : string :=
  let hash_md5 :=
    fold_left MD5.update (read_chunks (length data) 4096 data) MD5.new in
  MD5.hexdigest hash_md5.

Section SyncDefs.

(** The order in which [for item in s] visits a Python set. *)
Variable set_iter : gset string -> list string.

(** Failures that the tree does not explain (permissions, a full disk, a
    path that is too long): asked before every call that can raise. *)
Variable fault : call -> node -> option exn.

(** [datetime.now()], given the calls made so far. *)
Variable datetime_now : list event -> datetime.

Definition syscall {A} (c : call) (sem : node -> exn + A * node) : M A :=
  fun w =>
    match fault c (fs w) with
    | Some e => (Raised e, record c (Some e) w (fs w))
    | None =>
        match sem (fs w) with
        | inl e => (Raised e, record c (Some e) w (fs w))
        | inr (a, n') => (Ok a, record c None w n')
        end
    end.

Definition os_listdir (p : path) : M (list string) :=
  syscall (Listdir p) (fun n =>
    match lookup_path p n with
    | Some (Dir es) => inr (elements (dom es), n)
    | Some (File _ _) => inl (NotADirectoryError p)
    | None => inl (FileNotFoundError p)
    end).

(** [open(p, "rb")] followed by reading to the end of the file. *)
Definition open_rb (p : path) : M (list byte) :=
  syscall (OpenRb p) (fun n =>
    match lookup_path p n with
    | Some (File data _) => inr (data, n)
    | Some (Dir _) => inl (IsADirectoryError p)
    | None => inl (FileNotFoundError p)
    end).

(** [shutil.copytree(src, dst)]: [dst] must not exist; the whole subtree
    is copied with its metadata.  [os.makedirs] would create missing
    parents of [dst]; here a missing parent raises, and [sync_folders]
    only calls it below the replica directory it has just listed. *)
Definition shutil_copytree (src dst : path) : M unit :=
  syscall (Copytree src dst) (fun n =>
    match lookup_path src n with
    | Some (Dir es) =>
        match lookup_path dst n with
        | Some _ => inl (FileExistsError dst)
        | None =>
            match set_path dst (Some (Dir es)) n with
            | Some n' => inr (tt, n')
            | None => inl (FileNotFoundError dst)
            end
        end
    | Some (File _ _) => inl (NotADirectoryError src)
    | None => inl (FileNotFoundError src)
    end).

(** [shutil.copy2(src, dst)]: bytes and modification time; a [dst] that is
    a directory receives the file under the base name of [src]. *)
Definition shutil_copy2 (src dst : path) : M unit :=
  syscall (Copy2 src dst) (fun n =>
    match lookup_path src n with
    | Some (File data mtime) =>
        let target :=
          if is_dir (lookup_path dst n) then os_path_join dst (basename src)
          else dst in
        if decide (target = src) then inl (SameFileError src)
        else if is_dir (lookup_path target n) then inl (IsADirectoryError target)
        else
          match set_path target (Some (File data mtime)) n with
          | Some n' => inr (tt, n')
          | None => inl (FileNotFoundError target)
          end
    | Some (Dir _) => inl (IsADirectoryError src)
    | None => inl (FileNotFoundError src)
    end).

Definition os_remove (p : path) : M unit :=
  syscall (Remove p) (fun n =>
    match lookup_path p n with
    | Some (File _ _) =>
        match set_path p None n with
        | Some n' => inr (tt, n')
        | None => inl (PermissionError p)
        end
    | Some (Dir _) => inl (IsADirectoryError p)
    | None => inl (FileNotFoundError p)
    end).

Definition shutil_rmtree (p : path) : M unit :=
  syscall (Rmtree p) (fun n =>
    match lookup_path p n with
    | Some (Dir _) =>
        match set_path p None n with
        | Some n' => inr (tt, n')
        | None => inl (PermissionError p)
        end
    | Some (File _ _) => inl (NotADirectoryError p)
    | None => inl (FileNotFoundError p)
    end).

(** Main.py, lines 9-18. *)
Definition calculate_md5 (file_path : path) : M string :=
  let* data := open_rb file_path in
  ret (md5_of data).

(** Main.py, lines 20-29.  [op] stands for the message, one of the four
    of [sync_folders].  The line is appended to the file at [log_file], which
    [open(log_file, "a")] creates when its directory exists and the file
    does not; the write stamps the file with the time of the call.  The
    console that [print] writes to is outside the model. *)
Definition log_operation (op : operation) (log_file : path) : M unit :=
  fun w =>
    let now := datetime_now (trace w) in
    let timestamp := strftime now in
    let log_message := "[" +:+ timestamp +:+ "] " +:+ message op in
    syscall (LogOperation op log_file) (fun n =>
      match lookup_path log_file n with
      | Some (Dir _) => inl (IsADirectoryError log_file)
      | o =>
          let old := match o with Some (File data _) => data | _ => [] end in
          let new := old ++ String.list_byte_of_string (log_message +:+ newline) in
          match set_path log_file (Some (File new (posix now))) n with
          | Some n' => inr (tt, n')
          | None => inl (FileNotFoundError log_file)
          end
      end) w.

(** The longest sleep, in seconds, that fits the 64-bit count of
    nanoseconds into which [time.sleep] converts its argument. *)
Definition sleep_max : Z := (2 ^ 63 - 1) / 1000000000.

(** [time.sleep(interval)] for an [int]: a negative length raises
    [ValueError], one that does not fit the clock [OverflowError]. *)
Definition time_sleep (interval : Z) : M unit :=
  syscall (Sleep interval) (fun n =>
    if interval <? 0 then inl (ValueError "sleep length must be non-negative")
    else if sleep_max <? interval then inl OverflowError
    else inr (tt, n)).

(** Body of the first loop of [sync_folders] (lines 41-54); [self] is the
    recursive call. *)
Definition reconcile_item (self : path -> path -> path -> M unit)
    (source replica log_file : path) (item : string) : M unit :=
  let source_item := os_path_join source item in
  let replica_item := os_path_join replica item in
  let* d := os_path_isdir source_item in
  if d then
    let* e := os_path_exists replica_item in
    if negb e then
      shutil_copytree source_item replica_item ;;
      log_operation (DirectoryCreated replica_item) log_file
    else
      self source_item replica_item log_file
  else
    let* e := os_path_exists replica_item in
    let* differs :=
      (if negb e then ret true
       else
         let* h1 := calculate_md5 source_item in
         let* h2 := calculate_md5 replica_item in
         ret (negb (String.eqb h1 h2))) in
    if differs then
      shutil_copy2 source_item replica_item ;;
      log_operation (FileCopied replica_item) log_file
    else ret tt.

(** Body of the second loop of [sync_folders] (lines 57-67). *)
Definition prune_item (source_files : gset string)
    (source replica log_file : path) (item : string) : M unit :=
  let replica_item := os_path_join replica item in
  if bool_decide (item ∉ source_files) then
    let* d := os_path_isdir replica_item in
    if d then
      shutil_rmtree replica_item ;;
      log_operation (DirectoryRemoved replica_item) log_file
    else
      os_remove replica_item ;;
      log_operation (FileRemoved replica_item) log_file
  else ret tt.

(** Main.py, lines 31-67.  [fuel] bounds the depth of the recursion. *)
Fixpoint sync_folders (fuel : nat) (source replica log_file : path) : M unit :=
  match fuel with
  | O => out_of_fuel
  | S fuel' =>
      let* source_names := os_listdir source in
      let source_files : gset string := list_to_set source_names in
      let* replica_names := os_listdir replica in
      let replica_files : gset string := list_to_set replica_names in
      for_each (set_iter source_files)
        (reconcile_item (sync_folders fuel') source replica log_file) ;;
      for_each (set_iter replica_files)
        (prune_item source_files source replica log_file)
  end.

End SyncDefs.

(* ===================================================================== *)
(** * Specification vocabulary *)
(* ===================================================================== *)

(** [wp m Q w]: the run of [m] from [w] ends in an outcome and a world that
    satisfy [Q]. *)
Definition wp {A} (m : M A) (Q : outcome A -> world -> Prop) (w : world) : Prop :=
  Q (m w).1 (m w).2.

(** What a run that writes below [P] and appends to the file [L] leaves
    alone: everything beside both, and the kind of [P] and of its
    ancestors; wherever [L] lies, nothing beside [P] gets deeper. *)
Definition confined (L P : path) (n n' : node) : Prop :=
  (∀ q, separate P q -> separate L q -> lookup_path q n' = lookup_path q n) ∧
  (∀ q, q `prefix_of` P -> is_dir (lookup_path q n) = true ->
        is_dir (lookup_path q n') = true) ∧
  (∀ q, separate P q -> (depth_at q n' <= depth_at q n)%nat).

(** Every run of [m] relates the world it starts from to the one it ends in. *)
Definition respects {A} (Rel : world -> world -> Prop) (m : M A) : Prop :=
  ∀ w, wp m (fun _ w' => Rel w w') w.

(** The same for a run that may also replace or unlink the entry [i] of
    [P] itself. *)
Definition confined_entry (L P : path) (i : string) (n n' : node) : Prop :=
  (∀ q, separate (os_path_join P i) q -> separate L q ->
        lookup_path q n' = lookup_path q n) ∧
  (∀ q, q `prefix_of` P -> is_dir (lookup_path q n) = true ->
        is_dir (lookup_path q n') = true) ∧
  (∀ q, separate (os_path_join P i) q -> (depth_at q n' <= depth_at q n)%nat).

(** [p] lies strictly below [P]. *)
Definition below (P p : path) : Prop := ∃ x q, p = P ++ x :: q.

(** The path that a call writes to or reports to the log. *)
Definition effect_target (c : call) : option path :=
  match write_target c with
  | Some p => Some p
  | None => log_target c
  end.

Definition targets (T : path -> Prop) (ev : event) : Prop :=
  ∀ p, effect_target (ev_call ev) = Some p -> T p.

(** The trace grows by events that all satisfy [P]. *)
Definition extends (P : event -> Prop) (w w' : world) : Prop :=
  ∃ t, trace w' = trace w ++ t ∧ Forall P t.

(** What every run of [sync_folders _ replica log_file] does to the world,
    and what every run of a loop body for [item] does. *)
Definition pass_rel (log_file replica : path) (w w' : world) : Prop :=
  confined log_file replica (fs w) (fs w') ∧
  extends (targets (below replica)) w w'.

Definition item_rel (log_file replica : path) (item : string) (w w' : world) : Prop :=
  confined_entry log_file replica item (fs w) (fs w') ∧
  extends (targets (fun p => os_path_join replica item `prefix_of` p)) w w'.

Definition succeeded (ev : event) : Prop := ev_exn ev = None.

(** Exceptions are never swallowed: a failed call is the last event of the
    run and its exception is the outcome. *)
Definition disciplined {A} (o : outcome A) (t : list event) : Prop :=
  match o with
  | Raised e => ∃ pre c, t = pre ++ [Event c (Some e)] ∧ Forall succeeded pre
  | _ => Forall succeeded t
  end.

(** Every run of [m] is disciplined. *)
Definition propagates {A} (m : M A) : Prop :=
  ∀ w, wp m (fun o w' => ∃ t, trace w' = trace w ++ t ∧ disciplined o t) w.

(** The events that a run from [w] to [w'] has added. *)
Definition new_events (w w' : world) : list event :=
  drop (length (trace w)) (trace w').

(** A postcondition that only constrains the runs that return. *)
Definition on_ok {A} (P : A -> world -> Prop) (o : outcome A) (w : world) : Prop :=
  match o with
  | Ok a => P a w
  | _ => True
  end.

(** The calls of a trace that write to [p] or report [p] to the log. *)
Definition effects_at (p : path) (t : list event) : list call :=
  map ev_call (filter (fun ev => effect_target (ev_call ev) = Some p) t).

(** The operation that a call reports, for [log_operation]. *)
Definition logged_op (c : call) : option operation :=
  match c with LogOperation op _ => Some op | _ => None end.

(** An event that neither writes nor logs. *)
Definition read_only (ev : event) : Prop := effect_target (ev_call ev) = None.

(** The run has left the file system as it was and has only read;
    [P] holds of the value it returns, if it returns. *)
Definition quiet_then {A} (w : world) (P : A -> world -> Prop)
    (o : outcome A) (w' : world) : Prop :=
  fs w' = fs w ∧ extends read_only w w' ∧
  match o with Ok a => P a w' | _ => True end.

(** The run ends: by returning or by raising. *)
Definition ends {A} (o : outcome A) : Prop :=
  match o with OutOfFuel => False | _ => True end.

(** No run of [m] exhausts the fuel. *)
Definition total {A} (m : M A) : Prop := ∀ w, wp m (fun o _ => ends o) w.


(** The operations logged for the path [p]. *)
Definition ops_at (p : path) (t : list event) : list operation :=
  filter (fun op => op_path op = p) (logged t).


(** The decision table of one pass for the entry [item]: the calls that
    touch [replica/item], given what [source/item] and [replica/item] are
    when the pass starts. *)
Definition expected_effects (source replica log_file : path) (item : string)
    (s r : option node) : list call :=
  let source_item := os_path_join source item in
  let replica_item := os_path_join replica item in
  match s, r with
  | Some (Dir _), None =>
      [Copytree source_item replica_item;
       LogOperation (DirectoryCreated replica_item) log_file]
  | Some (File _ _), None =>
      [Copy2 source_item replica_item; LogOperation (FileCopied replica_item) log_file]
  | Some (File d _), Some (File d' _) =>
      if decide (md5_of d = md5_of d') then []
      else [Copy2 source_item replica_item; LogOperation (FileCopied replica_item) log_file]
  | None, Some (Dir _) =>
      [Rmtree replica_item; LogOperation (DirectoryRemoved replica_item) log_file]
  | None, Some (File _ _) =>
      [Remove replica_item; LogOperation (FileRemoved replica_item) log_file]
  | _, _ => []
  end.

(** [synced s r r']: a pass that returns turns the replica entry [r]
    (absent when [None]) into [r'] for the source entry [s]. *)
#[warnings="-register-all"]
Inductive synced : node -> option node -> node -> Prop :=
| synced_new s :
    synced s None s
| synced_copied d m d' m' :
    md5_of d ≠ md5_of d' ->
    synced (File d m) (Some (File d' m')) (File d m)
| synced_kept d m d' m' :
    md5_of d = md5_of d' ->
    synced (File d m) (Some (File d' m')) (File d' m')
| synced_dir es er er' :
    dom er' = dom es ->
    (∀ i s, es !! i = Some s -> ∃ r', er' !! i = Some r' ∧ synced s (er !! i) r') ->
    synced (Dir es) (Some (Dir er)) (Dir er').

(** Two trees with the same entry names and kinds at every level, whose
    files are related by [F]; modification times are not compared. *)
Inductive tree_rel (F : list byte -> list byte -> Prop) : node -> node -> Prop :=
| tree_rel_file d m d' m' :
    F d d' -> tree_rel F (File d m) (File d' m')
| tree_rel_dir es es' :
    dom es' = dom es ->
    (∀ i a b, es !! i = Some a -> es' !! i = Some b -> tree_rel F a b) ->
    tree_rel F (Dir es) (Dir es').

(** Same names, same kinds, same bytes. *)
Definition mirror : node -> node -> Prop := tree_rel eq.

(** Same names, same kinds, same digests. *)
Definition same_digests : node -> node -> Prop :=
  tree_rel (fun d d' => md5_of d = md5_of d').

(** No file of [s] has the digest of a different file at the same place
    in [r]. *)
Definition no_collision (s r : node) : Prop :=
  ∀ q d m d' m',
    lookup_path q s = Some (File d m) ->
    lookup_path q r = Some (File d' m') ->
    md5_of d = md5_of d' -> d = d'.

(** What a pass that returns has done. *)
Definition pass_ok (source replica log_file : path) (w w' : world) : Prop :=
  ∃ es er r' t,
    lookup_path source (fs w) = Some (Dir es) ∧
    lookup_path replica (fs w) = Some (Dir er) ∧
    lookup_path replica (fs w') = Some r' ∧
    synced (Dir es) (Some (Dir er)) r' ∧
    trace w' = trace w ++ t ∧
    ∀ i, effects_at (os_path_join replica i) t
         = expected_effects source replica log_file i (es !! i) (er !! i).

(** What an iteration of the first loop that returns has done. *)
Definition reconciled (source replica log_file : path) (item : string)
    (w w' : world) : Prop :=
  ∃ s r' t,
    lookup_path (os_path_join source item) (fs w) = Some s ∧
    lookup_path (os_path_join replica item) (fs w') = Some r' ∧
    synced s (lookup_path (os_path_join replica item) (fs w)) r' ∧
    trace w' = trace w ++ t ∧
    effects_at (os_path_join replica item) t
    = expected_effects source replica log_file item (Some s)
        (lookup_path (os_path_join replica item) (fs w)).

(** What an iteration of the second loop that returns has done. *)
Definition pruned (source_files : gset string) (source replica log_file : path)
    (item : string) (w w' : world) : Prop :=
  if decide (item ∈ source_files) then w' = w
  else
    ∃ r t,
      lookup_path (os_path_join replica item) (fs w) = Some r ∧
      lookup_path (os_path_join replica item) (fs w') = None ∧
      trace w' = trace w ++ t ∧
      effects_at (os_path_join replica item) t
      = expected_effects source replica log_file item None (Some r).

(* ===================================================================== *)
(** * Concrete worlds *)
(* ===================================================================== *)

(** No failure from outside the model. *)
Definition no_fault : call -> node -> option exn := fun _ _ => None.

(** Two messages of 128 bytes with the same MD5 digest
    (79054025255fb1a26e4bc422aef54eb4); they differ in six bytes. *)
Definition collision_a : list byte :=
  [
    xd1; x31; xdd; x02; xc5; xe6; xee; xc4; x69; x3d; x9a; x06; x98; xaf; xf9; x5c;
    x2f; xca; xb5; x87; x12; x46; x7e; xab; x40; x04; x58; x3e; xb8; xfb; x7f; x89;
    x55; xad; x34; x06; x09; xf4; xb3; x02; x83; xe4; x88; x83; x25; x71; x41; x5a;
    x08; x51; x25; xe8; xf7; xcd; xc9; x9f; xd9; x1d; xbd; xf2; x80; x37; x3c; x5b;
    xd8; x82; x3e; x31; x56; x34; x8f; x5b; xae; x6d; xac; xd4; x36; xc9; x19; xc6;
    xdd; x53; xe2; xb4; x87; xda; x03; xfd; x02; x39; x63; x06; xd2; x48; xcd; xa0;
    xe9; x9f; x33; x42; x0f; x57; x7e; xe8; xce; x54; xb6; x70; x80; xa8; x0d; x1e;
    xc6; x98; x21; xbc; xb6; xa8; x83; x93; x96; xf9; x65; x2b; x6f; xf7; x2a; x70 ]%list.

Definition collision_b : list byte :=
  [
    xd1; x31; xdd; x02; xc5; xe6; xee; xc4; x69; x3d; x9a; x06; x98; xaf; xf9; x5c;
    x2f; xca; xb5; x07; x12; x46; x7e; xab; x40; x04; x58; x3e; xb8; xfb; x7f; x89;
    x55; xad; x34; x06; x09; xf4; xb3; x02; x83; xe4; x88; x83; x25; xf1; x41; x5a;
    x08; x51; x25; xe8; xf7; xcd; xc9; x9f; xd9; x1d; xbd; x72; x80; x37; x3c; x5b;
    xd8; x82; x3e; x31; x56; x34; x8f; x5b; xae; x6d; xac; xd4; x36; xc9; x19; xc6;
    xdd; x53; xe2; x34; x87; xda; x03; xfd; x02; x39; x63; x06; xd2; x48; xcd; xa0;
    xe9; x9f; x33; x42; x0f; x57; x7e; xe8; xce; x54; xb6; x70; x80; x28; x0d; x1e;
    xc6; x98; x21; xbc; xb6; xa8; x83; x93; x96; xf9; x65; xab; x6f; xf7; x2a; x70 ]%list.

Definition bytes (s : string) : list byte := String.list_byte_of_string s.

Definition dir (entries : list (string * node)) : node := Dir (list_to_map entries).

(** [/source/f.bin] and [/replica/f.bin] hold the two colliding messages. *)
Definition collision_world : world :=
  {| fs := dir [("source", dir [("f.bin", File collision_a 10)]);
                ("replica", dir [("f.bin", File collision_b 20)])];
     trace := [] |}.

(** The scenario of the specification: source = {a.txt, sub/b.txt},
    replica = {a.txt, c.txt}. *)
Definition example_source_entries : gmap string node :=
  list_to_map [("a.txt", File (bytes "hello") 1);
               ("sub", dir [("b.txt", File (bytes "x") 2)])].

Definition example_replica_entries : gmap string node :=
  list_to_map [("a.txt", File (bytes "hello") 5);
               ("c.txt", File (bytes "old") 3)].

Definition example_world : world :=
  {| fs := dir [("source", Dir example_source_entries);
                ("replica", Dir example_replica_entries)];
     trace := [] |}.

(** The replica of the scenario after the pass: [a.txt] with its own time
    stamp, [sub] as in the source, no [c.txt]. *)
Definition example_result : node :=
  dir [("a.txt", File (bytes "hello") 5);
       ("sub", dir [("b.txt", File (bytes "x") 2)])].

(** The replica is a subdirectory of the source. *)
Definition nested_world : world :=
  {| fs := dir [("data", dir [("f.txt", File (bytes "x") 1);
                              ("backup", dir [])])];
     trace := [] |}.

(** The source is a subdirectory of the replica. *)
Definition inverted_world : world :=
  {| fs := dir [("mirror", dir [("src", dir [("f.txt", File (bytes "x") 1)])])];
     trace := [] |}.



(* ===================================================================== *)
(** * The rest of Main.py *)
(* ===================================================================== *)


(** The paths that a call is given: for [log_operation], the path in its
    message and the log file. *)
Definition call_paths (c : call) : list path :=
  match c with
  | Listdir p | Isdir p | Exists p | OpenRb p | Remove p | Rmtree p => [p]
  | Copytree src dst | Copy2 src dst => [src; dst]
  | LogOperation op log_file => [op_path op; log_file]
  | Sleep _ => []
  end.

(** Every path given to the calls of [ev] lies at or below [source] or
    [replica], or is [log_file]. *)
Definition within (source replica log_file : path) (ev : event) : Prop :=
  ∀ p, p ∈ call_paths (ev_call ev) ->
       source `prefix_of` p ∨ replica `prefix_of` p ∨ p = log_file.

(** [reports op c]: the record [op] is the one that [sync_folders] writes
    after the call [c]. *)
Definition reports (op : operation) (c : call) : Prop :=
  match op, c with
  | DirectoryCreated p, Copytree _ dst => p = dst
  | FileCopied p, Copy2 _ dst => p = dst
  | DirectoryRemoved p, Rmtree q => p = q
  | FileRemoved p, Remove q => p = q
  | _, _ => False
  end.

(** A trace in which the copies and removals that succeed and the calls of
    [log_operation], all on [log_file], come in pairs, the write first. *)
Inductive paired (log_file : path) : list event -> Prop :=
| paired_nil : paired log_file []
| paired_other c e t :
    write_target c = None ∨ e ≠ None ->
    log_target c = None ->
    paired log_file t ->
    paired log_file (Event c e :: t)
| paired_write c op e t :
    write_target c ≠ None ->
    reports op c ->
    paired log_file t ->
    paired log_file (Event c None :: Event (LogOperation op log_file) e :: t).

(** The trace grows by a segment that satisfies [P] as a whole. *)
Definition grows (P : list event -> Prop) (w w' : world) : Prop :=
  ∃ t, trace w' = trace w ++ t ∧ P t.

Section MainDefs.
Variable set_iter : gset string -> list string.
Variable fault : call -> node -> option exn.
Variable datetime_now : list event -> datetime.

(** Main.py, lines 86-89: the loop of [main], for the [rounds] passes that
    it starts before it is interrupted.  An exception of [sync_folders] or
    of [time.sleep] other than [KeyboardInterrupt] is not caught and leaves
    the loop. *)
Fixpoint main_loop (rounds fuel : nat) (source replica : path) (interval : Z)
    (log_file : path) : M unit :=
  match rounds with
  | O => ret tt
  | S rounds' =>
      sync_folders set_iter fault datetime_now fuel source replica log_file ;;
      time_sleep fault interval ;;
      main_loop rounds' fuel source replica interval log_file
  end.

End MainDefs.

(** ** Vocabulary for the digest and for the loop of [main] *)

(** A string of lower-case hexadecimal digits. *)
Definition lower_hex (s : string) : Prop :=
  Forall (fun c => c ∈ String.list_ascii_of_string "0123456789abcdef")
         (String.list_ascii_of_string s).

(** The run returned and left the file system as it was in [w]. *)
Definition returns_unchanged (w : world) (o : outcome unit) (w' : world) : Prop :=
  o = Ok tt ∧ fs w' = fs w.

(** ** What warrants a write *)

(** [warranted source replica n0 ev]: if [ev] is a call that writes, the
    tree [n0] warrants it.  A copy goes from a path of the source to the
    same relative path of the replica, and what it copies is a directory
    ([copytree]) or a file ([copy2]) of [n0]; a removal is of a name that
    a directory of the source in [n0] does not have. *)
Definition warranted (source replica : path) (n0 : node) (ev : event) : Prop :=
  match ev_call ev with
  | Copytree src dst =>
      ∃ q, q ≠ [] ∧ src = source ++ q ∧ dst = replica ++ q ∧
           is_dir (lookup_path src n0) = true
  | Copy2 src dst =>
      ∃ q, q ≠ [] ∧ src = source ++ q ∧ dst = replica ++ q ∧
           is_file (lookup_path src n0) = true
  | Remove p | Rmtree p =>
      ∃ q i, p = replica ++ q ++ [i] ∧
             is_dir (lookup_path (source ++ q) n0) = true ∧
             lookup_path (source ++ q ++ [i]) n0 = None
  | _ => True
  end.

(** The run leaves alone what is beside the replica and the log file, and
    the tree [n0] warrants each of its copies and removals. *)
Definition mirrors (source replica log_file : path) (n0 : node) (w w' : world) : Prop :=
  (∀ q, separate replica q -> separate log_file q ->
        lookup_path q (fs w') = lookup_path q (fs w)) ∧
  extends (warranted source replica n0) w w'.

(** The run stays inside [Rel]; [P] holds of the value it returns, if it
    returns. *)
Definition kept {A} (Rel : world -> world -> Prop) (w : world)
    (P : A -> world -> Prop) (o : outcome A) (w' : world) : Prop :=
  Rel w w' ∧ match o with Ok a => P a w' | _ => True end.

(** What is beside the replica and the log file is in [w] as it is in
    [n0]. *)
Definition agrees (replica log_file : path) (n0 : node) (w : world) : Prop :=
  ∀ q, separate replica q -> separate log_file q ->
       lookup_path q (fs w) = lookup_path q n0.

(** A file name: a path component holds no separator. *)
Definition slash_free (x : string) : Prop :=
  "/"%char ∉ String.list_ascii_of_string x.

(** ** More concrete worlds *)

(** An empty source beside a replica that holds a file and a directory. *)
Definition empty_source_world : world :=
  {| fs := dir [("source", dir []);
                ("replica", dir [("old.txt", File (bytes "old") 3);
                                 ("olddir", dir [("x", File (bytes "x") 1)])])];
     trace := [] |}.

(** A second order of iteration over a set: the reverse of [elements]. *)
Definition reverse_elements (X : gset string) : list string := reverse (elements X).

(** Two entries that agree: both absent, both directories, or both files
    with one digest. *)
Definition same_at (o1 o2 : option node) : Prop :=
  match o1, o2 with
  | Some (File d _), Some (File d' _) => md5_of d = md5_of d'
  | Some (Dir _), Some (Dir _) => True
  | None, None => True
  | _, _ => False
  end.

(** ** The contents of the log file *)

(** The bytes of a file; none where there is no file. *)
Definition file_data (o : option node) : list byte :=
  match o with Some (File data _) => data | _ => [] end.

(** The line that [log_operation] writes for [op] after the calls in
    [history] (lines 25, 26 and 29). *)
Definition log_line (datetime_now : list event -> datetime) (history : list event)
    (op : operation) : list byte :=
  let timestamp := strftime (datetime_now history) in
  let log_message := "[" +:+ timestamp +:+ "] " +:+ message op in
  String.list_byte_of_string (log_message +:+ newline).

(** The lines of the records in [t], which follows [history]. *)
Fixpoint log_lines (datetime_now : list event -> datetime) (history t : list event)
    : list byte :=
  match t with
  | [] => []
  | ev :: t' =>
      match ev_call ev, ev_exn ev with
      | LogOperation op _, None => log_line datetime_now history op
      | _, _ => []
      end ++ log_lines datetime_now (history ++ [ev]) t'
  end.

(** The log file has grown by the lines of the records made. *)
Definition logs_to (datetime_now : list event -> datetime) (log_file : path)
    (w w' : world) : Prop :=
  ∃ t, trace w' = trace w ++ t ∧
       file_data (lookup_path log_file (fs w'))
       = file_data (lookup_path log_file (fs w)) ++ log_lines datetime_now (trace w) t.

(** ** Concrete runs *)

(** A clock that stands still. *)
Definition still_clock : list event -> datetime :=
  fun _ => {| posix := 1700000000; strftime := "2023-11-14 22:13:20" |}.

(** One pass from ["/source"] to ["/replica"], in the order of [elements],
    without outside failures. *)
Definition run (log_file : path) (w : world) : outcome unit * world :=
  sync_folders elements no_fault still_clock 3 ["source"] ["replica"] log_file w.

(** [a.txt] is the same in both trees, [b.txt] is not. *)
Definition two_files_world : world :=
  {| fs := dir [("source", dir [("a.txt", File (bytes "x") 1);
                                ("b.txt", File (bytes "new") 2)]);
                ("replica", dir [("a.txt", File (bytes "x") 1);
                                 ("b.txt", File (bytes "old") 2)])];
     trace := [] |}.

(* ===================================================================== *)
(** * Paths and trees *)
(* ===================================================================== *)

Lemma lookup_path_app (p q : path) (n : node) :
  lookup_path (p ++ q) n = lookup_path p n ≫= lookup_path q.
Proof.
  revert n; induction p as [|x p IH]; intros n; simpl; [done|].
  destruct n as [|es]; [done|]. destruct (es !! x); [apply IH|done].
Qed.

Lemma lookup_path_snoc (p : path) (x : string) (n : node) :
  lookup_path (p ++ [x]) n =
  match lookup_path p n with Some (Dir es) => es !! x | _ => None end.
Proof.
  rewrite lookup_path_app. destruct (lookup_path p n) as [[|es]|]; simpl; try done.
  by destruct (es !! x).
Qed.

Lemma set_path_cons (x y : string) (q : path) (v : option node) (es : gmap string node) :
  set_path (x :: y :: q) v (Dir es) =
  match es !! x with
  | Some c =>
      match set_path (y :: q) v c with
      | Some c' => Some (Dir (<[x := c']> es))
      | None => None
      end
  | None => None
  end.
Proof. reflexivity. Qed.

Lemma lookup_set_path (p : path) (v : option node) (n n' : node) :
  set_path p v n = Some n' -> lookup_path p n' = v.
Proof.
  revert n n'; induction p as [|x q IH]; intros n n' H.
  - destruct n; discriminate.
  - destruct n as [|es]; [discriminate|]. destruct q as [|y q].
    + injection H as <-. simpl. rewrite lookup_partial_alter_eq. by destruct v.
    + rewrite set_path_cons in H.
      destruct (es !! x) as [c|] eqn:Hc; [|discriminate].
      destruct (set_path (y :: q) v c) as [c'|] eqn:Hs; [|discriminate].
      injection H as <-. change (lookup_path (x :: y :: q) (Dir (<[x:=c']> es)))
        with (match <[x:=c']> es !! x with Some c => lookup_path (y :: q) c | None => None end).
      rewrite lookup_insert_eq. by apply (IH c).
Qed.

Lemma lookup_set_path_below (p q : path) (v : option node) (n n' : node) :
  set_path p v n = Some n' -> lookup_path (p ++ q) n' = v ≫= lookup_path q.
Proof. intros H. by rewrite lookup_path_app, (lookup_set_path _ _ _ _ H). Qed.

Lemma separate_sym (p q : path) : separate p q -> separate q p.
Proof. unfold separate; tauto. Qed.

Lemma separate_app (p q a b : path) : separate p q -> separate (p ++ a) (q ++ b).
Proof.
  intros [H1 H2]; split; intros H.
  - destruct (prefix_weak_total p q (q ++ b)) as [?|?]; try done.
    + etrans; [|exact H]. by apply prefix_app_r.
    + by apply prefix_app_r.
  - destruct (prefix_weak_total p q (p ++ a)) as [?|?]; try done.
    + by apply prefix_app_r.
    + etrans; [|exact H]. by apply prefix_app_r.
Qed.

Lemma separate_below_l (p q a : path) : separate p q -> separate (p ++ a) q.
Proof. intros H. rewrite <- (app_nil_r q). by apply separate_app. Qed.

Lemma separate_below_r (p q a : path) : separate p q -> separate p (q ++ a).
Proof. intros H. rewrite <- (app_nil_r p). by apply separate_app. Qed.

Lemma separate_siblings (p : path) (i j : string) :
  i ≠ j -> separate (os_path_join p i) (os_path_join p j).
Proof.
  unfold os_path_join. intros Hne; split; intros H;
    apply prefix_app_inv in H; destruct H as [k Hk]; simpl in Hk; congruence.
Qed.

Lemma separate_nonempty (p q : path) : separate p q -> p ≠ [] ∧ q ≠ [].
Proof.
  intros [H1 H2]; split; intros ->; [apply H1|apply H2]; apply prefix_nil.
Qed.

Lemma set_path_separate (p q : path) (v : option node) (n n' : node) :
  set_path p v n = Some n' -> separate p q ->
  lookup_path q n' = lookup_path q n.
Proof.
  revert q n n'; induction p as [|x p IH]; intros q n n' H Hsep.
  - destruct n; discriminate.
  - destruct n as [|es]; [discriminate|].
    destruct q as [|y q]; [destruct Hsep as [_ []]; apply prefix_nil|].
    destruct p as [|x' p].
    + injection H as <-. simpl.
      destruct (decide (x = y)) as [->|Hne].
      * destruct Hsep as [[] _]. by apply (prefix_cons y [] q), prefix_nil.
      * by rewrite lookup_partial_alter_ne.
    + rewrite set_path_cons in H.
      destruct (es !! x) as [c|] eqn:Hc; [|discriminate].
      destruct (set_path (x' :: p) v c) as [c'|] eqn:Hs; [|discriminate].
      injection H as <-. simpl.
      destruct (decide (x = y)) as [->|Hne].
      * rewrite lookup_insert_eq, Hc. apply (IH q c c' Hs).
        destruct Hsep as [H1 H2]. split; intros Hp; [apply H1|apply H2];
          by apply prefix_cons.
      * by rewrite lookup_insert_ne.
Qed.

Lemma set_path_spine (p r : path) (x : string) (v : option node) (n n' : node) :
  set_path (p ++ x :: r) v n = Some n' ->
  is_dir (lookup_path p n) = true ∧ is_dir (lookup_path p n') = true.
Proof.
  revert n n'; induction p as [|y p IH]; intros n n' H.
  - simpl in *. destruct n as [|es]; [discriminate|].
    destruct r as [|z r]; [by injection H as <-|].
    repeat case_match; try discriminate. by injection H as <-.
  - destruct n as [|es]; [discriminate|].
    destruct (p ++ x :: r) as [|z t] eqn:E; [by destruct p|].
    rewrite <- app_comm_cons, E, set_path_cons in H.
    destruct (es !! y) as [c|] eqn:Hc; [|discriminate].
    destruct (set_path (z :: t) v c) as [c'|] eqn:Hs; [|discriminate].
    injection H as <-. cbn [lookup_path]. rewrite lookup_insert_eq, Hc.
    rewrite <- E in Hs, IH. by apply IH.
Qed.

Lemma depth_entry (es : gmap string node) (i : string) (c : node) :
  es !! i = Some c -> (depth c < depth (Dir es))%nat.
Proof.
  cbn [depth]. intros H. apply Nat.lt_succ_r. revert i c H.
  apply (map_fold_weak_ind
           (fun r (m : gmap string node) => ∀ i c, m !! i = Some c -> (depth c <= r)%nat)).
  - intros i c H. by rewrite lookup_empty in H.
  - intros j x m r Hj IH i c H. destruct (decide (j = i)) as [->|Hne].
    + rewrite lookup_insert_eq in H. injection H as ->. lia.
    + rewrite lookup_insert_ne in H by done. specialize (IH i c H). lia.
Qed.

Lemma depth_dir_le (es : gmap string node) (k : nat) :
  (∀ i c, es !! i = Some c -> (depth c <= k)%nat) -> (depth (Dir es) <= S k)%nat.
Proof.
  cbn [depth]. intros H. apply le_n_S. revert H.
  apply (map_fold_weak_ind
           (fun r (m : gmap string node) =>
              (∀ i c, m !! i = Some c -> (depth c <= k)%nat) -> (r <= k)%nat)).
  - intros _. lia.
  - intros j x m r Hj IH H.
    assert (depth x <= k)%nat by (apply (H j); by rewrite lookup_insert_eq).
    assert (r <= k)%nat; [|lia].
    apply IH. intros i c Hc. apply (H i).
    rewrite lookup_insert_ne; [done|]. by intros ->; rewrite Hj in Hc.
Qed.

(** Binding an entry to a file makes no directory deeper. *)
Lemma set_path_file_depth (p : path) d m (c c' : node) :
  set_path p (Some (File d m)) c = Some c' -> (depth c' <= depth c)%nat.
Proof.
  revert c c'. induction p as [|x p IH]; intros c c' H; [by destruct c|].
  destruct c as [|es]; [done|].
  assert (1 <= depth (Dir es))%nat by (cbn [depth]; lia).
  destruct p as [|y p].
  - injection H as <-.
    transitivity (S (pred (depth (Dir es)))); [|lia].
    apply depth_dir_le. intros i c Hc.
    destruct (decide (i = x)) as [->|Hne].
    + rewrite lookup_partial_alter_eq in Hc. injection Hc as <-. simpl. lia.
    + rewrite lookup_partial_alter_ne in Hc by done. apply depth_entry in Hc. lia.
  - rewrite set_path_cons in H.
    destruct (es !! x) as [cx|] eqn:Hx; [|done].
    destruct (set_path (y :: p) _ cx) as [cx'|] eqn:Hs; [|done].
    injection H as <-. apply IH in Hs. apply depth_entry in Hx as Hx'.
    transitivity (S (pred (depth (Dir es)))); [|lia].
    apply depth_dir_le. intros i c Hc.
    destruct (decide (i = x)) as [->|Hne].
    + rewrite lookup_insert_eq in Hc. injection Hc as <-. lia.
    + rewrite lookup_insert_ne in Hc by done. apply depth_entry in Hc. lia.
Qed.

Lemma set_path_at (p : path) (x : string) (r : path) v (n n' : node) :
  set_path (p ++ x :: r) v n = Some n' ->
  ∃ c c', lookup_path p n = Some c ∧ lookup_path p n' = Some c' ∧
          set_path (x :: r) v c = Some c'.
Proof.
  revert n n'. induction p as [|y p IH]; intros n n' H; [by exists n, n'|].
  destruct n as [|es]; [done|].
  destruct (p ++ x :: r) as [|z t] eqn:E; [by destruct p|].
  rewrite <- app_comm_cons, E, set_path_cons in H.
  destruct (es !! y) as [c|] eqn:Hc; [|done].
  destruct (set_path (z :: t) v c) as [c'|] eqn:Hs; [|done].
  injection H as <-. cbn [lookup_path]. rewrite lookup_insert_eq, Hc.
  rewrite <- E in Hs, IH. by apply IH.
Qed.

Lemma set_path_file_no_deeper (L q : path) d m (n n' : node) :
  set_path L (Some (File d m)) n = Some n' ->
  (depth_at q n' <= depth_at q n)%nat.
Proof.
  intros Hset. unfold depth_at.
  destruct (decide (L `prefix_of` q)) as [[r ->]|H1].
  - rewrite lookup_path_app, (lookup_set_path _ _ _ _ Hset). simpl.
    destruct r; simpl; lia.
  - destruct (decide (q `prefix_of` L)) as [[r ->]|H2].
    + destruct r as [|x r]; [by destruct H1; rewrite app_nil_r|].
      destruct (set_path_at _ _ _ _ _ _ Hset) as (c & c' & -> & -> & Hc).
      simpl. by eapply set_path_file_depth.
    + by rewrite (set_path_separate _ _ _ _ _ Hset).
Qed.

(** Binding a path to a file where no directory was keeps every
    directory a directory. *)
Lemma set_path_file_keeps_dirs (L q : path) d m (n n' : node) :
  set_path L (Some (File d m)) n = Some n' ->
  is_dir (lookup_path L n) = false ->
  is_dir (lookup_path q n) = true -> is_dir (lookup_path q n') = true.
Proof.
  intros Hset HL Hq.
  destruct (decide (L `prefix_of` q)) as [[r ->]|H1].
  - rewrite lookup_path_app in Hq.
    destruct (lookup_path L n) as [[d0 m0|es]|]; [|done..].
    destruct r; done.
  - destruct (decide (q `prefix_of` L)) as [[r ->]|H2].
    + destruct r as [|x r]; [by destruct H1; rewrite app_nil_r|].
      by apply (set_path_spine _ _ _ _ _ _ Hset).
    + by rewrite (set_path_separate _ _ _ _ _ Hset).
Qed.

Lemma confined_refl L P n : confined L P n n.
Proof. by split. Qed.

Lemma confined_trans L P n1 n2 n3 :
  confined L P n1 n2 -> confined L P n2 n3 -> confined L P n1 n3.
Proof.
  intros (A1 & B1 & C1) (A2 & B2 & C2); repeat split.
  - intros q Hq Hl. by rewrite A2, A1.
  - intros q Hq Hd. by apply B2, B1.
  - intros q Hq. etrans; [by apply C2|by apply C1].
Qed.

Lemma confined_entry_refl L P i n : confined_entry L P i n n.
Proof. by split. Qed.

Lemma confined_entry_trans L P i n1 n2 n3 :
  confined_entry L P i n1 n2 -> confined_entry L P i n2 n3 ->
  confined_entry L P i n1 n3.
Proof.
  intros (A1 & B1 & C1) (A2 & B2 & C2); repeat split.
  - intros q Hq Hl. by rewrite A2, A1.
  - intros q Hq Hd. by apply B2, B1.
  - intros q Hq. etrans; [by apply C2|by apply C1].
Qed.

Lemma confined_entry_weaken L P i n n' : confined_entry L P i n n' -> confined L P n n'.
Proof.
  intros (A & B & C); repeat split; [|done|].
  - intros q Hq Hl. apply A; [|done]. by apply separate_below_l.
  - intros q Hq. apply C. by apply separate_below_l.
Qed.

Lemma confined_below L P i n n' :
  confined L (os_path_join P i) n n' -> confined_entry L P i n n'.
Proof.
  intros (A & B & C); repeat split; [done| |done].
  intros q Hq. apply B. etrans; [exact Hq|]. by apply prefix_app_r.
Qed.

Lemma set_path_confined_entry L P i rest v n n' :
  set_path (P ++ i :: rest) v n = Some n' -> confined_entry L P i n n'.
Proof.
  intros H.
  assert (A : ∀ q, separate (os_path_join P i) q -> lookup_path q n' = lookup_path q n).
  { intros q Hq. apply (set_path_separate _ _ _ _ _ H).
    unfold os_path_join in Hq.
    replace (P ++ i :: rest) with ((P ++ [i]) ++ rest) by by rewrite <- app_assoc.
    by apply separate_below_l. }
  repeat split.
  - intros q Hq _. by apply A.
  - intros q [k ->] _. destruct k as [|y k].
    + rewrite app_nil_r in *. by apply (set_path_spine _ _ _ _ _ _ H).
    + rewrite <- app_assoc in H. simpl in H.
      by apply (set_path_spine _ _ _ _ _ _ H).
  - intros q Hq. unfold depth_at. by rewrite A.
Qed.

(** An append to the log file. *)
Lemma set_path_log_confined_entry L P i d m n n' :
  set_path L (Some (File d m)) n = Some n' ->
  is_dir (lookup_path L n) = false ->
  confined_entry L P i n n'.
Proof.
  intros H HL; repeat split.
  - intros q _ Hl. by apply (set_path_separate _ _ _ _ _ H).
  - intros q _. by apply (set_path_file_keeps_dirs _ _ _ _ _ _ H).
  - intros q _. by eapply set_path_file_no_deeper.
Qed.

(* ===================================================================== *)
(** * Reasoning about runs *)
(* ===================================================================== *)

Lemma wp_run {A} (m : M A) Q w o w' : m w = (o, w') -> wp m Q w -> Q o w'.
Proof. unfold wp. by intros ->. Qed.

Lemma wp_intro {A} (m : M A) (Q : outcome A -> world -> Prop) w :
  (∀ o w', m w = (o, w') -> Q o w') -> wp m Q w.
Proof. unfold wp. intros H. apply H. by destruct (m w). Qed.

Lemma wp_mono {A} (m : M A) (Q Q' : outcome A -> world -> Prop) w :
  (∀ o w', Q o w' -> Q' o w') -> wp m Q w -> wp m Q' w.
Proof. unfold wp. auto. Qed.

Lemma wp_ret {A} (a : A) Q w : wp (ret a) Q w ↔ Q (Ok a) w.
Proof. done. Qed.

Lemma wp_out_of_fuel {A} (Q : outcome A -> world -> Prop) w :
  wp out_of_fuel Q w ↔ Q OutOfFuel w.
Proof. done. Qed.

Lemma wp_bind {A B} (m : M A) (k : A -> M B) Q w :
  wp (bind m k) Q w ↔
  wp m (fun o w1 =>
          match o with
          | Ok a => wp (k a) Q w1
          | Raised e => Q (Raised e) w1
          | OutOfFuel => Q OutOfFuel w1
          end) w.
Proof. unfold wp, bind. by destruct (m w) as [[a|e|] w1]. Qed.

Lemma wp_query {A} (c : call) (f : node -> A) Q w :
  wp (query c f) Q w ↔ Q (Ok (f (fs w))) (record c None w (fs w)).
Proof. done. Qed.

(** Loop rule: [I done w] holds after the items [done] have been processed;
    an iteration that raises or runs out of fuel ends the loop. *)
Lemma wp_for_each {A} (l : list A) (body : A -> M unit)
    (I : list A -> world -> Prop) (Q : outcome unit -> world -> Prop) w :
  I [] w ->
  (∀ done x rest w1, l = done ++ x :: rest -> I done w1 ->
     wp (body x) (fun o w2 =>
                    match o with
                    | Ok _ => I (done ++ [x]) w2
                    | Raised e => Q (Raised e) w2
                    | OutOfFuel => Q OutOfFuel w2
                    end) w1) ->
  (∀ w', I l w' -> Q (Ok tt) w') ->
  wp (for_each l body) Q w.
Proof.
  intros H0 Hstep Hend.
  assert (G : ∀ rest done w1, l = done ++ rest -> I done w1 ->
                wp (for_each rest body) Q w1).
  { induction rest as [|x rest IH]; intros done w1 El HI.
    - rewrite app_nil_r in El. subst done. by apply Hend.
    - simpl. apply wp_bind. eapply wp_mono; [|by eapply Hstep].
      intros [[]|e|] w2 H2; try done.
      apply (IH (done ++ [x])); [by rewrite <- app_assoc|done]. }
  by apply (G l []).
Qed.

(** ** Runs that stay inside a reflexive and transitive relation *)

Section Respects.
Context (Rel : world -> world -> Prop) `{!PreOrder Rel}.

Lemma respects_ret {A} (a : A) : respects Rel (ret a).
Proof. intros w. by apply wp_ret. Qed.

Lemma respects_out_of_fuel {A} : respects Rel (@out_of_fuel A).
Proof. intros w. by apply wp_out_of_fuel. Qed.

Lemma respects_bind {A B} (m : M A) (k : A -> M B) :
  respects Rel m -> (∀ a, respects Rel (k a)) -> respects Rel (bind m k).
Proof.
  intros Hm Hk w. apply wp_bind. eapply wp_mono; [|apply Hm].
  intros [a|e|] w1 H1; try done.
  eapply wp_mono; [|apply Hk]. intros o w2 H2. simpl in *. by etrans.
Qed.

Lemma respects_for_each {A} (l : list A) (body : A -> M unit) :
  (∀ x, x ∈ l -> respects Rel (body x)) -> respects Rel (for_each l body).
Proof.
  intros Hb w. apply (wp_for_each l body (fun _ w' => Rel w w')); [done| |done].
  intros done x rest w1 -> H1. eapply wp_mono; [|apply Hb].
  - intros [[]|e|] w2 H2; by etrans.
  - rewrite elem_of_app, elem_of_cons. auto.
Qed.

End Respects.

Lemma respects_mono {A} (Rel Rel' : world -> world -> Prop) (m : M A) :
  (∀ w w', Rel w w' -> Rel' w w') -> respects Rel m -> respects Rel' m.
Proof. intros H Hm w. eapply wp_mono; [|apply Hm]. intros o w'. apply H. Qed.

Lemma respects_run {A} Rel (m : M A) w o w' :
  respects Rel m -> m w = (o, w') -> Rel w w'.
Proof. intros H Hr. by apply (wp_run _ _ _ _ _ Hr (H w)). Qed.

(** ** The two relations of the synchroniser *)

Lemma extends_refl P w : extends P w w.
Proof. exists []. by rewrite app_nil_r. Qed.

Lemma extends_trans P w1 w2 w3 : extends P w1 w2 -> extends P w2 w3 -> extends P w1 w3.
Proof.
  intros (t1 & E1 & F1) (t2 & E2 & F2). exists (t1 ++ t2). split.
  - by rewrite E2, E1, <- app_assoc.
  - by apply Forall_app.
Qed.

Lemma extends_mono (P P' : event -> Prop) w w' :
  (∀ ev, P ev -> P' ev) -> extends P w w' -> extends P' w w'.
Proof. intros H (t & E & F). exists t. split; [done|]. eapply Forall_impl; eauto. Qed.

Lemma extends_record P c e w n : P (Event c e) -> extends P w (record c e w n).
Proof. intros H. exists [Event c e]. split; [done|]. by constructor. Qed.

Lemma extends_new_events P w w' :
  extends P w w' -> trace w' = trace w ++ new_events w w' ∧ Forall P (new_events w w').
Proof.
  intros (t & E & F). unfold new_events. by rewrite E, drop_app_length.
Qed.

#[export] Instance pass_rel_preorder L R : PreOrder (pass_rel L R).
Proof.
  split.
  - intros w. split; [apply confined_refl|apply extends_refl].
  - intros w1 w2 w3 [A1 B1] [A2 B2]. split;
      [by eapply confined_trans|by eapply extends_trans].
Qed.

#[export] Instance item_rel_preorder L R i : PreOrder (item_rel L R i).
Proof.
  split.
  - intros w. split; [apply confined_entry_refl|apply extends_refl].
  - intros w1 w2 w3 [A1 B1] [A2 B2]. split;
      [by eapply confined_entry_trans|by eapply extends_trans].
Qed.

Lemma item_rel_pass_rel L R i w w' : item_rel L R i w w' -> pass_rel L R w w'.
Proof.
  intros [A B]. split; [by eapply confined_entry_weaken|].
  eapply extends_mono; [|exact B]. intros ev H p Hp.
  destruct (H p Hp) as [k ->]. unfold os_path_join. rewrite <- app_assoc.
  by exists i, k.
Qed.

Lemma pass_rel_item_rel L R i w w' :
  pass_rel L (os_path_join R i) w w' -> item_rel L R i w w'.
Proof.
  intros [A B]. split; [by apply confined_below|].
  eapply extends_mono; [|exact B]. intros ev H p Hp.
  destruct (H p Hp) as (x & k & ->). by apply prefix_app_r.
Qed.

Lemma targets_none T c e : effect_target c = None -> targets T (Event c e).
Proof. intros H p. simpl. by rewrite H. Qed.

Lemma targets_some T c e p : effect_target c = Some p -> T p -> targets T (Event c e).
Proof. intros H Hp q. simpl. rewrite H. by intros [= <-]. Qed.

Section Calls.
Variable set_iter : gset string -> list string.
Variable fault : call -> node -> option exn.
Variable datetime_now : list event -> datetime.
Variable L : path.

Lemma wp_syscall {A} (c : call) (sem : node -> exn + A * node) Q w :
  wp (syscall fault c sem) Q w ↔
  match fault c (fs w) with
  | Some e => Q (Raised e) (record c (Some e) w (fs w))
  | None =>
      match sem (fs w) with
      | inl e => Q (Raised e) (record c (Some e) w (fs w))
      | inr (a, n') => Q (Ok a) (record c None w n')
      end
  end.
Proof.
  unfold wp, syscall. destruct (fault c (fs w)); [done|].
  by destruct (sem (fs w)) as [e|[a n']].
Qed.

Lemma respects_syscall {A} Rel (c : call) (sem : node -> exn + A * node) :
  (∀ w e, Rel w (record c (Some e) w (fs w))) ->
  (∀ w a n', sem (fs w) = inr (a, n') -> Rel w (record c None w n')) ->
  respects Rel (syscall fault c sem).
Proof.
  intros He Hok w. apply wp_syscall. destruct (fault c (fs w)); [apply He|].
  destruct (sem (fs w)) as [e|[a n']] eqn:E; [apply He|by eapply Hok].
Qed.

Lemma respects_query {A} (Rel : world -> world -> Prop) (c : call) (f : node -> A) :
  (∀ w, Rel w (record c None w (fs w))) -> respects Rel (query c f).
Proof. intros H w. apply wp_query, H. Qed.

(** ** Every call of a loop body stays at its entry of the replica *)

(** [log_operation]: the call fails and leaves the file system as it is, or
    it binds the log file to a file where no directory was. *)
Lemma wp_log_operation op (Q : outcome unit -> world -> Prop) w :
  (∀ e, Q (Raised e) (record (LogOperation op L) (Some e) w (fs w))) ->
  (∀ d m n', is_dir (lookup_path L (fs w)) = false ->
     set_path L (Some (File d m)) (fs w) = Some n' ->
     Q (Ok tt) (record (LogOperation op L) None w n')) ->
  wp (log_operation fault datetime_now op L) Q w.
Proof.
  intros He Hok. unfold log_operation. cbv zeta. apply wp_syscall.
  destruct (fault _ (fs w)); [apply He|].
  destruct (lookup_path L (fs w)) as [[d m|es]|] eqn:E; [|apply He|];
    (destruct (set_path L _ (fs w)) as [n'|] eqn:Hs; [|apply He]);
    eapply Hok; try exact Hs; by rewrite ?E.
Qed.

Lemma respects_log_operation Rel op :
  (∀ w e, Rel w (record (LogOperation op L) (Some e) w (fs w))) ->
  (∀ w d m n', is_dir (lookup_path L (fs w)) = false ->
     set_path L (Some (File d m)) (fs w) = Some n' ->
     Rel w (record (LogOperation op L) None w n')) ->
  respects Rel (log_operation fault datetime_now op L).
Proof. intros He Hok w. apply wp_log_operation; [apply He|apply Hok]. Qed.

Lemma item_rel_same R i c e w :
  (∀ p, effect_target c = Some p -> os_path_join R i `prefix_of` p) ->
  item_rel L R i w (record c e w (fs w)).
Proof.
  intros H. split; [apply confined_entry_refl|].
  apply extends_record. intros p. apply H.
Qed.

Lemma item_rel_set R i rest v c w n' :
  (∀ p, effect_target c = Some p -> os_path_join R i `prefix_of` p) ->
  set_path (R ++ i :: rest) v (fs w) = Some n' ->
  item_rel L R i w (record c None w n').
Proof.
  intros H Hs. split; [by eapply set_path_confined_entry|].
  apply extends_record. intros p. apply H.
Qed.

Lemma os_path_isdir_item R i p : respects (item_rel L R i) (os_path_isdir p).
Proof. apply respects_query. intros w. by apply item_rel_same. Qed.

Lemma os_path_exists_item R i p : respects (item_rel L R i) (os_path_exists p).
Proof. apply respects_query. intros w. by apply item_rel_same. Qed.

Lemma calculate_md5_item R i p : respects (item_rel L R i) (calculate_md5 fault p).
Proof.
  apply respects_bind; [apply _| |intros; by apply respects_ret; apply _].
  apply respects_syscall.
  - intros w e. by apply item_rel_same.
  - intros w a n' H. destruct (lookup_path p (fs w)) as [[]|]; simplify_eq.
    by apply item_rel_same.
Qed.

Lemma log_operation_item R i op :
  os_path_join R i `prefix_of` op_path op ->
  respects (item_rel L R i) (log_operation fault datetime_now op L).
Proof.
  intros Hp. apply respects_log_operation.
  - intros w e. apply item_rel_same. by intros p [= <-].
  - intros w d m n' HL Hs. split; [by eapply set_path_log_confined_entry|].
    apply extends_record. by intros p [= <-].
Qed.

Lemma shutil_copytree_item R i src :
  respects (item_rel L R i) (shutil_copytree fault src (os_path_join R i)).
Proof.
  apply respects_syscall.
  - intros w e. apply item_rel_same. by intros p [= <-].
  - intros w [] n' H.
    destruct (lookup_path src (fs w)) as [[|es]|]; try discriminate.
    destruct (lookup_path (os_path_join R i) (fs w)); try discriminate.
    destruct (set_path _ _ _) as [n1|] eqn:Hs; simplify_eq.
    eapply item_rel_set; [|exact Hs]. by intros p [= <-].
Qed.

Lemma shutil_copy2_item R i src :
  respects (item_rel L R i) (shutil_copy2 fault src (os_path_join R i)).
Proof.
  apply respects_syscall.
  - intros w e. apply item_rel_same. by intros p [= <-].
  - intros w [] n' H.
    destruct (lookup_path src (fs w)) as [[data mtime|es]|]; try discriminate.
    cbv zeta in H.
    destruct (is_dir (lookup_path (os_path_join R i) (fs w)));
      (case_decide; [discriminate|]);
      (destruct (is_dir _); [discriminate|]);
      destruct (set_path _ _ _) as [n1|] eqn:Hs; simplify_eq.
    + unfold os_path_join in Hs. rewrite <- app_assoc in Hs.
      eapply item_rel_set; [|exact Hs]. by intros p [= <-].
    + eapply item_rel_set; [|exact Hs]. by intros p [= <-].
Qed.

Lemma os_remove_item R i :
  respects (item_rel L R i) (os_remove fault (os_path_join R i)).
Proof.
  apply respects_syscall.
  - intros w e. apply item_rel_same. by intros p [= <-].
  - intros w [] n' H.
    destruct (lookup_path _ (fs w)) as [[|es]|]; try discriminate.
    destruct (set_path _ _ _) as [n1|] eqn:Hs; simplify_eq.
    eapply item_rel_set; [|exact Hs]. by intros p [= <-].
Qed.

Lemma shutil_rmtree_item R i :
  respects (item_rel L R i) (shutil_rmtree fault (os_path_join R i)).
Proof.
  apply respects_syscall.
  - intros w e. apply item_rel_same. by intros p [= <-].
  - intros w [] n' H.
    destruct (lookup_path _ (fs w)) as [[|es]|]; try discriminate.
    destruct (set_path _ _ _) as [n1|] eqn:Hs; simplify_eq.
    eapply item_rel_set; [|exact Hs]. by intros p [= <-].
Qed.

Lemma os_listdir_pass R p : respects (pass_rel L R) (os_listdir fault p).
Proof.
  apply respects_syscall.
  - intros w e. split; [apply confined_refl|]. by apply extends_record.
  - intros w a n' H. destruct (lookup_path p (fs w)) as [[]|]; simplify_eq.
    split; [apply confined_refl|]. by apply extends_record.
Qed.

Lemma reconcile_item_respects self S R i :
  (∀ S' R', respects (pass_rel L R') (self S' R' L)) ->
  respects (item_rel L R i) (reconcile_item fault datetime_now self S R L i).
Proof.
  intros Hself. unfold reconcile_item.
  apply respects_bind; [apply _|apply os_path_isdir_item|]. intros [|].
  - apply respects_bind; [apply _|apply os_path_exists_item|]. intros [|]; simpl.
    + eapply respects_mono; [apply pass_rel_item_rel|apply Hself].
    + apply respects_bind; [apply _|apply shutil_copytree_item|]. intros _.
      by apply log_operation_item.
  - apply respects_bind; [apply _|apply os_path_exists_item|]. intros e.
    apply respects_bind; [apply _| |].
    + destruct e; simpl; [|by apply respects_ret; apply _].
      apply respects_bind; [apply _|apply calculate_md5_item|]. intros h1.
      apply respects_bind; [apply _|apply calculate_md5_item|]. intros h2.
      apply respects_ret; apply _.
    + intros [|]; [|apply respects_ret; apply _].
      apply respects_bind; [apply _|apply shutil_copy2_item|]. intros _.
      by apply log_operation_item.
Qed.

Lemma prune_item_respects source_files S R i :
  respects (item_rel L R i) (prune_item fault datetime_now source_files S R L i).
Proof.
  unfold prune_item. case_bool_decide; [|apply respects_ret; apply _].
  apply respects_bind; [apply _|apply os_path_isdir_item|]. intros [|].
  - apply respects_bind; [apply _|apply shutil_rmtree_item|]. intros _.
    by apply log_operation_item.
  - apply respects_bind; [apply _|apply os_remove_item|]. intros _.
    by apply log_operation_item.
Qed.

(** Every run of [sync_folders], whatever its outcome, leaves the file
    system beside the replica and the log file alone and reports only
    paths below the replica. *)
Lemma sync_folders_respects fuel S R :
  respects (pass_rel L R) (sync_folders set_iter fault datetime_now fuel S R L).
Proof.
  revert S R; induction fuel as [|fuel IH]; intros S R; simpl.
  - apply respects_out_of_fuel; apply _.
  - apply respects_bind; [apply _|apply os_listdir_pass|]. intros ss.
    apply respects_bind; [apply _|apply os_listdir_pass|]. intros rs.
    apply respects_bind; [apply _| |intros _].
    + apply respects_for_each; [apply _|]. intros i _.
      eapply respects_mono; [apply item_rel_pass_rel|].
      by apply reconcile_item_respects.
    + apply respects_for_each; [apply _|]. intros i _.
      eapply respects_mono; [apply item_rel_pass_rel|].
      apply prune_item_respects.
Qed.

End Calls.

(* ===================================================================== *)
(** * Exceptions abort the pass *)
(* ===================================================================== *)

Lemma disciplined_app {A} (o : outcome A) t1 t2 :
  Forall succeeded t1 -> disciplined o t2 -> disciplined o (t1 ++ t2).
Proof.
  intros H1 H2. destruct o as [a|e|]; simpl in *; try by apply Forall_app.
  destruct H2 as (pre & c & -> & Hpre). exists (t1 ++ pre), c.
  split; [by rewrite app_assoc|by apply Forall_app].
Qed.

Lemma disciplined_failure_last {A} (o : outcome A) t pre ev post e :
  disciplined o t -> t = pre ++ ev :: post -> ev_exn ev = Some e ->
  post = [] ∧ o = Raised e.
Proof.
  intros Hd -> He.
  assert (Hno : ∀ l, ¬ Forall succeeded (pre ++ ev :: l)).
  { intros l HF. apply Forall_app in HF as [_ HF]. apply Forall_cons in HF as [HF _].
    unfold succeeded in HF. congruence. }
  destruct o as [a|e'|]; simpl in Hd; try (exfalso; by apply (Hno post)).
  destruct Hd as (pre' & c & E & Hpre).
  destruct post as [|ev' post _] using rev_ind.
  - apply app_inj_tail in E as [-> ->]. simpl in He. by injection He as ->.
  - rewrite app_comm_cons, app_assoc in E.
    apply app_inj_tail in E as [<- _]. exfalso. by apply (Hno post).
Qed.

Lemma propagates_ret {A} (a : A) : propagates (ret a).
Proof.
  intros w. apply wp_ret. exists []. split; [by rewrite app_nil_r|by constructor].
Qed.

Lemma propagates_out_of_fuel {A} : propagates (@out_of_fuel A).
Proof.
  intros w. apply wp_out_of_fuel. exists []. split; [by rewrite app_nil_r|by constructor].
Qed.

Lemma propagates_bind {A B} (m : M A) (k : A -> M B) :
  propagates m -> (∀ a, propagates (k a)) -> propagates (bind m k).
Proof.
  intros Hm Hk w. apply wp_bind. eapply wp_mono; [|apply Hm].
  intros [a|e|] w1 (t1 & E1 & D1); simpl in D1; [|by exists t1..].
  eapply wp_mono; [|apply Hk]. intros o w2 (t2 & E2 & D2).
  exists (t1 ++ t2). split; [by rewrite E2, E1, <- app_assoc|].
  by apply disciplined_app.
Qed.

Lemma propagates_for_each {A} (l : list A) (body : A -> M unit) :
  (∀ x, propagates (body x)) -> propagates (for_each l body).
Proof.
  intros Hb w.
  apply (wp_for_each l body
           (fun _ w' => ∃ t, trace w' = trace w ++ t ∧ Forall succeeded t)).
  - exists []. split; [by rewrite app_nil_r|by constructor].
  - intros done x rest w1 _ (t1 & E1 & F1). eapply wp_mono; [|apply Hb].
    intros o w2 (t2 & E2 & D2).
    assert (D : disciplined o (t1 ++ t2)) by by apply disciplined_app.
    assert (E : trace w2 = trace w ++ t1 ++ t2) by by rewrite E2, E1, <- app_assoc.
    destruct o as [[]|e|]; by exists (t1 ++ t2).
  - intros w' (t & E & F). by exists t.
Qed.

Lemma propagates_query {A} (c : call) (f : node -> A) : propagates (query c f).
Proof. intros w. apply wp_query. exists [Event c None]. split; [done|]. by repeat constructor. Qed.

Section Propagation.
Variable set_iter : gset string -> list string.
Variable fault : call -> node -> option exn.
Variable datetime_now : list event -> datetime.

Lemma propagates_syscall {A} (c : call) (sem : node -> exn + A * node) :
  propagates (syscall fault c sem).
Proof.
  intros w. apply wp_syscall.
  assert (Hr : ∀ e, ∃ t, trace (record c (Some e) w (fs w)) = trace w ++ t ∧
                         @disciplined A (Raised e) t).
  { intros e. exists [Event c (Some e)]. split; [done|]. by exists [], c. }
  destruct (fault c (fs w)) as [e|]; [apply Hr|].
  destruct (sem (fs w)) as [e|[a n']]; [apply Hr|].
  exists [Event c None]. split; [done|]. by repeat constructor.
Qed.

Lemma calculate_md5_propagates p : propagates (calculate_md5 fault p).
Proof.
  apply propagates_bind; [apply propagates_syscall|]. intros. apply propagates_ret.
Qed.

Lemma log_operation_propagates op L :
  propagates (log_operation fault datetime_now op L).
Proof.
  intros w. apply wp_log_operation.
  - intros e. exists [Event (LogOperation op L) (Some e)]. split; [done|].
    by exists [], (LogOperation op L).
  - intros d m n' _ _. exists [Event (LogOperation op L) None]. split; [done|].
    by repeat constructor.
Qed.

Lemma time_sleep_propagates interval : propagates (time_sleep fault interval).
Proof. apply propagates_syscall. Qed.

Lemma reconcile_item_propagates self S R L i :
  (∀ S' R', propagates (self S' R' L)) ->
  propagates (reconcile_item fault datetime_now self S R L i).
Proof.
  intros Hself. unfold reconcile_item.
  apply propagates_bind; [apply propagates_query|]. intros [|].
  - apply propagates_bind; [apply propagates_query|]. intros [|]; simpl; [done|].
    apply propagates_bind; intros;
      [apply propagates_syscall|apply log_operation_propagates].
  - apply propagates_bind; [apply propagates_query|]. intros e.
    apply propagates_bind.
    + destruct e; simpl; [|apply propagates_ret].
      apply propagates_bind; [apply calculate_md5_propagates|]. intros h1.
      apply propagates_bind; [apply calculate_md5_propagates|]. intros h2.
      apply propagates_ret.
    + intros [|]; [|apply propagates_ret].
      apply propagates_bind; intros;
        [apply propagates_syscall|apply log_operation_propagates].
Qed.

Lemma prune_item_propagates source_files S R L i :
  propagates (prune_item fault datetime_now source_files S R L i).
Proof.
  unfold prune_item. case_bool_decide; [|apply propagates_ret].
  apply propagates_bind; [apply propagates_query|]. intros [|];
    apply propagates_bind; intros;
      first [apply propagates_syscall|apply log_operation_propagates].
Qed.

Lemma sync_folders_propagates fuel S R L :
  propagates (sync_folders set_iter fault datetime_now fuel S R L).
Proof.
  revert S R; induction fuel as [|fuel IH]; intros S R; simpl.
  - apply propagates_out_of_fuel.
  - apply propagates_bind; [apply propagates_syscall|]. intros ss.
    apply propagates_bind; [apply propagates_syscall|]. intros rs.
    apply propagates_bind; [|intros _]; apply propagates_for_each; intros i.
    + by apply reconcile_item_propagates.
    + apply prune_item_propagates.
Qed.

(** C6.  A call that fails while [sync_folders] runs, be it a listing, a
    read for the digest, a copy, a removal or the write of a log record, is
    the last call of the pass: nothing is caught, skipped or retried, and
    the exception of that call is the outcome handed to the caller.  This
    holds wherever the log file lies. *)
Theorem sync_folders_aborts_on_first_failure fuel S R L w :
  ∃ t, trace (sync_folders set_iter fault datetime_now fuel S R L w).2 = trace w ++ t ∧
    (∀ pre ev post e, t = pre ++ ev :: post -> ev_exn ev = Some e ->
       post = [] ∧ (sync_folders set_iter fault datetime_now fuel S R L w).1 = Raised e) ∧
    (∀ e, (sync_folders set_iter fault datetime_now fuel S R L w).1 = Raised e ->
       ∃ pre c, t = pre ++ [Event c (Some e)] ∧ Forall succeeded pre).
Proof.
  destruct (sync_folders_propagates fuel S R L w) as (t & E & D).
  exists t. split; [done|]. split.
  - intros pre ev post e Ht He. by eapply disciplined_failure_last.
  - intros e He. rewrite He in D. exact D.
Qed.

End Propagation.

(* ===================================================================== *)
(** * Passes that return *)
(* ===================================================================== *)

Lemma wp_and {A} (m : M A) (Q1 Q2 : outcome A -> world -> Prop) w :
  wp m Q1 w -> wp m Q2 w -> wp m (fun o w' => Q1 o w' ∧ Q2 o w') w.
Proof. unfold wp. auto. Qed.

Lemma wp_ret_ok {A} (a : A) (P : A -> world -> Prop) w :
  P a w -> wp (ret a) (on_ok P) w.
Proof. done. Qed.

Lemma wp_bind_ok {A B} (m : M A) (k : A -> M B) (P : B -> world -> Prop) w :
  wp m (on_ok (fun a w1 => wp (k a) (on_ok P) w1)) w ->
  wp (bind m k) (on_ok P) w.
Proof.
  intros H. apply wp_bind. eapply wp_mono; [|exact H]. by intros [a|e|] w1.
Qed.

Lemma wp_query_ok {A} (c : call) (f : node -> A) (P : A -> world -> Prop) w :
  P (f (fs w)) (record c None w (fs w)) -> wp (query c f) (on_ok P) w.
Proof. done. Qed.

Lemma wp_for_each_ok {A} (l : list A) (body : A -> M unit)
    (I : list A -> world -> Prop) (P : unit -> world -> Prop) w :
  I [] w ->
  (∀ done x rest w1, l = done ++ x :: rest -> I done w1 ->
     wp (body x) (on_ok (fun _ w2 => I (done ++ [x]) w2)) w1) ->
  (∀ w', I l w' -> P tt w') ->
  wp (for_each l body) (on_ok P) w.
Proof.
  intros H0 Hstep Hend. apply (wp_for_each l body I); [done| |done].
  intros done x rest w1 El H1. eapply wp_mono; [|by eapply Hstep].
  by intros [[]|e|] w2.
Qed.

Lemma wp_on_ok_mono {A} (m : M A) (P P' : A -> world -> Prop) w :
  (∀ a w', P a w' -> P' a w') -> wp m (on_ok P) w -> wp m (on_ok P') w.
Proof. intros H. apply wp_mono. intros [a|e|] w'; simpl; auto. Qed.

(** ** Effects at a path *)

Lemma effects_at_nil p : effects_at p [] = [].
Proof. done. Qed.

Lemma effects_at_app p t1 t2 :
  effects_at p (t1 ++ t2) = effects_at p t1 ++ effects_at p t2.
Proof. unfold effects_at. by rewrite filter_app, map_app. Qed.

Lemma effects_at_hit p c e t :
  effect_target c = Some p -> effects_at p (Event c e :: t) = c :: effects_at p t.
Proof. intros H. unfold effects_at. by rewrite filter_cons_True. Qed.

Lemma effects_at_miss p c e t :
  effect_target c ≠ Some p -> effects_at p (Event c e :: t) = effects_at p t.
Proof. intros H. unfold effects_at. by rewrite filter_cons_False. Qed.

Lemma effects_at_none (T : path -> Prop) p t :
  Forall (targets T) t -> ¬ T p -> effects_at p t = [].
Proof.
  intros HF Hp. induction HF as [|[c e] t Hc _ IH]; [done|].
  rewrite effects_at_miss; [done|]. intros E. apply Hp. by apply (Hc p).
Qed.

Lemma not_below_self (p : path) : ¬ below p p.
Proof.
  intros (x & q & E). apply (f_equal length) in E.
  rewrite length_app in E. simpl in E. lia.
Qed.

Lemma prefix_siblings (p : path) (i j : string) :
  os_path_join p j `prefix_of` os_path_join p i -> j = i.
Proof.
  intros H. apply prefix_app_inv in H. destruct H as [k Hk]. simpl in Hk. congruence.
Qed.

Lemma effects_at_below p t :
  Forall (targets (below p)) t -> effects_at p t = [].
Proof. intros H. eapply effects_at_none; [exact H|apply not_below_self]. Qed.

Lemma effects_at_sibling p i j t :
  Forall (targets (fun q => os_path_join p j `prefix_of` q)) t -> i ≠ j ->
  effects_at (os_path_join p i) t = [].
Proof.
  intros H Hne. eapply effects_at_none; [exact H|].
  intros Hp. by apply prefix_siblings in Hp.
Qed.

Lemma trace_record c e w n : trace (record c e w n) = trace w ++ [Event c e].
Proof. done. Qed.

Lemma fs_record c e w n : fs (record c e w n) = n.
Proof. done. Qed.

Lemma is_dir_true o : is_dir o = true -> ∃ es, o = Some (Dir es).
Proof. destruct o as [[|es]|]; try done. by exists es. Qed.

Ltac world_simpl := cbn [fs trace record] in *.

Ltac effects_calc :=
  repeat first
    [ rewrite effects_at_hit by done
    | rewrite effects_at_miss by done
    | rewrite effects_at_nil ].

Section Success.
Variable set_iter : gset string -> list string.
Variable fault : call -> node -> option exn.
Variable datetime_now : list event -> datetime.
Variable L : path.

Lemma wp_syscall_ok {A} (c : call) (sem : node -> exn + A * node)
    (P : A -> world -> Prop) w :
  (∀ a n', sem (fs w) = inr (a, n') -> P a (record c None w n')) ->
  wp (syscall fault c sem) (on_ok P) w.
Proof.
  intros H. apply wp_syscall. destruct (fault c (fs w)); [done|].
  destruct (sem (fs w)) as [e|[a n']]; [done|]. by apply H.
Qed.

Lemma wp_calculate_md5_ok p (P : string -> world -> Prop) w :
  (∀ d m, lookup_path p (fs w) = Some (File d m) ->
     P (md5_of d) (record (OpenRb p) None w (fs w))) ->
  wp (calculate_md5 fault p) (on_ok P) w.
Proof.
  intros H. apply wp_bind_ok, wp_syscall_ok. intros a n' Hs.
  destruct (lookup_path p (fs w)) as [[d m|]|]; simplify_eq.
  apply wp_ret_ok. by eapply H.
Qed.

Lemma wp_log_operation_ok op (P : unit -> world -> Prop) w :
  (∀ d m n', is_dir (lookup_path L (fs w)) = false ->
     set_path L (Some (File d m)) (fs w) = Some n' ->
     P tt (record (LogOperation op L) None w n')) ->
  wp (log_operation fault datetime_now op L) (on_ok P) w.
Proof. intros H. by apply wp_log_operation. Qed.


Lemma wp_os_listdir_ok p (P : list string -> world -> Prop) w :
  (∀ es, lookup_path p (fs w) = Some (Dir es) ->
     P (elements (dom es)) (record (Listdir p) None w (fs w))) ->
  wp (os_listdir fault p) (on_ok P) w.
Proof.
  intros H. apply wp_syscall_ok. intros a n' Hs.
  destruct (lookup_path p (fs w)) as [[|es]|]; simplify_eq. by apply H.
Qed.

Lemma wp_shutil_copytree_ok src dst (P : unit -> world -> Prop) w :
  (∀ es n', lookup_path src (fs w) = Some (Dir es) ->
     lookup_path dst (fs w) = None ->
     set_path dst (Some (Dir es)) (fs w) = Some n' ->
     P tt (record (Copytree src dst) None w n')) ->
  wp (shutil_copytree fault src dst) (on_ok P) w.
Proof.
  intros H. apply wp_syscall_ok. intros [] n' Hs.
  destruct (lookup_path src (fs w)) as [[|es]|]; try discriminate.
  destruct (lookup_path dst (fs w)) eqn:Hd; try discriminate.
  destruct (set_path _ _ _) as [n1|] eqn:Hset; simplify_eq. by eapply H.
Qed.

Lemma wp_shutil_copy2_ok src dst (P : unit -> world -> Prop) w :
  is_dir (lookup_path dst (fs w)) = false ->
  (∀ d m n', lookup_path src (fs w) = Some (File d m) ->
     set_path dst (Some (File d m)) (fs w) = Some n' ->
     P tt (record (Copy2 src dst) None w n')) ->
  wp (shutil_copy2 fault src dst) (on_ok P) w.
Proof.
  intros Hdst H. apply wp_syscall_ok. intros [] n' Hs.
  destruct (lookup_path src (fs w)) as [[d m|es]|]; try discriminate.
  rewrite Hdst in Hs. cbv zeta in Hs. rewrite Hdst in Hs.
  case_decide; [done|].
  destruct (set_path _ _ _) as [n1|] eqn:Hset; simplify_eq. by eapply H.
Qed.

Lemma wp_os_remove_ok p (P : unit -> world -> Prop) w :
  (∀ d m n', lookup_path p (fs w) = Some (File d m) ->
     set_path p None (fs w) = Some n' ->
     P tt (record (Remove p) None w n')) ->
  wp (os_remove fault p) (on_ok P) w.
Proof.
  intros H. apply wp_syscall_ok. intros [] n' Hs.
  destruct (lookup_path p (fs w)) as [[d m|es]|]; try discriminate.
  destruct (set_path _ _ _) as [n1|] eqn:Hset; simplify_eq. by eapply H.
Qed.

Lemma wp_shutil_rmtree_ok p (P : unit -> world -> Prop) w :
  (∀ es n', lookup_path p (fs w) = Some (Dir es) ->
     set_path p None (fs w) = Some n' ->
     P tt (record (Rmtree p) None w n')) ->
  wp (shutil_rmtree fault p) (on_ok P) w.
Proof.
  intros H. apply wp_syscall_ok. intros [] n' Hs.
  destruct (lookup_path p (fs w)) as [[d m|es]|]; try discriminate.
  destruct (set_path _ _ _) as [n1|] eqn:Hset; simplify_eq. by eapply H.
Qed.


Lemma reconcile_item_ok self S R i w :
  (∀ S' R' w0, separate S' R' -> separate L S' -> separate L R' ->
     wp (self S' R' L) (on_ok (fun _ w' => pass_ok S' R' L w0 w')) w0) ->
  (∀ S' R', respects (pass_rel L R') (self S' R' L)) ->
  separate S R -> separate L S -> separate L R ->
  wp (reconcile_item fault datetime_now self S R L i)
     (on_ok (fun _ w' => reconciled S R L i w w')) w.
Proof.
  intros Hself Hrel Hsep HLS HLR0.
  assert (HLR : separate L (os_path_join R i)) by by apply separate_below_r.
  unfold reconcile_item.
  apply wp_bind_ok, wp_query_ok.
  destruct (is_dir (lookup_path (os_path_join S i) (fs w))) eqn:Hd.
  - apply is_dir_true in Hd as [es Hs].
    apply wp_bind_ok, wp_query_ok. world_simpl.
    case_bool_decide as He; simpl.
    + set (w1 := record _ _ _ _).
      eapply wp_mono;
        [|apply wp_and; [apply (Hself _ _ w1);
                           [by apply separate_app|by apply separate_below_r..]
                        |apply (Hrel (os_path_join S i) (os_path_join R i) w1)]].
      intros [[]|e|] w' [H1 H2]; try done. simpl in H1.
      destruct H1 as (es' & er & r' & t & HS & HR & HR' & Hsy & Ht & _).
      destruct H2 as [_ (t' & Ht' & HF)].
      assert (t' = t) as -> by (rewrite Ht in Ht'; by apply app_inv_head in Ht').
      subst w1. world_simpl.
      exists (Dir es'), r', ([Event (Isdir (os_path_join S i)) None;
                             Event (Exists (os_path_join R i)) None] ++ t).
      rewrite HR. repeat split; try done.
      * by rewrite Ht, <- !app_assoc.
      * rewrite effects_at_app. effects_calc. by rewrite (effects_at_below _ _ HF).
    + apply wp_bind_ok, wp_shutil_copytree_ok. world_simpl.
      intros es' n' Hs' Hr Hset. simplify_eq.
      apply wp_log_operation_ok. intros dl ml nl _ Hlog.
      exists (Dir es), (Dir es), [Event (Isdir (os_path_join S i)) None;
                                 Event (Exists (os_path_join R i)) None;
                                 Event (Copytree (os_path_join S i) (os_path_join R i)) None;
                                 Event (LogOperation (DirectoryCreated (os_path_join R i)) L) None].
      rewrite Hr. world_simpl. rewrite (set_path_separate _ _ _ _ _ Hlog HLR).
      repeat split; try done.
      * by apply lookup_set_path in Hset.
      * constructor.
      * by rewrite <- !app_assoc.
      * by effects_calc.
  - apply wp_bind_ok, wp_query_ok. world_simpl.
    case_bool_decide as He; simpl.
    + apply wp_bind_ok, wp_bind_ok, wp_calculate_md5_ok. intros d m Hsrc. world_simpl.
      apply wp_bind_ok, wp_calculate_md5_ok. intros d' m' Hrep. world_simpl.
      apply wp_ret_ok.
      destruct (String.eqb_spec (md5_of d) (md5_of d')) as [Heq|Hne]; simpl.
      * apply wp_ret_ok.
        exists (File d m), (File d' m'),
          [Event (Isdir (os_path_join S i)) None;
           Event (Exists (os_path_join R i)) None;
           Event (OpenRb (os_path_join S i)) None;
           Event (OpenRb (os_path_join R i)) None].
        rewrite Hrep. world_simpl. repeat split; try done.
        -- by constructor.
        -- by rewrite <- !app_assoc.
        -- effects_calc. simpl. by rewrite decide_True.
      * apply wp_bind_ok, wp_shutil_copy2_ok; world_simpl; [by rewrite Hrep|].
        intros d0 m0 n' Hsrc' Hset. simplify_eq.
        apply wp_log_operation_ok. intros dl ml nl _ Hlog.
        exists (File d m), (File d m),
          [Event (Isdir (os_path_join S i)) None;
           Event (Exists (os_path_join R i)) None;
           Event (OpenRb (os_path_join S i)) None;
           Event (OpenRb (os_path_join R i)) None;
           Event (Copy2 (os_path_join S i) (os_path_join R i)) None;
           Event (LogOperation (FileCopied (os_path_join R i)) L) None].
        rewrite Hrep. world_simpl. rewrite (set_path_separate _ _ _ _ _ Hlog HLR).
        repeat split; try done.
        -- by apply lookup_set_path in Hset.
        -- by constructor.
        -- by rewrite <- !app_assoc.
        -- effects_calc. simpl. by rewrite decide_False.
    + apply wp_bind_ok, wp_ret_ok.
      destruct (lookup_path (os_path_join R i) (fs w)) as [r|] eqn:Hr;
        [destruct He; by eexists|].
      apply wp_bind_ok, wp_shutil_copy2_ok; world_simpl; [by rewrite Hr|].
      intros d m n' Hsrc Hset.
      apply wp_log_operation_ok. intros dl ml nl _ Hlog.
      exists (File d m), (File d m),
        [Event (Isdir (os_path_join S i)) None;
         Event (Exists (os_path_join R i)) None;
         Event (Copy2 (os_path_join S i) (os_path_join R i)) None;
         Event (LogOperation (FileCopied (os_path_join R i)) L) None].
      rewrite Hr. world_simpl. rewrite (set_path_separate _ _ _ _ _ Hlog HLR).
      repeat split; try done.
      * by apply lookup_set_path in Hset.
      * constructor.
      * by rewrite <- !app_assoc.
      * by effects_calc.
Qed.

Lemma prune_item_ok source_files S R i w :
  separate L R ->
  wp (prune_item fault datetime_now source_files S R L i)
     (on_ok (fun _ w' => pruned source_files S R L i w w')) w.
Proof.
  intros HLR0.
  assert (HLR : separate L (os_path_join R i)) by by apply separate_below_r.
  unfold prune_item, pruned.
  destruct (decide (i ∈ source_files)) as [Hi|Hi];
    [rewrite bool_decide_eq_false_2 by auto|rewrite bool_decide_eq_true_2 by done].
  { by apply wp_ret_ok. }
  - apply wp_bind_ok, wp_query_ok. world_simpl.
    destruct (is_dir (lookup_path (os_path_join R i) (fs w))) eqn:Hd.
    + apply wp_bind_ok, wp_shutil_rmtree_ok. world_simpl. intros es n' Hr Hset.
      apply wp_log_operation_ok. intros dl ml nl _ Hlog.
      exists (Dir es), [Event (Isdir (os_path_join R i)) None;
                       Event (Rmtree (os_path_join R i)) None;
                       Event (LogOperation (DirectoryRemoved (os_path_join R i)) L) None].
      world_simpl. rewrite (set_path_separate _ _ _ _ _ Hlog HLR).
      repeat split; try done.
      * by apply lookup_set_path in Hset.
      * by rewrite <- !app_assoc.
      * by effects_calc.
    + apply wp_bind_ok, wp_os_remove_ok. world_simpl. intros d m n' Hr Hset.
      apply wp_log_operation_ok. intros dl ml nl _ Hlog.
      exists (File d m), [Event (Isdir (os_path_join R i)) None;
                         Event (Remove (os_path_join R i)) None;
                         Event (LogOperation (FileRemoved (os_path_join R i)) L) None].
      world_simpl. rewrite (set_path_separate _ _ _ _ _ Hlog HLR).
      repeat split; try done.
      * by apply lookup_set_path in Hset.
      * by rewrite <- !app_assoc.
      * by effects_calc.
Qed.

End Success.

Lemma NoDup_app_mid_notin {A} (done rest : list A) (x : A) :
  NoDup (done ++ x :: rest) -> x ∉ done.
Proof.
  intros H Hx. apply NoDup_app in H as (_ & H & _). apply (H x Hx). by left.
Qed.

Lemma lookup_entry (p : path) (i : string) (n : node) (es : gmap string node) :
  lookup_path p n = Some (Dir es) -> lookup_path (os_path_join p i) n = es !! i.
Proof. intros H. unfold os_path_join. by rewrite lookup_path_snoc, H. Qed.

Section Pass.
Variable set_iter : gset string -> list string.
Variable fault : call -> node -> option exn.
Variable datetime_now : list event -> datetime.
Variable L : path.
Hypothesis set_iter_perm : ∀ X, set_iter X ≡ₚ elements X.

Lemma elem_of_set_iter (X : gset string) (i : string) : i ∈ set_iter X ↔ i ∈ X.
Proof. by rewrite set_iter_perm, elem_of_elements. Qed.

Lemma NoDup_set_iter (X : gset string) : NoDup (set_iter X).
Proof. rewrite set_iter_perm. apply NoDup_elements. Qed.

(** The first loop, from the world [w2] in which both listings have been
    taken. *)
Lemma reconcile_loop_ok self S R (es er : gmap string node) w2 :
  (∀ S' R' w0, separate S' R' -> separate L S' -> separate L R' ->
     wp (self S' R' L) (on_ok (fun _ w' => pass_ok S' R' L w0 w')) w0) ->
  (∀ S' R', respects (pass_rel L R') (self S' R' L)) ->
  separate S R -> separate L S -> separate L R ->
  lookup_path S (fs w2) = Some (Dir es) ->
  lookup_path R (fs w2) = Some (Dir er) ->
  wp (for_each (set_iter (dom es)) (reconcile_item fault datetime_now self S R L))
     (on_ok (fun _ w3 =>
        (∀ i, i ∉ dom es -> lookup_path (os_path_join R i) (fs w3) = er !! i) ∧
        is_dir (lookup_path R (fs w3)) = true ∧
        (∀ i s, es !! i = Some s ->
           ∃ r', lookup_path (os_path_join R i) (fs w3) = Some r' ∧
                 synced s (er !! i) r') ∧
        ∃ t, trace w3 = trace w2 ++ t ∧
             ∀ i, effects_at (os_path_join R i) t
                  = if decide (i ∈ dom es)
                    then expected_effects S R L i (es !! i) (er !! i) else [])) w2.
Proof.
  intros Hself Hrel Hsep HLS HLR HS HR.
  apply (wp_for_each_ok _ _ (fun done w3 =>
    (∀ i, lookup_path (os_path_join S i) (fs w3) = es !! i) ∧
    (∀ i, i ∉ done -> lookup_path (os_path_join R i) (fs w3) = er !! i) ∧
    is_dir (lookup_path R (fs w3)) = true ∧
    (∀ i, i ∈ done ->
       ∃ s r', es !! i = Some s ∧
               lookup_path (os_path_join R i) (fs w3) = Some r' ∧
               synced s (er !! i) r') ∧
    ∃ t, trace w3 = trace w2 ++ t ∧
         ∀ i, effects_at (os_path_join R i) t
              = if decide (i ∈ done)
                then expected_effects S R L i (es !! i) (er !! i) else [])).
  - repeat split.
    + intros i. by apply lookup_entry.
    + intros i _. by apply lookup_entry.
    + by rewrite HR.
    + intros i Hi. by apply elem_of_nil in Hi.
    + exists []. split; [by rewrite app_nil_r|]. intros i.
      rewrite decide_False; [done|]. apply not_elem_of_nil.
  - intros done x rest w3 El (I1 & I2 & I3 & I4 & t & Ht & I5).
    assert (Hx : x ∉ done).
    { apply (NoDup_app_mid_notin done rest). rewrite <- El. apply NoDup_set_iter. }
    eapply wp_mono;
      [|apply wp_and; [by apply (reconcile_item_ok fault datetime_now L self S R x w3)
                      |by apply (reconcile_item_respects fault datetime_now L self S R x)]].
    intros [[]|e|] w4 [H1 H2]; try done. simpl in H1.
    destruct H1 as (s & r' & tx & Hs & Hr' & Hsy & Htx & Hex).
    destruct H2 as [(A1 & A2 & _) (t' & Ht' & HF)].
    assert (t' = tx) as -> by (rewrite Htx in Ht'; by apply app_inv_head in Ht').
    rewrite I1 in Hs. rewrite (I2 x Hx) in Hsy, Hex.
    repeat split.
    + intros i. rewrite A1; [apply I1| |by apply separate_below_r].
      apply separate_app, separate_sym, Hsep.
    + intros i Hi. apply not_elem_of_app in Hi as [Hi1 Hi2].
      rewrite A1; [by apply I2| |by apply separate_below_r]. apply separate_siblings.
      intros ->. apply Hi2. by left.
    + by apply A2.
    + intros i Hi. apply elem_of_app in Hi as [Hi|Hi].
      * destruct (I4 i Hi) as (s0 & r0 & E1 & E2 & E3). exists s0, r0.
        repeat split; try done.
        rewrite A1; [done| |by apply separate_below_r]. apply separate_siblings.
        by intros ->.
      * apply list_elem_of_singleton in Hi as ->. by exists s, r'.
    + exists (t ++ tx). split; [by rewrite Htx, Ht, <- app_assoc|]. intros i.
      rewrite effects_at_app, I5. destruct (decide (i = x)) as [->|Hne].
      * rewrite decide_False by done.
        rewrite decide_True by (apply elem_of_app; right; by left).
        by rewrite Hex, Hs.
      * rewrite (effects_at_sibling R i x tx HF Hne), app_nil_r.
        destruct (decide (i ∈ done)) as [Hi|Hi].
        -- rewrite decide_True; [done|]. apply elem_of_app. by left.
        -- rewrite decide_False; [done|]. intros [?|Hi']%elem_of_app; [done|].
           by apply list_elem_of_singleton in Hi'.
  - intros w3 (I1 & I2 & I3 & I4 & t & Ht & I5). repeat split.
    + intros i Hi. apply I2. by rewrite elem_of_set_iter.
    + done.
    + intros i s Hs. destruct (I4 i) as (s0 & r0 & E1 & E2 & E3).
      { apply elem_of_set_iter, elem_of_dom. by eexists. }
      exists r0. split; [done|]. congruence.
    + exists t. split; [done|]. intros i. rewrite I5.
      destruct (decide (i ∈ dom es)) as [Hi|Hi].
      * by rewrite decide_True by by apply elem_of_set_iter.
      * by rewrite decide_False by by rewrite elem_of_set_iter.
Qed.


(** The second loop, from the world [w3] that the first loop has left. *)
Lemma prune_loop_ok S R (es er : gmap string node) w3 :
  separate L R ->
  (∀ i, i ∈ dom er -> i ∉ dom es ->
     lookup_path (os_path_join R i) (fs w3) = er !! i) ->
  is_dir (lookup_path R (fs w3)) = true ->
  wp (for_each (set_iter (dom er)) (prune_item fault datetime_now (dom es) S R L))
     (on_ok (fun _ w4 =>
        (∀ i, (i ∉ dom er ∨ i ∈ dom es) ->
           lookup_path (os_path_join R i) (fs w4)
           = lookup_path (os_path_join R i) (fs w3)) ∧
        is_dir (lookup_path R (fs w4)) = true ∧
        (∀ i, i ∈ dom er -> i ∉ dom es ->
           lookup_path (os_path_join R i) (fs w4) = None) ∧
        ∃ t, trace w4 = trace w3 ++ t ∧
             ∀ i, effects_at (os_path_join R i) t
                  = if decide (i ∈ dom er ∧ i ∉ dom es)
                    then expected_effects S R L i None (er !! i) else [])) w3.
Proof.
  intros HLR Hrep Hdir.
  apply (wp_for_each_ok _ _ (fun done w4 =>
    (∀ i, (i ∉ done ∨ i ∈ dom es) ->
       lookup_path (os_path_join R i) (fs w4)
       = lookup_path (os_path_join R i) (fs w3)) ∧
    is_dir (lookup_path R (fs w4)) = true ∧
    (∀ i, i ∈ done -> i ∉ dom es ->
       lookup_path (os_path_join R i) (fs w4) = None) ∧
    ∃ t, trace w4 = trace w3 ++ t ∧
         ∀ i, effects_at (os_path_join R i) t
              = if decide (i ∈ done ∧ i ∉ dom es)
                then expected_effects S R L i None (er !! i) else [])).
  - repeat split; try done.
    + intros i Hi. by apply elem_of_nil in Hi.
    + exists []. split; [by rewrite app_nil_r|]. intros i.
      rewrite decide_False; [done|]. intros [Hi _]. by apply elem_of_nil in Hi.
  - intros done x rest w4 El (I1 & I2 & I3 & t & Ht & I4).
    assert (Hx : x ∉ done).
    { apply (NoDup_app_mid_notin done rest). rewrite <- El. apply NoDup_set_iter. }
    assert (Hxr : x ∈ dom er).
    { apply elem_of_set_iter. rewrite El. apply elem_of_app. right. by left. }
    eapply wp_mono;
      [|apply wp_and; [by apply (prune_item_ok fault datetime_now L (dom es) S R x w4)
                      |apply (prune_item_respects fault datetime_now L (dom es) S R x)]].
    intros [[]|e|] w5 [H1 H2]; try done. simpl in H1. unfold pruned in H1.
    destruct (decide (x ∈ dom es)) as [Hxs|Hxs].
    + subst w5. repeat split; try done.
      * intros i [Hi|Hi]; apply I1; [|by right].
        left. intros Hd. apply Hi, elem_of_app. by left.
      * intros i [Hi|Hi]%elem_of_app Hd; [by apply I3|].
        by apply list_elem_of_singleton in Hi as ->.
      * exists t. split; [done|]. intros i. rewrite I4.
        destruct (decide (i ∈ done ∧ i ∉ dom es)) as [[Hi Hd]|Hn].
        -- rewrite decide_True; [done|]. split; [|done]. apply elem_of_app. by left.
        -- rewrite decide_False; [done|]. intros [[Hi|Hi]%elem_of_app Hd]; [by apply Hn|].
           by apply list_elem_of_singleton in Hi as ->.
    + destruct H1 as (r & tx & Hr & Hr' & Htx & Hex).
      destruct H2 as [(A1 & A2 & _) (t' & Ht' & HF)].
      assert (t' = tx) as -> by (rewrite Htx in Ht'; by apply app_inv_head in Ht').
      rewrite I1, Hrep in Hr by auto.
      repeat split.
      * intros i Hi. rewrite A1; [by apply I1; destruct Hi as [Hi|Hi];
                                    [left; intros Hd; apply Hi, elem_of_app; by left|right]
                  | |by apply separate_below_r].
        apply separate_siblings. intros ->. destruct Hi as [Hi|Hi]; [|done].
        apply Hi, elem_of_app. right. by left.
      * by apply A2.
      * intros i [Hi|Hi]%elem_of_app Hd.
        -- rewrite A1; [by apply I3| |by apply separate_below_r].
           apply separate_siblings. by intros ->.
        -- by apply list_elem_of_singleton in Hi as ->.
      * exists (t ++ tx). split; [by rewrite Htx, Ht, <- app_assoc|]. intros i.
        rewrite effects_at_app, I4. destruct (decide (i = x)) as [->|Hne].
        -- rewrite decide_False by (by intros [? _]).
           rewrite decide_True by (split; [apply elem_of_app; right; by left|done]).
           by rewrite Hex, Hr.
        -- rewrite (effects_at_sibling R i x tx HF Hne), app_nil_r.
           destruct (decide (i ∈ done ∧ i ∉ dom es)) as [[Hi Hd]|Hn].
           ++ rewrite decide_True; [done|]. split; [|done]. apply elem_of_app. by left.
           ++ rewrite decide_False; [done|].
              intros [[Hi|Hi]%elem_of_app Hd]; [by apply Hn|].
              by apply list_elem_of_singleton in Hi.
  - intros w4 (I1 & I2 & I3 & t & Ht & I4). repeat split; try done.
    + intros i [Hi|Hi]; apply I1; [left|by right]. by rewrite elem_of_set_iter.
    + intros i Hi Hd. apply I3; [|done]. by apply elem_of_set_iter.
    + exists t. split; [done|]. intros i. rewrite I4.
      destruct (decide (i ∈ dom er ∧ i ∉ dom es)) as [[Hi Hd]|Hn].
      * rewrite decide_True; [done|]. split; [|done]. by apply elem_of_set_iter.
      * rewrite decide_False; [done|]. intros [Hi Hd]. apply Hn. split; [|done].
        by apply elem_of_set_iter.
Qed.

(** One pass, when it returns: the replica directory has become what
    [synced] says, and the calls that touch each entry of the replica are
    those of the decision table. *)
Lemma sync_folders_ok fuel S R w :
  separate S R -> separate L S -> separate L R ->
  wp (sync_folders set_iter fault datetime_now fuel S R L)
     (on_ok (fun _ w' => pass_ok S R L w w')) w.
Proof.
  revert S R w; induction fuel as [|fuel IH]; intros S R w Hsep HLS HLR; [done|].
  cbn [sync_folders].
  apply wp_bind_ok, wp_os_listdir_ok. intros es HS.
  apply wp_bind_ok, wp_os_listdir_ok. world_simpl. intros er HR.
  rewrite !list_to_set_elements_L.
  set (w2 := record (Listdir R) None (record (Listdir S) None w (fs w)) (fs w)).
  apply wp_bind_ok.
  eapply wp_on_ok_mono;
    [|apply (reconcile_loop_ok (sync_folders set_iter fault datetime_now fuel) S R es er w2);
      [intros; by apply IH|intros; apply sync_folders_respects|done..]].
  intros [] w3 (J1 & J2 & J3 & t1 & Ht1 & J4).
  eapply wp_on_ok_mono; [|apply (prune_loop_ok S R es er w3); [done| |done]].
  2:{ intros i _ Hi. by apply J1. }
  intros [] w4 (K1 & K2 & K3 & t2 & Ht2 & K4).
  apply is_dir_true in K2 as [er' HR'].
  assert (Hlook : ∀ i, er' !! i = lookup_path (os_path_join R i) (fs w4)).
  { intros i. symmetry. by apply lookup_entry. }
  exists es, er, (Dir er'),
    ([Event (Listdir S) None; Event (Listdir R) None] ++ t1 ++ t2).
  repeat split; try done.
  - constructor.
    + apply set_eq. intros i. rewrite !elem_of_dom, Hlook.
      destruct (es !! i) as [s|] eqn:Hs.
      * destruct (J3 i s Hs) as (r' & Hr' & _).
        rewrite K1, Hr' by (right; apply elem_of_dom; by eexists). done.
      * assert (Hi : i ∉ dom es) by by apply not_elem_of_dom.
        destruct (decide (i ∈ dom er)) as [Hr|Hr].
        -- rewrite K3 by done. done.
        -- rewrite K1, J1 by auto. by apply not_elem_of_dom in Hr as ->.
    + intros i s Hs. destruct (J3 i s Hs) as (r' & Hr' & Hsy).
      exists r'. split; [|done].
      rewrite Hlook, K1; [done|]. right. apply elem_of_dom. by eexists.
  - rewrite Ht2, Ht1. subst w2. world_simpl. by rewrite <- !app_assoc.
  - intros i. rewrite !effects_at_app, J4, K4. effects_calc. simpl.
    destruct (decide (i ∈ dom es)) as [Hi|Hi].
    + rewrite decide_False by (by intros [_ ?]). by rewrite app_nil_r.
    + apply not_elem_of_dom in Hi as Hs. rewrite Hs.
      destruct (decide (i ∈ dom er)) as [Hr|Hr].
      * by rewrite decide_True.
      * rewrite decide_False by (by intros [? _]).
        by apply not_elem_of_dom in Hr as ->.
Qed.

End Pass.

(* ===================================================================== *)
(** * Trees *)
(* ===================================================================== *)

Lemma node_depth_ind (P : node -> Prop) :
  (∀ d m, P (File d m)) ->
  (∀ es, (∀ i c, es !! i = Some c -> P c) -> P (Dir es)) ->
  ∀ n, P n.
Proof.
  intros Hf Hd n.
  assert (G : ∀ k n, (depth n < k)%nat -> P n).
  { clear n. induction k as [|k IH]; intros n Hn; [lia|].
    destruct n as [d m|es]; [apply Hf|]. apply Hd. intros i c Hc.
    apply IH. apply depth_entry in Hc. lia. }
  apply (G (S (depth n))). lia.
Qed.

Lemma tree_rel_refl (F : list byte -> list byte -> Prop) `{!Reflexive F} n :
  tree_rel F n n.
Proof.
  induction n as [d m|es IH] using node_depth_ind.
  - by constructor.
  - constructor; [done|]. intros i a b Ha Hb. simplify_eq. by eapply IH.
Qed.

Lemma synced_strong_ind (P : node -> option node -> node -> Prop) :
  (∀ s, P s None s) ->
  (∀ d m d' m', md5_of d ≠ md5_of d' -> P (File d m) (Some (File d' m')) (File d m)) ->
  (∀ d m d' m', md5_of d = md5_of d' -> P (File d m) (Some (File d' m')) (File d' m')) ->
  (∀ es er er',
     dom er' = dom es ->
     (∀ i s, es !! i = Some s ->
        ∃ r', er' !! i = Some r' ∧ synced s (er !! i) r' ∧ P s (er !! i) r') ->
     P (Dir es) (Some (Dir er)) (Dir er')) ->
  ∀ s r r', synced s r r' -> P s r r'.
Proof.
  intros Hnew Hcopied Hkept Hdir. fix IH 4. intros s r r' H.
  destruct H as [s|d m d' m' Hne|d m d' m' Heq|es er er' Hdom Hch].
  - apply Hnew.
  - by apply Hcopied.
  - by apply Hkept.
  - apply Hdir; [done|]. intros i s Hs.
    destruct (Hch i s Hs) as (r' & Hr' & Hsy).
    exists r'. split; [done|]. split; [done|]. apply IH, Hsy.
Qed.

(** After a pass that returns, the replica has the names, the kinds and
    the digests of the source. *)
Lemma synced_same_digests s r r' : synced s r r' -> same_digests s r'.
Proof.
  induction 1 as [s|d m d' m' Hne|d m d' m' Heq|es er er' Hdom Hch]
    using synced_strong_ind.
  - by apply tree_rel_refl.
  - by constructor.
  - by constructor.
  - constructor; [done|]. intros i a b Ha Hb.
    destruct (Hch i a Ha) as (r' & Hr' & _ & IH). by simplify_eq.
Qed.

Lemma no_collision_entry es er i s r :
  no_collision (Dir es) (Dir er) -> es !! i = Some s -> er !! i = Some r ->
  no_collision s r.
Proof.
  intros H Hs Hr q d m d' m' H1 H2. apply (H (i :: q) d m d' m'); simpl.
  - by rewrite Hs.
  - by rewrite Hr.
Qed.

Lemma synced_mirror s r r' :
  synced s (Some r) r' -> no_collision s r -> mirror s r'.
Proof.
  intros H. remember (Some r) as ro eqn:Er. revert r Er.
  induction H as [s|d m d' m' Hne|d m d' m' Heq|es er er' Hdom Hch]
    using synced_strong_ind; intros r Er Hnc; simplify_eq.
  - by constructor.
  - constructor. by apply (Hnc [] d m d' m').
  - constructor; [done|]. intros i a b Ha Hb.
    destruct (Hch i a Ha) as (r' & Hr' & Hsy & IH). simplify_eq.
    destruct (er !! i) as [rc|] eqn:Hrc.
    + apply (IH rc); [done|]. by eapply no_collision_entry.
    + inversion Hsy; subst. by apply tree_rel_refl.
Qed.

Section Convergence.
Variable set_iter : gset string -> list string.
Variable fault : call -> node -> option exn.
Variable datetime_now : list event -> datetime.
Hypothesis set_iter_perm : ∀ X, set_iter X ≡ₚ elements X.

Lemma sync_folders_pass_ok fuel S R L w w' :
  separate S R -> separate L S -> separate L R ->
  sync_folders set_iter fault datetime_now fuel S R L w = (Ok tt, w') ->
  pass_ok S R L w w'.
Proof.
  intros Hsep HLS HLR Hrun.
  by apply (wp_run _ _ _ _ _ Hrun
              (sync_folders_ok set_iter fault datetime_now L set_iter_perm
                 fuel S R w Hsep HLS HLR)).
Qed.

Lemma sync_folders_source_unchanged fuel S R L w o w' :
  separate S R -> separate L S ->
  sync_folders set_iter fault datetime_now fuel S R L w = (o, w') ->
  ∀ q, lookup_path (S ++ q) (fs w') = lookup_path (S ++ q) (fs w).
Proof.
  intros Hsep HLS Hrun q.
  destruct (respects_run _ _ _ _ _
              (sync_folders_respects set_iter fault datetime_now L fuel S R) Hrun)
    as [[A _] _].
  apply A; [by apply separate_below_r, separate_sym|by apply separate_below_r].
Qed.

(** C1 (amended).  When the source, the replica and the log file are apart
    (the source and the replica are two separate trees, neither path at or
    below the other, and the log file lies in neither) and no file of the
    source has a different file with the same MD5 digest at its place in
    the replica, a pass that returns leaves the source as it was and a
    replica with exactly the entry names, the kinds and the file contents
    of the source at every level; in particular no name that the source
    lacks is left in the replica. *)
Theorem sync_folders_converges fuel S R L w w' s r :
  separate S R -> separate L S -> separate L R ->
  lookup_path S (fs w) = Some s ->
  lookup_path R (fs w) = Some r ->
  no_collision s r ->
  sync_folders set_iter fault datetime_now fuel S R L w = (Ok tt, w') ->
  lookup_path S (fs w') = Some s ∧
  ∃ r', lookup_path R (fs w') = Some r' ∧ mirror s r'.
Proof.
  intros Hsep HLS HLR HS HR Hnc Hrun. split.
  - rewrite <- HS, <- (app_nil_r S). by eapply sync_folders_source_unchanged.
  - destruct (sync_folders_pass_ok _ _ _ _ _ _ Hsep HLS HLR Hrun)
      as (es & er & r' & t & HS' & HR' & Hr' & Hsy & _).
    simplify_eq. exists r'. split; [done|]. by eapply synced_mirror.
Qed.

(** Without the assumption on digests, the replica still has the names,
    the kinds and the digests of the source. *)
Lemma sync_folders_same_digests fuel S R L w w' :
  separate S R -> separate L S -> separate L R ->
  sync_folders set_iter fault datetime_now fuel S R L w = (Ok tt, w') ->
  ∃ s r', lookup_path S (fs w') = Some s ∧ lookup_path R (fs w') = Some r' ∧
          same_digests s r'.
Proof.
  intros Hsep HLS HLR Hrun.
  destruct (sync_folders_pass_ok _ _ _ _ _ _ Hsep HLS HLR Hrun)
    as (es & er & r' & t & HS' & HR' & Hr' & Hsy & _).
  exists (Dir es), r'. repeat split; [|done|by eapply synced_same_digests].
  rewrite <- HS', <- (app_nil_r S). by eapply sync_folders_source_unchanged.
Qed.

End Convergence.

(* ===================================================================== *)
(** * The decision table, entry by entry *)
(* ===================================================================== *)

Lemma new_events_app w w' t : trace w' = trace w ++ t -> new_events w w' = t.
Proof. intros E. unfold new_events. by rewrite E, drop_app_length. Qed.

Lemma logged_cons c e t :
  logged (Event c e :: t) =
  match c, e with
  | LogOperation op _, None => op :: logged t
  | _, _ => logged t
  end.
Proof. by destruct c, e. Qed.

Lemma ops_at_effects p t :
  Forall succeeded t -> ops_at p t = omap logged_op (effects_at p t).
Proof.
  induction 1 as [|[c e] t Hc _ IH]; [done|].
  unfold succeeded in Hc. cbn [ev_exn] in Hc. subst e.
  unfold ops_at in *. rewrite logged_cons.
  destruct (decide (effect_target c = Some p)) as [Ht|Ht].
  - rewrite effects_at_hit by done.
    destruct c as [| | | | | | | |op lf|]; cbn [omap list_omap logged_op]; try done.
    injection Ht as Ht. rewrite filter_cons_True by done. by rewrite IH.
  - rewrite effects_at_miss by done.
    destruct c as [| | | | | | | |op lf|]; try done.
    rewrite filter_cons_False; [done|]. intros E. apply Ht.
    unfold effect_target. simpl. by rewrite E.
Qed.

Section Table.
Variable set_iter : gset string -> list string.
Variable fault : call -> node -> option exn.
Variable datetime_now : list event -> datetime.
Hypothesis set_iter_perm : ∀ X, set_iter X ≡ₚ elements X.

Lemma sync_folders_new_events_succeeded fuel S R L w w' :
  sync_folders set_iter fault datetime_now fuel S R L w = (Ok tt, w') ->
  trace w' = trace w ++ new_events w w' ∧ Forall succeeded (new_events w w').
Proof.
  intros Hrun.
  destruct (wp_run _ _ _ _ _ Hrun
              (sync_folders_propagates set_iter fault datetime_now fuel S R L w))
    as (t & E & D).
  by rewrite (new_events_app _ _ _ E).
Qed.

(** The table of one pass that returns, for every entry name [i]. *)
Lemma sync_folders_table fuel S R L w w' es er :
  separate S R -> separate L S -> separate L R ->
  lookup_path S (fs w) = Some (Dir es) ->
  lookup_path R (fs w) = Some (Dir er) ->
  sync_folders set_iter fault datetime_now fuel S R L w = (Ok tt, w') ->
  ∃ er', lookup_path R (fs w') = Some (Dir er') ∧
         synced (Dir es) (Some (Dir er)) (Dir er') ∧
         ∀ i, effects_at (os_path_join R i) (new_events w w')
              = expected_effects S R L i (es !! i) (er !! i).
Proof.
  intros Hsep HLS HLR HS HR Hrun.
  destruct (sync_folders_pass_ok _ _ _ set_iter_perm _ _ _ _ _ _ Hsep HLS HLR Hrun)
    as (es0 & er0 & r' & t & HS' & HR' & Hr' & Hsy & Ht & Heff).
  simplify_eq. rewrite (new_events_app _ _ _ Ht).
  inversion Hsy; subst. by eexists.
Qed.

Lemma synced_dir_entry es er er' i s :
  synced (Dir es) (Some (Dir er)) (Dir er') -> es !! i = Some s ->
  ∃ r', er' !! i = Some r' ∧ synced s (er !! i) r'.
Proof. inversion 1; subst. eauto. Qed.

Lemma synced_dir_absent es er er' i :
  synced (Dir es) (Some (Dir er)) (Dir er') -> es !! i = None -> er' !! i = None.
Proof.
  inversion 1 as [| | |? ? ? Hdom _]; subst. intros Hi.
  apply not_elem_of_dom. rewrite Hdom. by apply not_elem_of_dom.
Qed.

(** C3 (amended).  With the source, the replica and the log file apart,
    for a file that both trees have under the same name, a pass that
    returns copies it exactly when the two MD5 digests differ:
    with equal digests (so in particular with identical bytes) no call
    touches the replica file, which keeps its bytes and its time stamp;
    with different digests there is one [copy2] and one "File
    copied/updated" record, and the replica file becomes the source file.
    Size and modification time play no part. *)
Theorem copy_decided_by_digest fuel S R L w w' i d m d' m' :
  separate S R -> separate L S -> separate L R ->
  lookup_path (os_path_join S i) (fs w) = Some (File d m) ->
  lookup_path (os_path_join R i) (fs w) = Some (File d' m') ->
  sync_folders set_iter fault datetime_now fuel S R L w = (Ok tt, w') ->
  (md5_of d = md5_of d' ->
     effects_at (os_path_join R i) (new_events w w') = [] ∧
     lookup_path (os_path_join R i) (fs w') = Some (File d' m')) ∧
  (md5_of d ≠ md5_of d' ->
     effects_at (os_path_join R i) (new_events w w')
     = [Copy2 (os_path_join S i) (os_path_join R i);
        LogOperation (FileCopied (os_path_join R i)) L] ∧
     ops_at (os_path_join R i) (new_events w w') = [FileCopied (os_path_join R i)] ∧
     lookup_path (os_path_join R i) (fs w') = Some (File d m)) ∧
  (d = d' -> ops_at (os_path_join R i) (new_events w w') = []).
Proof.
  intros Hsep HLS HLR Hs Hr Hrun.
  destruct (sync_folders_pass_ok _ _ _ set_iter_perm _ _ _ _ _ _ Hsep HLS HLR Hrun)
    as (es & er & r' & t & HS & HR & Hr' & Hsy & Ht & _).
  destruct (sync_folders_table _ _ _ _ _ _ es er Hsep HLS HLR HS HR Hrun)
    as (er' & HR' & Hsy' & Htab).
  destruct (sync_folders_new_events_succeeded _ _ _ _ _ _ Hrun) as [_ Hsucc].
  rewrite (lookup_entry _ _ _ _ HS) in Hs. rewrite (lookup_entry _ _ _ _ HR) in Hr.
  destruct (synced_dir_entry _ _ _ _ _ Hsy' Hs) as (ri & Hri & Hsi).
  rewrite (lookup_entry _ _ _ _ HR'), Hri.
  rewrite (ops_at_effects _ _ Hsucc), Htab, Hs, Hr. cbn [expected_effects].
  rewrite Hr in Hsi. split; [|split].
  - intros Heq. rewrite decide_True by done. split; [done|].
    by inversion Hsi; subst.
  - intros Hne. rewrite decide_False by done. repeat split; try done.
    by inversion Hsi; subst.
  - intros ->. by rewrite decide_True.
Qed.



End Table.

(* ===================================================================== *)
(** * A pass over trees that already agree *)
(* ===================================================================== *)

Lemma quiet_then_trans {A} (w w1 : world) (P : A -> world -> Prop) o w' :
  fs w1 = fs w -> extends read_only w w1 ->
  quiet_then w1 P o w' -> quiet_then w P o w'.
Proof.
  intros E1 X1 (E2 & X2 & HP). repeat split; [congruence| |done].
  by eapply extends_trans.
Qed.

Lemma wp_ret_quiet {A} (a : A) (P : A -> world -> Prop) w :
  P a w -> wp (ret a) (quiet_then w P) w.
Proof. intros H. apply wp_ret. repeat split; [apply extends_refl|done]. Qed.

Lemma wp_bind_quiet {A B} (m : M A) (k : A -> M B) (P : B -> world -> Prop) w :
  wp m (quiet_then w (fun a w1 => wp (k a) (quiet_then w1 P) w1)) w ->
  wp (bind m k) (quiet_then w P) w.
Proof.
  intros H. apply wp_bind. eapply wp_mono; [|exact H].
  intros [a|e|] w1 (E1 & X1 & H1); [|by repeat split..].
  eapply wp_mono; [|exact H1]. intros o w2. by apply quiet_then_trans.
Qed.

Lemma wp_query_quiet {A} (c : call) (f : node -> A) (P : A -> world -> Prop) w :
  effect_target c = None ->
  P (f (fs w)) (record c None w (fs w)) ->
  wp (query c f) (quiet_then w P) w.
Proof. intros Hc H. apply wp_query. repeat split; [by apply extends_record|done]. Qed.

Lemma wp_for_each_quiet {A} (l : list A) (body : A -> M unit) w :
  (∀ x w1, x ∈ l -> fs w1 = fs w ->
     wp (body x) (quiet_then w1 (fun _ _ => True)) w1) ->
  wp (for_each l body) (quiet_then w (fun _ _ => True)) w.
Proof.
  intros Hb.
  apply (wp_for_each l body (fun _ w1 => fs w1 = fs w ∧ extends read_only w w1)).
  - split; [done|apply extends_refl].
  - intros done x rest w1 -> [E1 X1]. eapply wp_mono; [|apply Hb; [|done]].
    + intros o w2 H2. destruct (quiet_then_trans w w1 _ o w2 E1 X1 H2) as (E & X & _).
      destruct o as [[]|e|]; by repeat split.
    + apply elem_of_app. right. by left.
  - intros w' [E X]. by repeat split.
Qed.

Lemma tree_rel_dir_entry F es er i a :
  tree_rel F (Dir es) (Dir er) -> es !! i = Some a ->
  ∃ b, er !! i = Some b ∧ tree_rel F a b.
Proof.
  inversion 1 as [|? ? Hdom Hch]; subst. intros Ha.
  assert (Hi : i ∈ dom er) by (rewrite Hdom; apply elem_of_dom; by eexists).
  apply elem_of_dom in Hi as [b Hb]. exists b. split; [done|]. by eapply Hch.
Qed.

Section Quiet.
Variable set_iter : gset string -> list string.
Variable fault : call -> node -> option exn.
Variable datetime_now : list event -> datetime.
Hypothesis set_iter_perm : ∀ X, set_iter X ≡ₚ elements X.

Lemma wp_syscall_quiet {A} (c : call) (sem : node -> exn + A * node)
    (P : A -> world -> Prop) w :
  effect_target c = None ->
  (∀ a n', sem (fs w) = inr (a, n') -> n' = fs w ∧ P a (record c None w (fs w))) ->
  wp (syscall fault c sem) (quiet_then w P) w.
Proof.
  intros Hc H. apply wp_syscall.
  assert (He : ∀ e, quiet_then w P (Raised e) (record c (Some e) w (fs w))).
  { intros e. repeat split. by apply extends_record. }
  destruct (fault c (fs w)); [apply He|].
  destruct (sem (fs w)) as [e|[a n']]; [apply He|].
  destruct (H a n' eq_refl) as [-> HP]. repeat split; [by apply extends_record|done].
Qed.

Lemma wp_os_listdir_quiet p (P : list string -> world -> Prop) w :
  (∀ es, lookup_path p (fs w) = Some (Dir es) ->
     P (elements (dom es)) (record (Listdir p) None w (fs w))) ->
  wp (os_listdir fault p) (quiet_then w P) w.
Proof.
  intros H. apply wp_syscall_quiet; [done|]. intros a n' Hs.
  destruct (lookup_path p (fs w)) as [[|es]|]; simplify_eq. split; [done|]. by apply H.
Qed.

Lemma wp_calculate_md5_quiet p (P : string -> world -> Prop) w :
  (∀ d m, lookup_path p (fs w) = Some (File d m) ->
     P (md5_of d) (record (OpenRb p) None w (fs w))) ->
  wp (calculate_md5 fault p) (quiet_then w P) w.
Proof.
  intros H. apply wp_bind_quiet, wp_syscall_quiet; [done|]. intros a n' Hs.
  destruct (lookup_path p (fs w)) as [[d m|]|]; simplify_eq. split; [done|].
  apply wp_ret_quiet. by eapply H.
Qed.

Lemma reconcile_item_quiet self S R L i (es er : gmap string node) w :
  lookup_path S (fs w) = Some (Dir es) ->
  lookup_path R (fs w) = Some (Dir er) ->
  same_digests (Dir es) (Dir er) ->
  i ∈ dom es ->
  (∀ s r w1, lookup_path (os_path_join S i) (fs w1) = Some s ->
     lookup_path (os_path_join R i) (fs w1) = Some r ->
     same_digests s r ->
     wp (self (os_path_join S i) (os_path_join R i) L)
        (quiet_then w1 (fun _ _ => True)) w1) ->
  wp (reconcile_item fault datetime_now self S R L i)
     (quiet_then w (fun _ _ => True)) w.
Proof.
  intros HS HR Hsame Hi Hself.
  apply elem_of_dom in Hi as [a Ha].
  destruct (tree_rel_dir_entry _ _ _ _ _ Hsame Ha) as (b & Hb & Hab).
  assert (Hsi := lookup_entry S i _ _ HS). assert (Hri := lookup_entry R i _ _ HR).
  rewrite Ha in Hsi. rewrite Hb in Hri.
  unfold reconcile_item. apply wp_bind_quiet, wp_query_quiet; [done|].
  rewrite Hsi. inversion Hab as [d m d' m' Hmd5|sub sub' Hdom Hch]; subst; cbn [is_dir].
  - apply wp_bind_quiet, wp_query_quiet; [done|]. world_simpl.
    rewrite Hri, bool_decide_eq_true_2 by by eexists. simpl.
    apply wp_bind_quiet, wp_bind_quiet, wp_calculate_md5_quiet. world_simpl.
    intros d0 m0 E0. apply wp_bind_quiet, wp_calculate_md5_quiet. world_simpl.
    intros d1 m1 E1. simplify_eq. apply wp_ret_quiet.
    rewrite Hmd5, String.eqb_refl. simpl. by apply wp_ret_quiet.
  - apply wp_bind_quiet, wp_query_quiet; [done|]. world_simpl.
    rewrite Hri, bool_decide_eq_true_2 by by eexists. simpl.
    by eapply Hself.
Qed.

Lemma prune_item_quiet (source_files : gset string) S R L i w :
  i ∈ source_files ->
  wp (prune_item fault datetime_now source_files S R L i)
     (quiet_then w (fun _ _ => True)) w.
Proof.
  intros Hi. unfold prune_item. rewrite bool_decide_eq_false_2 by auto.
  by apply wp_ret_quiet.
Qed.

(** When the replica already has the names, the kinds and the digests of
    the source, a pass only reads. *)
Lemma sync_folders_quiet fuel S R L w s r :
  lookup_path S (fs w) = Some s ->
  lookup_path R (fs w) = Some r ->
  same_digests s r ->
  wp (sync_folders set_iter fault datetime_now fuel S R L)
     (quiet_then w (fun _ _ => True)) w.
Proof.
  revert S R w s r; induction fuel as [|fuel IH]; intros S R w s r HS HR Hsame.
  { apply wp_out_of_fuel. repeat split. apply extends_refl. }
  cbn [sync_folders].
  apply wp_bind_quiet, wp_os_listdir_quiet. intros es HS'.
  apply wp_bind_quiet, wp_os_listdir_quiet. world_simpl. intros er HR'.
  simplify_eq. rewrite !list_to_set_elements_L.
  assert (Hdom : dom er = dom es) by by inversion Hsame.
  apply wp_bind_quiet.
  eapply wp_mono; [|apply wp_for_each_quiet].
  - intros o w3 (E3 & X3 & _). repeat split; [done..|].
    destruct o as [[]|e|]; try done.
    eapply wp_mono; [|apply wp_for_each_quiet].
    + intros o' w4 H4. exact H4.
    + intros x w4 Hx E4. apply prune_item_quiet.
      apply elem_of_set_iter in Hx; [|done]. by rewrite <- Hdom.
  - intros x w3 Hx E3. world_simpl.
    eapply (reconcile_item_quiet _ S R L x es er); rewrite ?E3; try done.
    + by apply elem_of_set_iter in Hx.
    + intros s1 r1 w1 H1 H2 H3. by eapply IH.
Qed.

(** C2 (amended).  With the source, the replica and the log file apart, a
    second pass, run right after a pass that has returned and with the
    source left alone, leaves the file system as it is, the log file
    included: whatever its outcome, none of its calls writes and it logs
    nothing. *)
Theorem second_pass_does_nothing fuel1 fuel2 S R L w w1 o2 w2 :
  separate S R -> separate L S -> separate L R ->
  sync_folders set_iter fault datetime_now fuel1 S R L w = (Ok tt, w1) ->
  sync_folders set_iter fault datetime_now fuel2 S R L w1 = (o2, w2) ->
  fs w2 = fs w1 ∧
  trace w2 = trace w1 ++ new_events w1 w2 ∧
  Forall read_only (new_events w1 w2) ∧
  logged (new_events w1 w2) = [].
Proof.
  intros Hsep HLS HLR Hrun1 Hrun2.
  destruct (sync_folders_same_digests _ _ _ set_iter_perm _ _ _ _ _ _
              Hsep HLS HLR Hrun1)
    as (s & r' & HS & HR & Hsame).
  destruct (wp_run _ _ _ _ _ Hrun2 (sync_folders_quiet fuel2 S R L w1 s r' HS HR Hsame))
    as (E & X & _).
  apply extends_new_events in X as [X1 X2]. repeat split; try done.
  clear X1. induction X2 as [|[c e] t Hc _ IH]; [done|].
  rewrite logged_cons. unfold read_only in Hc. by destruct c, e.
Qed.

End Quiet.

(* ===================================================================== *)
(** * Termination *)
(* ===================================================================== *)

Lemma total_ret {A} (a : A) : total (ret a).
Proof. by intros w. Qed.

Lemma total_query {A} (c : call) (f : node -> A) : total (query c f).
Proof. by intros w. Qed.

Lemma wp_bind_ends {A B} (m : M A) (k : A -> M B) w :
  wp m (fun o w1 =>
          match o with
          | Ok a => wp (k a) (fun o' _ => ends o') w1
          | _ => ends o
          end) w ->
  wp (bind m k) (fun o _ => ends o) w.
Proof. intros H. apply wp_bind. eapply wp_mono; [|exact H]. by intros [a|e|] w1. Qed.

Lemma total_bind {A B} (m : M A) (k : A -> M B) :
  total m -> (∀ a, total (k a)) -> total (bind m k).
Proof.
  intros Hm Hk w. apply wp_bind_ends. eapply wp_mono; [|apply Hm].
  intros [a|e|] w1; try done. intros _. apply Hk.
Qed.

Lemma total_for_each {A} (l : list A) (body : A -> M unit) :
  (∀ x, total (body x)) -> total (for_each l body).
Proof.
  intros Hb. induction l as [|x l IH]; [apply total_ret|].
  apply total_bind; [apply Hb|done].
Qed.

Section Termination.
Variable set_iter : gset string -> list string.
Variable fault : call -> node -> option exn.
Variable datetime_now : list event -> datetime.
Hypothesis set_iter_perm : ∀ X, set_iter X ≡ₚ elements X.

Lemma total_syscall {A} (c : call) (sem : node -> exn + A * node) :
  total (syscall fault c sem).
Proof.
  intros w. apply wp_syscall. destruct (fault c (fs w)); [done|].
  by destruct (sem (fs w)) as [e|[a n']].
Qed.

Lemma total_calculate_md5 p : total (calculate_md5 fault p).
Proof. apply total_bind; [apply total_syscall|]. intros. apply total_ret. Qed.

Lemma total_log_operation op L : total (log_operation fault datetime_now op L).
Proof. intros w. by apply wp_log_operation. Qed.

Lemma prune_item_total source_files S R L i :
  total (prune_item fault datetime_now source_files S R L i).
Proof.
  unfold prune_item. case_bool_decide; [|apply total_ret].
  apply total_bind; [apply total_query|]. intros [|];
    apply total_bind; intros; first [apply total_syscall|apply total_log_operation].
Qed.

Lemma reconcile_item_ends self S R L i w :
  (∀ w1, fs w1 = fs w ->
     is_dir (lookup_path (os_path_join S i) (fs w)) = true ->
     wp (self (os_path_join S i) (os_path_join R i) L) (fun o _ => ends o) w1) ->
  wp (reconcile_item fault datetime_now self S R L i) (fun o _ => ends o) w.
Proof.
  intros Hself. unfold reconcile_item.
  apply wp_bind_ends, wp_query.
  destruct (is_dir (lookup_path (os_path_join S i) (fs w))) eqn:Hd.
  - apply wp_bind_ends, wp_query. world_simpl.
    destruct (bool_decide _); simpl.
    + by apply Hself.
    + apply total_bind; intros; [apply total_syscall|apply total_log_operation].
  - apply total_bind; [apply total_query|]. intros e.
    apply total_bind.
    + destruct e; simpl; [|apply total_ret].
      apply total_bind; [apply total_calculate_md5|]. intros h1.
      apply total_bind; [apply total_calculate_md5|]. intros h2. apply total_ret.
    + intros [|]; [|apply total_ret].
      apply total_bind; intros; [apply total_syscall|apply total_log_operation].
Qed.

(** The recursion follows the directories of the source, and no call of a
    pass makes the source deeper: the copies and the removals are beside
    it, and a log record, wherever the log file lies, puts a file where no
    directory was. *)
Lemma sync_folders_ends fuel S R L w :
  separate S R ->
  (depth_at S (fs w) < fuel)%nat ->
  wp (sync_folders set_iter fault datetime_now fuel S R L) (fun o _ => ends o) w.
Proof.
  revert S R w; induction fuel as [|fuel IH]; intros S R w Hsep Hd; [lia|].
  cbn [sync_folders].
  apply wp_bind_ends, wp_syscall. destruct (fault _ _); [done|].
  destruct (lookup_path S (fs w)) as [[|es]|] eqn:HS; try done.
  apply wp_bind_ends, wp_syscall. world_simpl. destruct (fault _ _); [done|].
  destruct (lookup_path R (fs w)) as [[|er]|] eqn:HR; try done.
  apply wp_bind_ends.
  apply (wp_for_each _ _
           (fun _ w1 => ∀ i, (depth_at (os_path_join S i) (fs w1)
                              <= depth_at (os_path_join S i) (fs w))%nat)).
  - done.
  - intros done x rest w1 _ Hinv.
    eapply wp_mono;
      [|apply wp_and; [apply (reconcile_item_respects fault datetime_now L _ S R x);
                       intros; apply sync_folders_respects
                      |apply reconcile_item_ends]].
    + intros [[]|e|] w2 [[(_ & _ & C) _] He]; try done. cbn beta.
      intros i. etrans; [|apply Hinv]. apply C.
      by apply separate_app, separate_sym.
    + intros w' E Hdir. apply IH; [by apply separate_app|].
      rewrite E. specialize (Hinv x).
      apply is_dir_true in Hdir as [sub Hsub].
      unfold depth_at in *. rewrite Hsub in Hinv. rewrite Hsub.
      rewrite (lookup_entry _ _ _ _ HS) in Hinv. rewrite HS in Hd.
      cbn [from_option] in *.
      destruct (es !! x) as [c|] eqn:Hc; cbn [from_option] in Hinv;
        [|cbn [depth] in Hinv; lia].
      apply depth_entry in Hc. lia.
  - intros w3 _. apply total_for_each. intros i. apply prune_item_total.
Qed.

(** C10.  With a source tree of depth [d] that is separate from the
    replica, any fuel above [d] is enough, wherever the log file lies: the
    pass ends, by returning or by raising.  Each recursive call is on a
    directory among the entries of the source directory, whose depth is
    smaller, and no call of the pass, the write of a log record included,
    makes the source deeper. *)
Theorem sync_folders_terminates fuel S R L w s :
  separate S R ->
  lookup_path S (fs w) = Some s ->
  (depth s < fuel)%nat ->
  (sync_folders set_iter fault datetime_now fuel S R L w).1 ≠ OutOfFuel.
Proof.
  intros Hsep HS Hd.
  assert (H := sync_folders_ends fuel S R L w Hsep). unfold depth_at in H.
  rewrite HS in H. specialize (H Hd). unfold wp in H.
  by destruct (sync_folders set_iter fault datetime_now fuel S R L w).1.
Qed.

End Termination.

(* ===================================================================== *)
(** * Entries of different kinds under one name *)
(* ===================================================================== *)


Section Mismatch.
Variable set_iter : gset string -> list string.
Variable fault : call -> node -> option exn.
Variable datetime_now : list event -> datetime.
Hypothesis set_iter_perm : ∀ X, set_iter X ≡ₚ elements X.


Lemma wp_calculate_md5 p (Q : outcome string -> world -> Prop) w :
  wp (calculate_md5 fault p) Q w ↔
  match fault (OpenRb p) (fs w) with
  | Some e => Q (Raised e) (record (OpenRb p) (Some e) w (fs w))
  | None =>
      match lookup_path p (fs w) with
      | Some (File d _) => Q (Ok (md5_of d)) (record (OpenRb p) None w (fs w))
      | Some (Dir _) =>
          Q (Raised (IsADirectoryError p))
            (record (OpenRb p) (Some (IsADirectoryError p)) w (fs w))
      | None =>
          Q (Raised (FileNotFoundError p))
            (record (OpenRb p) (Some (FileNotFoundError p)) w (fs w))
      end
  end.
Proof.
  unfold calculate_md5. rewrite wp_bind. unfold open_rb. rewrite wp_syscall.
  destruct (fault _ _); [done|]. by destruct (lookup_path p (fs w)) as [[|]|].
Qed.




End Mismatch.

(* ===================================================================== *)
(** * The digest of a file *)
(* ===================================================================== *)

Lemma fold_update_read_chunks fuel size data acc :
  (0 < size)%nat -> (length data <= fuel)%nat ->
  fold_left MD5.update (read_chunks fuel size data) acc = acc ++ data.
Proof.
  intros Hsize. revert data acc. induction fuel as [|fuel IH]; intros data acc Hlen.
  - destruct data; [by rewrite app_nil_r|simpl in Hlen; lia].
  - destruct data as [|b data]; [by rewrite app_nil_r|].
    cbn [read_chunks fold_left]. rewrite IH.
    + unfold MD5.update. by rewrite <- app_assoc, take_drop.
    + rewrite length_drop. simpl in *. lia.
Qed.

(** Reading in chunks of 4096 bytes gives the digest of the whole file. *)
Lemma md5_of_hexdigest data : md5_of data = MD5.hexdigest data.
Proof.
  unfold md5_of. rewrite fold_update_read_chunks; [done|lia|done].
Qed.

Lemma md5_empty : md5_of [] = "d41d8cd98f00b204e9800998ecf8427e".
Proof. vm_compute. reflexivity. Qed.

Lemma md5_abc : md5_of (bytes "abc") = "900150983cd24fb0d6963f7d28e17f72".
Proof. vm_compute. reflexivity. Qed.

Lemma md5_message_digest :
  md5_of (bytes "message digest") = "f96b697d7cb7938d525a2f31aaf161d0".
Proof. vm_compute. reflexivity. Qed.

Lemma md5_two_chunks :
  md5_of (repeat "a"%byte 5000) = "7aaa7dec709fa4fa82f3746abfd80bdb".
Proof. vm_compute. reflexivity. Qed.

Lemma md5_collision :
  collision_a ≠ collision_b ∧ md5_of collision_a = md5_of collision_b.
Proof. split; [discriminate|vm_compute; reflexivity]. Qed.

(* ===================================================================== *)
(** * The scenario of the specification *)
(* ===================================================================== *)

Section Scenario.
Variable set_iter : gset string -> list string.
Variable fault : call -> node -> option exn.
Variable datetime_now : list event -> datetime.

Lemma sync_folders_step fuel S R L w ss rs w1 w2 :
  os_listdir fault S w = (Ok ss, w1) ->
  os_listdir fault R w1 = (Ok rs, w2) ->
  sync_folders set_iter fault datetime_now (Datatypes.S fuel) S R L w
  = (for_each (set_iter (list_to_set ss))
       (reconcile_item fault datetime_now
          (sync_folders set_iter fault datetime_now fuel) S R L) ;;
     for_each (set_iter (list_to_set rs))
       (prune_item fault datetime_now (list_to_set ss) S R L)) w2.
Proof. intros H1 H2. cbn [sync_folders]. unfold bind at 1 2. by rewrite H1, H2. Qed.

End Scenario.

Lemma pair_eta {A B} (x : A * B) (a : A) : x.1 = a -> x = (a, x.2).
Proof. intros <-. by destruct x. Qed.

Lemma separate_source_replica : separate ["source"] ["replica"].
Proof. split; intros [k Hk]; discriminate. Qed.

Lemma separate_log_source : separate ["sync.log"] ["source"].
Proof. split; intros [k Hk]; discriminate. Qed.

Lemma separate_log_replica : separate ["sync.log"] ["replica"].
Proof. split; intros [k Hk]; discriminate. Qed.

(** C9.  In the scenario of the specification, with the log file
    [sync.log] beside the two trees, whatever the order in which the two
    sets are visited and whatever the clock shows, the pass returns with
    exactly two records in the log, "Directory created" for [sub] and then
    "File removed" for [c.txt]; the replica then holds [a.txt] untouched
    (no call writes to it and it keeps its own time stamp), [sub/b.txt] as
    in the source, and no [c.txt]; the source is as before, and the log
    file has been created. *)
Theorem example_scenario (set_iter : gset string -> list string)
    (datetime_now : list event -> datetime) (fuel : nat) :
  (∀ X, set_iter X ≡ₚ elements X) ->
  (0 < fuel)%nat ->
  let run := sync_folders set_iter no_fault datetime_now fuel
               ["source"] ["replica"] ["sync.log"] example_world in
  run.1 = Ok tt ∧
  logged (trace run.2)
  = [DirectoryCreated ["replica"; "sub"]; FileRemoved ["replica"; "c.txt"]] ∧
  lookup_path ["replica"] (fs run.2) = Some example_result ∧
  lookup_path ["source"] (fs run.2) = Some (Dir example_source_entries) ∧
  effects_at ["replica"; "a.txt"] (trace run.2) = [] ∧
  is_file (lookup_path ["sync.log"] (fs run.2)) = true.
Proof.
  intros Hperm Hfuel. cbv zeta. destruct fuel as [|fuel]; [lia|].
  rewrite (sync_folders_step set_iter no_fault datetime_now fuel
             ["source"] ["replica"] ["sync.log"] example_world
             (elements (dom example_source_entries))
             (elements (dom example_replica_entries))
             (record (Listdir ["source"]) None example_world (fs example_world))
             (record (Listdir ["replica"]) None
                (record (Listdir ["source"]) None example_world (fs example_world))
                (fs example_world)))
    by (vm_compute; reflexivity).
  rewrite !list_to_set_elements_L.
  pose proof (Hperm (dom example_source_entries)) as H1.
  pose proof (Hperm (dom example_replica_entries)) as H2.
  assert (E1 : elements (dom example_source_entries) = ["sub"; "a.txt"])
    by (vm_compute; reflexivity).
  assert (E2 : elements (dom example_replica_entries) = ["c.txt"; "a.txt"])
    by (vm_compute; reflexivity).
  rewrite E1 in H1. rewrite E2 in H2.
  symmetry in H1, H2.
  apply Permutation_length_2_inv in H1, H2.
  set (l1 := set_iter (dom example_source_entries)) in *.
  set (l2 := set_iter (dom example_replica_entries)) in *.
  clearbody l1 l2.
  destruct H1 as [-> | ->], H2 as [-> | ->]; vm_compute; by repeat split.
Qed.

(* ===================================================================== *)
(** * Instances *)
(* ===================================================================== *)

Lemma elements_order_ok : ∀ X : gset string, elements X ≡ₚ elements X.
Proof. intros X. reflexivity. Defined.

Lemma reverse_elements_ok : ∀ X : gset string, reverse_elements X ≡ₚ elements X.
Proof. intros X. apply reverse_Permutation. Defined.

Lemma example_source : lookup_path ["source"] (fs example_world) = Some (Dir example_source_entries).
Proof. reflexivity. Defined.

Lemma example_replica : lookup_path ["replica"] (fs example_world) = Some (Dir example_replica_entries).
Proof. reflexivity. Defined.

Lemma example_run_ok :
  sync_folders elements no_fault still_clock 3 ["source"] ["replica"] ["sync.log"]
    example_world
  = (Ok tt, (run ["sync.log"] example_world).2).
Proof. apply pair_eta. vm_compute. reflexivity. Defined.

Lemma example_no_collision :
  no_collision (Dir example_source_entries) (Dir example_replica_entries).
Proof.
  intros q d m d' m' H1 H2 _. destruct q as [|x q]; [discriminate|].
  unfold example_source_entries, example_replica_entries in *.
  cbn [lookup_path list_to_map foldr uncurry fst snd] in H1, H2.
  destruct (decide (x = "a.txt")) as [->|N1].
  - rewrite lookup_insert_eq in H1, H2. destruct q; simpl in *; congruence.
  - rewrite lookup_insert_ne in H1, H2 by done.
    destruct (decide (x = "c.txt")) as [->|N2].
    + rewrite lookup_insert_ne, lookup_empty in H1 by done. discriminate.
    + by rewrite lookup_insert_ne, lookup_empty in H2 by done.
Qed.

(* ===================================================================== *)
(** * More on a pass that returns *)
(* ===================================================================== *)

(** The source entry and the old replica entry determine the new one. *)
Lemma synced_functional s r r1 r2 : synced s r r1 -> synced s r r2 -> r1 = r2.
Proof.
  intros H. revert r2.
  induction H as [s|d m d' m' Hne|d m d' m' Heq|es er er' Hdom Hch]
    using synced_strong_ind; intros r2 H2.
  - by inversion H2.
  - by inversion H2.
  - by inversion H2.
  - inversion H2 as [| | |? ? er2 Hdom2 Hch2]; subst. f_equal. apply map_eq. intros i.
    destruct (es !! i) as [s|] eqn:Hs.
    + destruct (Hch i s Hs) as (r1 & Hr1 & _ & IH).
      destruct (Hch2 i s Hs) as (r2' & Hr2 & Hsy2).
      rewrite Hr1, Hr2. f_equal. by apply IH.
    + apply not_elem_of_dom in Hs as Hd.
      assert (H1 : er' !! i = None) by (apply not_elem_of_dom; by rewrite Hdom).
      assert (H3 : er2 !! i = None) by (apply not_elem_of_dom; by rewrite Hdom2).
      by rewrite H1, H3.
Qed.

(** Two trees are equal when they agree at [R], which exists, and at every
    path beside [R]. *)
Lemma node_eq_from_lookups R n1 n2 r :
  lookup_path R n1 = Some r -> lookup_path R n2 = Some r ->
  (∀ q, separate R q -> lookup_path q n1 = lookup_path q n2) ->
  n1 = n2.
Proof.
  revert n1 n2. induction R as [|x R IH]; intros n1 n2 H1 H2 Hsep.
  { simpl in *. congruence. }
  destruct n1 as [|e1]; [done|]. destruct n2 as [|e2]; [done|].
  cbn [lookup_path] in H1, H2.
  destruct (e1 !! x) as [c1|] eqn:E1; [|done].
  destruct (e2 !! x) as [c2|] eqn:E2; [|done].
  f_equal. apply map_eq. intros y. destruct (decide (y = x)) as [->|Hne].
  - rewrite E1, E2. f_equal. apply IH; [done..|].
    intros q [Hq1 Hq2]. specialize (Hsep (x :: q)). cbn [lookup_path] in Hsep.
    rewrite E1, E2 in Hsep. apply Hsep. split; intros Hp.
    + apply Hq1. by apply prefix_cons_inv_2 in Hp.
    + apply Hq2. by apply prefix_cons_inv_2 in Hp.
  - specialize (Hsep [y]). cbn [lookup_path] in Hsep.
    assert (Hs : separate (x :: R) [y]).
    { split; intros [k Hk]; simpl in Hk; congruence. }
    specialize (Hsep Hs). by destruct (e1 !! y), (e2 !! y); simplify_eq.
Qed.

(** Two trees that agree at [R], which exists, and at every path beside
    [R] and [L], agree at every path beside [L]. *)
Lemma lookup_eq_beside R L n1 n2 r :
  lookup_path R n1 = Some r -> lookup_path R n2 = Some r ->
  (∀ q, separate R q -> separate L q -> lookup_path q n1 = lookup_path q n2) ->
  ∀ q, separate L q -> lookup_path q n1 = lookup_path q n2.
Proof.
  intros H1 H2 H q Hq.
  destruct (decide (R `prefix_of` q)) as [[k ->]|N1].
  { by rewrite !lookup_path_app, H1, H2. }
  destruct (decide (q `prefix_of` R)) as [[k ->]|N2]; [|by apply H].
  rewrite lookup_path_app in H1, H2.
  destruct (lookup_path q n1) as [c1|] eqn:E1; [|done].
  destruct (lookup_path q n2) as [c2|] eqn:E2; [|done].
  simpl in H1, H2. f_equal. apply (node_eq_from_lookups k _ _ r); [done..|].
  intros k' [K1 K2].
  assert (G : lookup_path (q ++ k') n1 = lookup_path (q ++ k') n2).
  { apply H; [|by apply separate_below_r].
    split; intros Hp; [apply K1|apply K2]; by apply prefix_app_inv in Hp. }
  by rewrite !lookup_path_app, E1, E2 in G.
Qed.

Section Order.
Variable set_iter1 set_iter2 : gset string -> list string.
Variable fault1 fault2 : call -> node -> option exn.
Variable datetime_now1 datetime_now2 : list event -> datetime.
Hypothesis set_iter1_perm : ∀ X, set_iter1 X ≡ₚ elements X.
Hypothesis set_iter2_perm : ∀ X, set_iter2 X ≡ₚ elements X.

(** X3.  With the source, the replica and the log file apart, what a
    returning pass leaves beside the log file does not depend on the order
    in which the two sets are visited (nor on the clock, the fuel, or which
    outside failures were possible and did not happen): two such passes
    from one state end in file systems that differ at most in the log
    file, whose lines follow the order of the operations. *)
Theorem result_independent_of_set_order fuel1 fuel2 S R L w w1 w2 :
  separate S R -> separate L S -> separate L R ->
  sync_folders set_iter1 fault1 datetime_now1 fuel1 S R L w = (Ok tt, w1) ->
  sync_folders set_iter2 fault2 datetime_now2 fuel2 S R L w = (Ok tt, w2) ->
  ∀ q, separate L q -> lookup_path q (fs w1) = lookup_path q (fs w2).
Proof.
  intros Hsep HLS HLR H1 H2.
  destruct (sync_folders_pass_ok _ _ _ set_iter1_perm _ _ _ _ _ _ Hsep HLS HLR H1)
    as (es & er & r1 & t1 & HS & HR & Hr1 & Hsy1 & _).
  destruct (sync_folders_pass_ok _ _ _ set_iter2_perm _ _ _ _ _ _ Hsep HLS HLR H2)
    as (es' & er' & r2 & t2 & HS' & HR' & Hr2 & Hsy2 & _).
  simplify_eq. assert (r1 = r2) as -> by by eapply synced_functional.
  apply (lookup_eq_beside R L _ _ r2); [done..|]. intros q Hq Hl.
  destruct (respects_run _ _ _ _ _ (sync_folders_respects _ _ _ L fuel1 S R) H1)
    as [[A1 _] _].
  destruct (respects_run _ _ _ _ _ (sync_folders_respects _ _ _ L fuel2 S R) H2)
    as [[A2 _] _].
  by rewrite A1, A2.
Qed.

End Order.

Section Corners.
Variable set_iter : gset string -> list string.
Variable fault : call -> node -> option exn.
Variable datetime_now : list event -> datetime.
Hypothesis set_iter_perm : ∀ X, set_iter X ≡ₚ elements X.

(** X4.  With the source, the replica and the log file apart, an entry that
    the replica lacks is copied as it is in the source: a file with its
    bytes and its modification time, a directory with its whole subtree.
    So a pass into an empty replica makes the replica equal to the
    source. *)
Theorem missing_entries_copied_exactly fuel S R L w w' es er :
  separate S R -> separate L S -> separate L R ->
  lookup_path S (fs w) = Some (Dir es) ->
  lookup_path R (fs w) = Some (Dir er) ->
  sync_folders set_iter fault datetime_now fuel S R L w = (Ok tt, w') ->
  (∀ i s, es !! i = Some s -> er !! i = None ->
     lookup_path (os_path_join R i) (fs w') = Some s) ∧
  (er = ∅ -> lookup_path R (fs w') = Some (Dir es)).
Proof.
  intros Hsep HLS HLR HS HR Hrun.
  destruct (sync_folders_table _ _ _ set_iter_perm _ _ _ _ _ _ es er
              Hsep HLS HLR HS HR Hrun)
    as (er' & HR' & Hsy & _).
  assert (G : ∀ i s, es !! i = Some s -> er !! i = None -> er' !! i = Some s).
  { intros i s Hs Hr. destruct (synced_dir_entry _ _ _ _ _ Hsy Hs) as (ri & Hri & Hsi).
    rewrite Hr in Hsi. by inversion Hsi; subst. }
  split.
  - intros i s Hs Hr. rewrite (lookup_entry _ _ _ _ HR'). by apply G.
  - intros ->. rewrite HR'. do 2 f_equal. apply map_eq. intros i.
    destruct (es !! i) as [s|] eqn:Hs.
    + apply G; [done|apply lookup_empty].
    + by eapply synced_dir_absent.
Qed.

(** X5.  With the source, the replica and the log file apart, a pass from
    an empty source directory that returns leaves the replica directory
    empty. *)
Theorem empty_source_empties_replica fuel S R L w w' :
  separate S R -> separate L S -> separate L R ->
  lookup_path S (fs w) = Some (Dir ∅) ->
  sync_folders set_iter fault datetime_now fuel S R L w = (Ok tt, w') ->
  lookup_path R (fs w') = Some (Dir ∅).
Proof.
  intros Hsep HLS HLR HS Hrun.
  destruct (sync_folders_pass_ok _ _ _ set_iter_perm _ _ _ _ _ _ Hsep HLS HLR Hrun)
    as (es & er & r' & t & HS' & HR & Hr' & Hsy & _).
  simplify_eq. inversion Hsy as [| | |? ? er' Hdom _]; subst.
  rewrite Hr'. do 2 f_equal. apply dom_empty_inv_L. by rewrite Hdom, dom_empty_L.
Qed.


End Corners.


(* ===================================================================== *)
(** * What every pass does, whatever its outcome *)
(* ===================================================================== *)

#[export] Instance extends_preorder P : PreOrder (extends P).
Proof. split; [intros w; apply extends_refl|intros w1 w2 w3; apply extends_trans]. Qed.

Lemma within_below S R L i ev :
  within (os_path_join S i) (os_path_join R i) L ev -> within S R L ev.
Proof.
  intros H p Hp. destruct (H p Hp) as [Hq|[Hq|Hq]]; [left|right; left|by right; right];
    (etrans; [|exact Hq]); by apply prefix_app_r.
Qed.

Lemma within_event S R L c e :
  Forall (fun p => S `prefix_of` p ∨ R `prefix_of` p ∨ p = L) (call_paths c) ->
  within S R L (Event c e).
Proof. intros H p Hp. by eapply Forall_forall in H. Qed.

Ltac within_tac :=
  apply within_event; cbn [call_paths op_path];
  repeat (apply Forall_cons; split; [first [by left; apply prefix_app_r
                                            |by right; left; apply prefix_app_r
                                            |by left|by right; left
                                            |by right; right]|]);
  by apply Forall_nil.

Lemma paired_app L t1 t2 : paired L t1 -> paired L t2 -> paired L (t1 ++ t2).
Proof.
  intros H1 H2. induction H1 as [|c e t Hc Hl _ IH|c op e t Hc Hr _ IH]; [done|..].
  - by apply paired_other.
  - by apply (paired_write L c op e).
Qed.

Lemma paired_log_preceded L t pre op lf e post :
  paired L t -> t = pre ++ Event (LogOperation op lf) e :: post ->
  lf = L ∧ ∃ pre' c, pre = pre' ++ [Event c None] ∧ reports op c.
Proof.
  intros H. revert pre. induction H as [|c e' t Hc Hl _ IH|c op' e' t Hc Hr _ IH];
    intros pre E.
  - by destruct pre.
  - destruct pre as [|ev pre]; simplify_eq/=.
    destruct (IH pre eq_refl) as (-> & pre' & c' & -> & Hrep).
    split; [done|]. by exists (Event c e' :: pre'), c'.
  - destruct pre as [|ev pre]; simplify_eq/=; try done.
    destruct pre as [|ev' pre]; simplify_eq/=; [split; [done|]; by exists [], c|].
    destruct (IH pre eq_refl) as (-> & pre' & c' & -> & Hrep).
    split; [done|].
    by exists (Event c None :: Event (LogOperation op' L) e' :: pre'), c'.
Qed.

Lemma paired_write_followed L t pre c post :
  paired L t -> t = pre ++ Event c None :: post -> write_target c ≠ None ->
  ∃ op e post', post = Event (LogOperation op L) e :: post' ∧ reports op c.
Proof.
  intros H. revert pre. induction H as [|c' e' t Hc Hl _ IH|c' op' e' t Hc Hr _ IH];
    intros pre E Hw.
  - by destruct pre.
  - destruct pre as [|ev pre]; simplify_eq/=; [|by apply (IH pre)].
    destruct Hc as [Hc|Hc]; [by rewrite Hc in Hw|done].
  - destruct pre as [|ev pre]; simplify_eq/=; [by exists op', e', t|].
    destruct pre as [|ev' pre]; simplify_eq/=. by apply (IH pre).
Qed.

#[export] Instance grows_paired_preorder L : PreOrder (grows (paired L)).
Proof.
  split.
  - intros w. exists []. split; [by rewrite app_nil_r|constructor].
  - intros w1 w2 w3 (t1 & E1 & P1) (t2 & E2 & P2). exists (t1 ++ t2). split.
    + by rewrite E2, E1, <- app_assoc.
    + by apply paired_app.
Qed.

Lemma grows_paired_record L c e w n :
  write_target c = None ∨ e ≠ None -> log_target c = None ->
  grows (paired L) w (record c e w n).
Proof.
  intros Hc Hl. exists [Event c e]. split; [done|]. apply paired_other; [done..|constructor].
Qed.

Section Everywhere.
Variable set_iter : gset string -> list string.
Variable fault : call -> node -> option exn.
Variable datetime_now : list event -> datetime.
Variable L : path.

Lemma syscall_extends {A} P (c : call) (sem : node -> exn + A * node) :
  (∀ e, P (Event c e)) -> respects (extends P) (syscall fault c sem).
Proof. intros H. apply respects_syscall; intros; by apply extends_record. Qed.

Lemma query_extends {A} P (c : call) (f : node -> A) :
  P (Event c None) -> respects (extends P) (query c f).
Proof. intros H. apply respects_query. intros. by apply extends_record. Qed.

Lemma log_operation_extends P op :
  (∀ e, P (Event (LogOperation op L) e)) ->
  respects (extends P) (log_operation fault datetime_now op L).
Proof. intros H. apply respects_log_operation; intros; by apply extends_record. Qed.

Lemma reconcile_item_within self S R i :
  (∀ S' R', respects (extends (within S' R' L)) (self S' R' L)) ->
  respects (extends (within S R L)) (reconcile_item fault datetime_now self S R L i).
Proof.
  intros Hself. unfold reconcile_item, calculate_md5, os_path_isdir, os_path_exists,
    shutil_copytree, shutil_copy2, open_rb.
  apply respects_bind; try apply _; [apply query_extends; within_tac|]. intros [|].
  - apply respects_bind; try apply _; [apply query_extends; within_tac|]. intros [|]; simpl.
    + eapply respects_mono; [|apply Hself]. intros w w'. apply extends_mono.
      intros ev. apply within_below.
    + apply respects_bind; try apply _; [apply syscall_extends; intros; within_tac|].
      intros _. apply log_operation_extends; intros; within_tac.
  - apply respects_bind; try apply _; [apply query_extends; within_tac|]. intros e.
    apply respects_bind; try apply _; [ |].
    + destruct e; simpl; [|apply respects_ret; try apply _].
      apply respects_bind; try apply _; [ |intros h1].
      { apply respects_bind; try apply _; [apply syscall_extends; intros; within_tac|].
        intros. apply respects_ret; try apply _. }
      apply respects_bind; try apply _; [ |intros h2; apply respects_ret; try apply _].
      apply respects_bind; try apply _; [apply syscall_extends; intros; within_tac|].
      intros. apply respects_ret; try apply _.
    + intros [|]; [|apply respects_ret; try apply _].
      apply respects_bind; try apply _; [apply syscall_extends; intros; within_tac|].
      intros _. apply log_operation_extends; intros; within_tac.
Qed.

Lemma prune_item_within source_files S R i :
  respects (extends (within S R L))
    (prune_item fault datetime_now source_files S R L i).
Proof.
  unfold prune_item, os_path_isdir, shutil_rmtree, os_remove.
  case_bool_decide; [|apply respects_ret; try apply _].
  apply respects_bind; try apply _; [apply query_extends; within_tac|]. intros [|];
    (apply respects_bind; try apply _; [apply syscall_extends; intros; within_tac|]);
    intros _; apply log_operation_extends; intros; within_tac.
Qed.

Lemma sync_folders_within fuel S R :
  respects (extends (within S R L))
    (sync_folders set_iter fault datetime_now fuel S R L).
Proof.
  revert S R; induction fuel as [|fuel IH]; intros S R; simpl.
  - apply respects_out_of_fuel; try apply _.
  - unfold os_listdir.
    apply respects_bind; try apply _; [apply syscall_extends; intros; within_tac|]. intros ss.
    apply respects_bind; try apply _; [apply syscall_extends; intros; within_tac|]. intros rs.
    apply respects_bind; try apply _; [ |intros _]; apply respects_for_each; try apply _;
      intros i _.
    + by apply reconcile_item_within.
    + apply prune_item_within.
Qed.

(** X7.  Main.py, lines 28 and 37-67.  Every path that a pass hands to a
    library call, for reading as well as for writing, lies at or below the
    source path or the replica path, or is the log file, which
    [log_operation] opens for appending: a pass looks at nothing and
    touches nothing outside the two trees and the log file. *)
Theorem sync_folders_stays_within_the_two_trees fuel S R w :
  trace (sync_folders set_iter fault datetime_now fuel S R L w).2
  = trace w ++ new_events w (sync_folders set_iter fault datetime_now fuel S R L w).2 ∧
  Forall (within S R L)
    (new_events w (sync_folders set_iter fault datetime_now fuel S R L w).2).
Proof. apply extends_new_events, sync_folders_within. Qed.

(** ** Writes and log records come in pairs *)

Lemma write_then_log_paired {A} (c : call) (sem : node -> exn + A * node) op :
  write_target c ≠ None -> log_target c = None -> reports op c ->
  respects (grows (paired L))
    (syscall fault c sem ;; log_operation fault datetime_now op L).
Proof.
  intros Hw Hl Hr w. apply wp_bind, wp_syscall.
  assert (He : ∀ e, grows (paired L) w (record c (Some e) w (fs w))).
  { intros e. apply grows_paired_record; [by right|done]. }
  destruct (fault c (fs w)); [apply He|].
  destruct (sem (fs w)) as [e|[a n']]; [apply He|].
  assert (Hp : ∀ e n'', grows (paired L) w
                 (record (LogOperation op L) e (record c None w n') n'')).
  { intros e n''. exists [Event c None; Event (LogOperation op L) e].
    split; [cbn [trace record]; by rewrite <- app_assoc|].
    apply paired_write; [done..|constructor]. }
  apply wp_log_operation; intros; apply Hp.
Qed.

Lemma read_syscall_paired {A} (c : call) (sem : node -> exn + A * node) :
  write_target c = None -> log_target c = None ->
  respects (grows (paired L)) (syscall fault c sem).
Proof. intros Hw Hl. apply respects_syscall; intros; apply grows_paired_record; auto. Qed.

Lemma query_paired {A} (c : call) (f : node -> A) :
  write_target c = None -> log_target c = None ->
  respects (grows (paired L)) (query c f).
Proof. intros Hw Hl. apply respects_query. intros. apply grows_paired_record; auto. Qed.

Lemma calculate_md5_paired p : respects (grows (paired L)) (calculate_md5 fault p).
Proof.
  apply respects_bind; try apply _; [by apply read_syscall_paired|].
  intros. apply respects_ret; try apply _.
Qed.

Lemma reconcile_item_paired self S R i :
  (∀ S' R', respects (grows (paired L)) (self S' R' L)) ->
  respects (grows (paired L)) (reconcile_item fault datetime_now self S R L i).
Proof.
  intros Hself. unfold reconcile_item.
  apply respects_bind; try apply _; [by apply query_paired|]. intros [|].
  - apply respects_bind; try apply _; [by apply query_paired|]. intros [|]; simpl.
    + apply Hself.
    + by apply write_then_log_paired.
  - apply respects_bind; try apply _; [by apply query_paired|]. intros e.
    apply respects_bind; try apply _; [ |].
    + destruct e; simpl; [|apply respects_ret; try apply _].
      apply respects_bind; try apply _; [apply calculate_md5_paired|]. intros h1.
      apply respects_bind; try apply _; [apply calculate_md5_paired|]. intros h2.
      apply respects_ret; try apply _.
    + intros [|]; [|apply respects_ret; try apply _]. by apply write_then_log_paired.
Qed.

Lemma prune_item_paired source_files S R i :
  respects (grows (paired L)) (prune_item fault datetime_now source_files S R L i).
Proof.
  unfold prune_item. case_bool_decide; [|apply respects_ret; try apply _].
  apply respects_bind; try apply _; [by apply query_paired|]. intros [|];
    by apply write_then_log_paired.
Qed.

Lemma sync_folders_paired fuel S R :
  respects (grows (paired L)) (sync_folders set_iter fault datetime_now fuel S R L).
Proof.
  revert S R; induction fuel as [|fuel IH]; intros S R; simpl.
  - apply respects_out_of_fuel; try apply _.
  - apply respects_bind; try apply _; [by apply read_syscall_paired|]. intros ss.
    apply respects_bind; try apply _; [by apply read_syscall_paired|]. intros rs.
    apply respects_bind; try apply _; [ |intros _]; apply respects_for_each; try apply _;
      intros i _.
    + by apply reconcile_item_paired.
    + apply prune_item_paired.
Qed.

(** X9.  Main.py, lines 47-48, 53-54, 63-64 and 66-67.  In every run of a pass,
    whatever its outcome and wherever the log file lies, each call of
    [log_operation] is on the log file of the pass and comes right after
    the successful write that it reports ([copytree] for "Directory
    created", [copy2] for "File copied/updated", [rmtree] for "Directory
    removed", [os.remove] for "File removed", on the same path), and each
    successful write is followed at once by the call of [log_operation]
    that reports it: the log never names an operation that was not done,
    and a write can go unlogged only when the logging itself fails. *)
Theorem writes_and_log_records_pair_up fuel S R w :
  let t := new_events w (sync_folders set_iter fault datetime_now fuel S R L w).2 in
  (∀ pre op lf e post, t = pre ++ Event (LogOperation op lf) e :: post ->
     lf = L ∧ ∃ pre' c, pre = pre' ++ [Event c None] ∧ reports op c) ∧
  (∀ pre c post, t = pre ++ Event c None :: post -> write_target c ≠ None ->
     ∃ op e post', post = Event (LogOperation op L) e :: post' ∧ reports op c).
Proof.
  destruct (sync_folders_paired fuel S R w) as (t & E & Hp).
  cbn zeta. rewrite (new_events_app _ _ _ E). split.
  - intros pre op lf e post Ht. by eapply paired_log_preceded.
  - intros pre c post Ht Hw. by eapply paired_write_followed.
Qed.

(** ** The frame of a pass *)

(** C8 (amended).  Whatever the outcome of a pass and whatever the three
    paths: every copy and every removal is of a path strictly below the
    replica path, which the record in the log names; every record is
    appended to the log file; and nothing beside the replica path and the
    log file changes.  When the source lies apart from both the replica
    and the log file, it is therefore left as it was. *)
Theorem source_tree_untouched fuel S R w o w' :
  sync_folders set_iter fault datetime_now fuel S R L w = (o, w') ->
  (trace w' = trace w ++ new_events w w' ∧
   Forall (targets (below R)) (new_events w w') ∧
   Forall (fun ev => ∀ lf, log_file_of (ev_call ev) = Some lf -> lf = L)
          (new_events w w')) ∧
  (∀ q, separate R q -> separate L q ->
        lookup_path q (fs w') = lookup_path q (fs w)) ∧
  (separate S R -> separate L S ->
   ∀ q, lookup_path (S ++ q) (fs w') = lookup_path (S ++ q) (fs w)).
Proof.
  intros Hrun.
  destruct (respects_run _ _ _ _ _
              (sync_folders_respects set_iter fault datetime_now L fuel S R) Hrun)
    as [[A _] B].
  apply extends_new_events in B as [B1 B2].
  destruct (respects_run _ _ _ _ _ (sync_folders_paired fuel S R) Hrun)
    as (t & E & Hp).
  rewrite (new_events_app _ _ _ E) in *.
  repeat split; try done.
  - apply Forall_forall. intros [c e] Hev lf Hlf.
    destruct c; simplify_eq/=.
    apply list_elem_of_split in Hev as (pre & post & ->).
    by destruct (paired_log_preceded _ _ _ _ _ _ _ Hp eq_refl).
  - intros Hsep HLS q.
    apply A; [by apply separate_below_r, separate_sym|by apply separate_below_r].
Qed.

End Everywhere.

(* ===================================================================== *)
(** * The loop of [main] *)
(* ===================================================================== *)

Lemma read_only_not_logged t : Forall read_only t -> logged t = [].
Proof.
  induction 1 as [|[c e] t Hc _ IH]; [done|].
  rewrite logged_cons. unfold read_only in Hc. by destruct c, e.
Qed.

Section MainLoop.
Variable set_iter : gset string -> list string.
Variable fault : call -> node -> option exn.
Variable datetime_now : list event -> datetime.
Hypothesis set_iter_perm : ∀ X, set_iter X ≡ₚ elements X.

Lemma main_loop_propagates rounds fuel S R interval L :
  propagates (main_loop set_iter fault datetime_now rounds fuel S R interval L).
Proof.
  induction rounds as [|rounds IH]; [apply propagates_ret|].
  apply propagates_bind; [apply sync_folders_propagates|]. intros _.
  apply propagates_bind; [apply time_sleep_propagates|done].
Qed.

(** X12.  Main.py, lines 86-92.  [main] catches [KeyboardInterrupt] only: a
    pass or a [time.sleep] that raises ends the loop.  In every run of the
    loop a failed call is the last call, no later pass is started, and the
    exception is the outcome of the loop; a first pass that raises is the
    whole run. *)
Theorem main_loop_ends_at_first_failure rounds fuel S R interval L w :
  (∃ t, trace (main_loop set_iter fault datetime_now rounds fuel S R interval L w).2
        = trace w ++ t ∧
     ∀ pre ev post e, t = pre ++ ev :: post -> ev_exn ev = Some e ->
       post = [] ∧
       (main_loop set_iter fault datetime_now rounds fuel S R interval L w).1
       = Raised e) ∧
  (∀ e, (sync_folders set_iter fault datetime_now fuel S R L w).1 = Raised e ->
     main_loop set_iter fault datetime_now (Datatypes.S rounds) fuel S R interval L w
     = (Raised e, (sync_folders set_iter fault datetime_now fuel S R L w).2)).
Proof.
  split.
  - destruct (main_loop_propagates rounds fuel S R interval L w) as (t & E & D).
    exists t. split; [done|]. intros pre ev post e Ht He.
    by eapply disciplined_failure_last.
  - intros e He. cbn [main_loop]. unfold bind.
    destruct (sync_folders set_iter fault datetime_now fuel S R L w) as [o w1].
    simpl in He. by subst.
Qed.

Lemma time_sleep_quiet interval (P : unit -> world -> Prop) w :
  (∀ w1, fs w1 = fs w -> extends read_only w w1 -> P tt w1) ->
  wp (time_sleep fault interval) (quiet_then w P) w.
Proof.
  intros H. apply wp_syscall_quiet; [done|]. intros [] n' Hs.
  destruct (interval <? 0); [done|]. destruct (sleep_max <? interval); simplify_eq.
  split; [done|].
  apply H; [done|]. by apply extends_record.
Qed.

Lemma main_loop_quiet rounds fuel S R interval L w s r :
  lookup_path S (fs w) = Some s ->
  lookup_path R (fs w) = Some r ->
  same_digests s r ->
  wp (main_loop set_iter fault datetime_now rounds fuel S R interval L)
     (quiet_then w (fun _ _ => True)) w.
Proof.
  revert w. induction rounds as [|rounds IH]; intros w HS HR Hsame.
  { by apply wp_ret_quiet. }
  cbn [main_loop]. apply wp_bind_quiet.
  eapply wp_mono; [|by eapply sync_folders_quiet].
  intros o w1 (E & X & _). split; [done|]. split; [done|].
  destruct o as [[]|e|]; try done.
  apply wp_bind_quiet, time_sleep_quiet. intros w2 E2 _.
  apply IH; [by rewrite E2, E|by rewrite E2, E|done].
Qed.

(** X10.  Main.py, lines 86-89.  With the source, the replica and the log
    file apart, once a pass has returned the loop has reached a steady
    state: as long as nothing else changes the two trees, however many
    further passes the loop starts, and whatever their outcomes, the file
    system stays as that pass left it, the log file included, no call
    writes and no record is added to the log. *)
Theorem main_loop_steady_state rounds fuel1 fuel2 S R interval L w w1 o w2 :
  separate S R -> separate L S -> separate L R ->
  sync_folders set_iter fault datetime_now fuel1 S R L w = (Ok tt, w1) ->
  main_loop set_iter fault datetime_now rounds fuel2 S R interval L w1 = (o, w2) ->
  fs w2 = fs w1 ∧
  trace w2 = trace w1 ++ new_events w1 w2 ∧
  Forall read_only (new_events w1 w2) ∧
  logged (new_events w1 w2) = [].
Proof.
  intros Hsep HLS HLR Hrun1 Hrun2.
  destruct (sync_folders_same_digests _ _ _ set_iter_perm _ _ _ _ _ _
              Hsep HLS HLR Hrun1)
    as (s & r' & HS & HR & Hsame).
  destruct (wp_run _ _ _ _ _ Hrun2
              (main_loop_quiet rounds fuel2 S R interval L w1 s r' HS HR Hsame))
    as (E & X & _).
  apply extends_new_events in X as [X1 X2]. repeat split; try done.
  by apply read_only_not_logged.
Qed.

End MainLoop.

(** ** Without outside failures the steady state goes on *)

Lemma wp_bind_returns {A} (m : M A) (k : A -> M unit) w :
  wp m (fun o w1 =>
          match o with
          | Ok a => fs w1 = fs w ∧ wp (k a) (returns_unchanged w1) w1
          | _ => False
          end) w ->
  wp (bind m k) (returns_unchanged w) w.
Proof.
  intros H. apply wp_bind. eapply wp_mono; [|exact H].
  intros [a|e|] w1; try done. intros [E Hk]. eapply wp_mono; [|exact Hk].
  intros o w2 [-> E2]. split; [done|congruence].
Qed.

Lemma wp_for_each_returns {A} (l : list A) (body : A -> M unit) w :
  (∀ x w1, x ∈ l -> fs w1 = fs w -> wp (body x) (returns_unchanged w1) w1) ->
  wp (for_each l body) (returns_unchanged w) w.
Proof.
  intros Hb. apply (wp_for_each l body (fun _ w1 => fs w1 = fs w)); [done| |done].
  intros done x rest w1 -> E1. eapply wp_mono; [|apply Hb; [|done]].
  - intros o w2 [-> E2]. congruence.
  - apply elem_of_app. right. by left.
Qed.

Section SteadyReturns.
Variable set_iter : gset string -> list string.
Variable datetime_now : list event -> datetime.
Hypothesis set_iter_perm : ∀ X, set_iter X ≡ₚ elements X.

Lemma reconcile_item_returns self S R L i (es er : gmap string node) w :
  lookup_path S (fs w) = Some (Dir es) ->
  lookup_path R (fs w) = Some (Dir er) ->
  same_digests (Dir es) (Dir er) ->
  i ∈ dom es ->
  (∀ sub rsub w1, fs w1 = fs w ->
     es !! i = Some (Dir sub) -> er !! i = Some (Dir rsub) ->
     same_digests (Dir sub) (Dir rsub) ->
     wp (self (os_path_join S i) (os_path_join R i) L) (returns_unchanged w1) w1) ->
  wp (reconcile_item no_fault datetime_now self S R L i) (returns_unchanged w) w.
Proof.
  intros HS HR Hsame Hi Hself.
  apply elem_of_dom in Hi as [a Ha].
  destruct (tree_rel_dir_entry _ _ _ _ _ Hsame Ha) as (b & Hb & Hab).
  assert (Hsi := lookup_entry S i _ _ HS). assert (Hri := lookup_entry R i _ _ HR).
  rewrite Ha in Hsi. rewrite Hb in Hri.
  unfold reconcile_item. apply wp_bind_returns, wp_query. split; [done|].
  rewrite Hsi. inversion Hab as [d m d' m' Hmd5|sub sub' Hdom Hch]; subst; cbn [is_dir].
  - apply wp_bind_returns, wp_query. world_simpl. split; [done|].
    rewrite Hri, bool_decide_eq_true_2 by by eexists. simpl.
    apply wp_bind_returns, wp_bind, (wp_calculate_md5 no_fault). unfold no_fault at 1.
    world_simpl. rewrite Hsi.
    apply wp_bind, (wp_calculate_md5 no_fault). unfold no_fault at 1.
    world_simpl. rewrite Hri. apply wp_ret. split; [done|].
    rewrite Hmd5, String.eqb_refl. simpl. by apply wp_ret.
  - apply wp_bind_returns, wp_query. world_simpl. split; [done|].
    rewrite Hri, bool_decide_eq_true_2 by by eexists. simpl.
    by eapply Hself.
Qed.

Lemma sync_folders_returns fuel S R L w es er :
  lookup_path S (fs w) = Some (Dir es) ->
  lookup_path R (fs w) = Some (Dir er) ->
  same_digests (Dir es) (Dir er) ->
  (depth (Dir es) <= fuel)%nat ->
  wp (sync_folders set_iter no_fault datetime_now fuel S R L) (returns_unchanged w) w.
Proof.
  revert S R w es er; induction fuel as [|fuel IH]; intros S R w es er HS HR Hsame Hd.
  { cbn [depth] in Hd. lia. }
  cbn [sync_folders].
  apply wp_bind_returns, (wp_syscall no_fault). unfold no_fault at 1. rewrite HS.
  split; [done|].
  apply wp_bind_returns, (wp_syscall no_fault). unfold no_fault at 1. world_simpl.
  rewrite HR. split; [done|]. rewrite !list_to_set_elements_L.
  assert (Hdom : dom er = dom es) by by inversion Hsame.
  apply wp_bind_returns.
  eapply wp_mono; [|apply wp_for_each_returns].
  - intros o w3 [-> E3]. split; [done|].
    apply wp_for_each_returns. intros x w4 Hx E4.
    unfold prune_item. rewrite bool_decide_eq_false_2; [by apply wp_ret|].
    intros Hn. apply Hn. apply elem_of_set_iter in Hx; [|done]. by rewrite <- Hdom.
  - intros x w3 Hx E3. world_simpl.
    eapply (reconcile_item_returns _ S R L x es er); rewrite ?E3; try done.
    + by apply elem_of_set_iter in Hx.
    + intros sub rsub w1 E1 H1 H2 H3.
      apply (IH _ _ _ sub rsub); [| |done|].
      * by rewrite E1, (lookup_entry S x _ _ HS).
      * by rewrite E1, (lookup_entry R x _ _ HR).
      * apply depth_entry in H1. lia.
Qed.

(** X11.  Main.py, lines 31-67 and 86-89.  With the source, the replica and
    the log file apart, an interval that [time.sleep] accepts and no call
    that fails for an outside reason, a pass that has returned is followed by
    passes that return too: every further round of the loop runs to its
    end, and the file system stays as the first pass left it. *)
Theorem main_loop_keeps_running rounds fuel1 fuel2 S R interval L w w1 s :
  separate S R -> separate L S -> separate L R ->
  0 <= interval <= sleep_max ->
  sync_folders set_iter no_fault datetime_now fuel1 S R L w = (Ok tt, w1) ->
  lookup_path S (fs w) = Some s ->
  (depth s <= fuel2)%nat ->
  (main_loop set_iter no_fault datetime_now rounds fuel2 S R interval L w1).1 = Ok tt ∧
  fs (main_loop set_iter no_fault datetime_now rounds fuel2 S R interval L w1).2
  = fs w1.
Proof.
  intros Hsep HLS HLR Hint Hrun HS Hd.
  destruct (sync_folders_same_digests _ _ _ set_iter_perm _ _ _ _ _ _
              Hsep HLS HLR Hrun)
    as (s' & r & HS1 & HR1 & Hsame).
  assert (s' = s) as ->.
  { pose proof (sync_folders_source_unchanged _ _ _ _ _ _ _ _ _ _ Hsep HLS Hrun []) as E.
    rewrite app_nil_r in E. rewrite E in HS1. congruence. }
  assert (∃ es er, s = Dir es ∧ r = Dir er) as (es' & er' & -> & ->).
  { destruct (sync_folders_pass_ok _ _ _ set_iter_perm _ _ _ _ _ _ Hsep HLS HLR Hrun)
      as (es & er & ? & ? & Hes & _).
    rewrite HS in Hes. injection Hes as ->. inversion Hsame; subst. by eexists _, _. }
  clear Hrun HS. revert w1 HS1 HR1.
  induction rounds as [|rounds IH]; intros w1 HS1 HR1; [done|].
  pose proof (sync_folders_returns fuel2 S R L w1 es' er' HS1 HR1 Hsame Hd) as H.
  unfold wp, returns_unchanged in H. cbn [main_loop]. unfold bind.
  destruct (sync_folders set_iter no_fault datetime_now fuel2 S R L w1) as [o w2].
  simpl in H. destruct H as [-> E].
  unfold time_sleep, syscall, no_fault.
  rewrite (proj2 (Z.ltb_ge _ _) (proj1 Hint)), (proj2 (Z.ltb_ge _ _) (proj2 Hint)).
  cbv beta iota. fold no_fault.
  set (w3 := record (Sleep interval) None w2 (fs w2)).
  destruct (IH w3) as [I1 I2]; [by subst w3; world_simpl; rewrite E..|].
  split; [done|]. rewrite I2. subst w3. by world_simpl.
Qed.


End SteadyReturns.

(* ===================================================================== *)
(** * [calculate_md5]: the chunks read and the digest returned *)
(* ===================================================================== *)

Lemma read_chunks_concat fuel size data :
  (0 < size)%nat -> (length data <= fuel)%nat ->
  concat (read_chunks fuel size data) = data.
Proof.
  intros Hsize. revert data. induction fuel as [|fuel IH]; intros data Hlen.
  - destruct data; [done|simpl in Hlen; lia].
  - destruct data as [|b data]; [done|].
    cbn [read_chunks concat]. rewrite IH; [by rewrite take_drop|].
    rewrite length_drop. simpl in *. lia.
Qed.

Lemma read_chunks_sizes fuel size data :
  (0 < size)%nat ->
  Forall (fun c => (1 <= length c <= size)%nat) (read_chunks fuel size data).
Proof.
  intros Hsize. revert data. induction fuel as [|fuel IH]; intros data.
  - by apply Forall_nil.
  - destruct data as [|b data]; [by apply Forall_nil|].
    cbn [read_chunks]. apply Forall_cons. split; [|apply IH].
    rewrite length_take. simpl. lia.
Qed.

Lemma read_chunks_full fuel size data :
  (0 < size)%nat ->
  Forall (fun c => length c = size) (removelast (read_chunks fuel size data)).
Proof.
  intros Hsize. revert data. induction fuel as [|fuel IH]; intros data.
  - by apply Forall_nil.
  - destruct data as [|b data]; [by apply Forall_nil|].
    cbn [read_chunks]. specialize (IH (drop size (b :: data))).
    destruct fuel as [|fuel]; [by apply Forall_nil|].
    destruct (drop size (b :: data)) as [|b' rest] eqn:E.
    { cbn [read_chunks removelast]. by apply Forall_nil. }
    change (read_chunks (S fuel) size (b' :: rest))
      with (take size (b' :: rest) :: read_chunks fuel size (drop size (b' :: rest))) in *.
    cbn [removelast]. apply Forall_cons. split; [|exact IH].
    rewrite length_take. apply (f_equal length) in E. rewrite length_drop in E.
    simpl in *. lia.
Qed.

Lemma read_chunks_count fuel data :
  (length data <= fuel)%nat ->
  length (read_chunks fuel 4096 data) = ((length data + 4095) / 4096)%nat.
Proof.
  revert data. induction fuel as [|fuel IH]; intros data Hlen.
  - destruct data; [done|simpl in Hlen; lia].
  - destruct data as [|b data]; [done|].
    change (length (read_chunks (S fuel) 4096 (b :: data)))
      with (S (length (read_chunks fuel 4096 (drop 4096 (b :: data))))).
    assert (1 <= length (b :: data))%nat as Hpos by (cbn [length]; lia).
    rewrite IH by (rewrite length_drop; lia).
    rewrite length_drop. generalize dependent (length (b :: data)). intros n _ Hn.
    destruct (decide (n <= 4096)%nat) as [Hle|Hgt].
    + replace (n - 4096)%nat with 0%nat by lia.
      rewrite (Nat.div_small (0 + 4095) 4096) by lia.
      apply (Nat.div_unique (n + 4095) 4096 1 (n - 1)); lia.
    + assert (n + 4095 = (n - 4096 + 4095) + 1 * 4096)%nat as E by lia.
      rewrite E at 1. rewrite (Nat.div_add (n - 4096 + 4095) 1 4096) by lia. lia.
Qed.

(** X13.  Main.py, lines 9-18.  The loop of [calculate_md5] reads a file of [n]
    bytes in [ceil (n / 4096)] chunks, none of them empty, all but the last
    of 4096 bytes; put end to end they are the content of the file, and the
    digest returned is the MD5 digest of the whole content. *)
Theorem calculate_md5_reads_whole_file (data : list byte) :
  let chunks := read_chunks (length data) 4096 data in
  concat chunks = data ∧
  length chunks = ((length data + 4095) / 4096)%nat ∧
  Forall (fun c => (1 <= length c <= 4096)%nat) chunks ∧
  Forall (fun c => length c = 4096%nat) (removelast chunks) ∧
  md5_of data = MD5.hexdigest data.
Proof.
  cbv zeta. split; [by apply read_chunks_concat; lia|].
  split; [by apply read_chunks_count|].
  split; [by apply read_chunks_sizes; lia|].
  split; [by apply read_chunks_full; lia|].
  unfold md5_of. rewrite fold_update_read_chunks; [done|lia|done].
Qed.

(** ** The shape of the digest *)

Lemma string_length_app (s1 s2 : string) :
  String.length (s1 +:+ s2) = (String.length s1 + String.length s2)%nat.
Proof. induction s1 as [|a s1 IH]; [done|]. simpl. by rewrite IH. Qed.

Lemma list_ascii_app (s1 s2 : string) :
  String.list_ascii_of_string (s1 +:+ s2)
  = String.list_ascii_of_string s1 ++ String.list_ascii_of_string s2.
Proof. induction s1 as [|a s1 IH]; [done|]. simpl. by rewrite IH. Qed.

Lemma lower_hex_app s1 s2 : lower_hex s1 -> lower_hex s2 -> lower_hex (s1 +:+ s2).
Proof. unfold lower_hex. rewrite list_ascii_app. apply Forall_app_2. Qed.

Lemma hex_digit_spec n :
  0 <= n < 16 ->
  String.length (MD5.hex_digit n) = 1%nat ∧ lower_hex (MD5.hex_digit n).
Proof.
  intros Hn.
  assert (∃ k, (k < 16)%nat ∧ n = Z.of_nat k) as (k & Hk & ->).
  { exists (Z.to_nat n). split; lia. }
  unfold MD5.hex_digit. rewrite Nat2Z.id.
  do 16 (destruct k as [|k];
         [split; [reflexivity|unfold lower_hex; simpl;
                  apply Forall_cons; split; [|by apply Forall_nil];
                  repeat (first [by left | right])]|]).
  lia.
Qed.

Lemma hex_byte_spec b :
  0 <= b < 256 ->
  String.length (MD5.hex_byte b) = 2%nat ∧ lower_hex (MD5.hex_byte b).
Proof.
  intros Hb. unfold MD5.hex_byte.
  destruct (hex_digit_spec (b / 16)) as [L1 H1].
  { split; [apply Z.div_pos; lia|apply Z.div_lt_upper_bound; lia]. }
  destruct (hex_digit_spec (b mod 16)) as [L2 H2]; [by apply Z.mod_pos_bound|].
  rewrite string_length_app, L1, L2. split; [done|by apply lower_hex_app].
Qed.

Lemma hex_spec bs :
  Forall (fun b => 0 <= b < 256) bs ->
  String.length (MD5.hex bs) = (2 * length bs)%nat ∧ lower_hex (MD5.hex bs).
Proof.
  induction 1 as [|b bs Hb _ [IH1 IH2]].
  - split; [done|]. by apply Forall_nil.
  - destruct (hex_byte_spec b Hb) as [L H]. cbn [MD5.hex fold_right].
    change (fold_right (fun b s => MD5.hex_byte b +:+ s) "" bs) with (MD5.hex bs).
    rewrite string_length_app, L, IH1. split; [simpl; lia|by apply lower_hex_app].
Qed.

Lemma le_bytes_spec n x :
  length (MD5.le_bytes n x) = n ∧ Forall (fun b => 0 <= b < 256) (MD5.le_bytes n x).
Proof.
  revert x. induction n as [|n IH]; intros x.
  - split; [done|by apply Forall_nil].
  - destruct (IH (x / 256)) as [L F]. cbn [MD5.le_bytes]. split; [simpl; by rewrite L|].
    apply Forall_cons. split; [by apply Z.mod_pos_bound|done].
Qed.

Lemma digest_bytes_spec msg :
  length (MD5.digest_bytes msg) = 16%nat ∧
  Forall (fun b => 0 <= b < 256) (MD5.digest_bytes msg).
Proof.
  unfold MD5.digest_bytes.
  destruct (fold_left MD5.process_block _ MD5.init) as [[[a b] c] d].
  rewrite !length_app, !Forall_app.
  destruct (le_bytes_spec 4 a) as [-> ?], (le_bytes_spec 4 b) as [-> ?],
    (le_bytes_spec 4 c) as [-> ?], (le_bytes_spec 4 d) as [-> ?].
  done.
Qed.

(** X14.  Main.py, line 18 ([hexdigest]).  Whatever the content of the file, the
    digest that [calculate_md5] returns is a string of exactly 32
    lower-case hexadecimal digits. *)
Theorem md5_of_is_32_hex_digits (data : list byte) :
  String.length (md5_of data) = 32%nat ∧ lower_hex (md5_of data).
Proof.
  unfold md5_of, MD5.hexdigest.
  destruct (digest_bytes_spec
              (map MD5.byte_value
                 (fold_left MD5.update (read_chunks (length data) 4096 data) MD5.new)))
    as [L F].
  destruct (hex_spec _ F) as [L' H]. rewrite L' , L. done.
Qed.

(* ===================================================================== *)
(** * What warrants each write of a pass *)
(* ===================================================================== *)

#[export] Instance mirrors_preorder S R L n0 : PreOrder (mirrors S R L n0).
Proof.
  split.
  - intros w. split; [done|apply extends_refl].
  - intros w1 w2 w3 [A1 X1] [A2 X2]. split; [|by eapply extends_trans].
    intros q Hq Hl. by rewrite A2, A1.
Qed.

Section Kept.
Context (Rel : world -> world -> Prop) `{!PreOrder Rel}.

Lemma kept_trans {A} (w w1 : world) (P : A -> world -> Prop) o w' :
  Rel w w1 -> kept Rel w1 P o w' -> kept Rel w P o w'.
Proof. intros H1 [H2 HP]. split; [by etrans|done]. Qed.

Lemma wp_ret_kept {A} (a : A) (P : A -> world -> Prop) w :
  P a w -> wp (ret a) (kept Rel w P) w.
Proof. intros H. apply wp_ret. by split. Qed.

Lemma wp_out_of_fuel_kept {A} (P : A -> world -> Prop) w :
  wp out_of_fuel (kept Rel w P) w.
Proof. apply wp_out_of_fuel. by split. Qed.

Lemma wp_bind_kept {A B} (m : M A) (k : A -> M B) (P : B -> world -> Prop) w :
  wp m (kept Rel w (fun a w1 => wp (k a) (kept Rel w1 P) w1)) w ->
  wp (bind m k) (kept Rel w P) w.
Proof.
  intros H. apply wp_bind. eapply wp_mono; [|exact H].
  intros [a|e|] w1 [H1 H2]; [|by split..].
  eapply wp_mono; [|exact H2]. intros o w2. by apply kept_trans.
Qed.

Lemma wp_for_each_kept {A} (l : list A) (body : A -> M unit) w :
  (∀ x w1, x ∈ l -> Rel w w1 -> wp (body x) (kept Rel w1 (fun _ _ => True)) w1) ->
  wp (for_each l body) (kept Rel w (fun _ _ => True)) w.
Proof.
  intros Hb. apply (wp_for_each l body (fun _ w1 => Rel w w1)); [done| |by split].
  intros done x rest w1 -> H1. eapply wp_mono; [|apply Hb; [|done]].
  - intros o w2 [H2 _]. assert (Rel w w2) by by etrans.
    destruct o as [[]|e|]; by try split.
  - apply elem_of_app. right. by left.
Qed.

End Kept.

Section Mirrors.
Variable set_iter : gset string -> list string.
Variable fault : call -> node -> option exn.
Variable datetime_now : list event -> datetime.
Hypothesis set_iter_perm : ∀ X, set_iter X ≡ₚ elements X.
Variables (S0 R0 L0 : path) (n0 : node).
Hypothesis Hsep : separate S0 R0.
Hypothesis HLS : separate L0 S0.

Lemma agree_source w q : agrees R0 L0 n0 w -> lookup_path (S0 ++ q) (fs w) = lookup_path (S0 ++ q) n0.
Proof.
  intros H. apply H; [by apply separate_below_r, separate_sym|].
  by apply separate_below_r.
Qed.

Lemma agree_step w w1 : agrees R0 L0 n0 w -> (mirrors S0 R0 L0 n0) w w1 -> agrees R0 L0 n0 w1.
Proof. intros H [A _] q Hq Hl. by rewrite A, H. Qed.

Lemma mirrors_read c e w :
  write_target c = None -> (mirrors S0 R0 L0 n0) w (record c e w (fs w)).
Proof.
  intros Hc. split; [done|]. apply extends_record.
  unfold warranted. by destruct c.
Qed.

Lemma mirrors_write c w a n' :
  warranted S0 R0 n0 (Event c None) ->
  set_path (R0 ++ a) (lookup_path (R0 ++ a) n') (fs w) = Some n' ->
  (mirrors S0 R0 L0 n0) w (record c None w n').
Proof.
  intros Hw Hset. split; [|by apply extends_record].
  intros q Hq _. world_simpl. eapply set_path_separate; [exact Hset|].
  by apply separate_below_l.
Qed.

Lemma mirrors_failed c e w :
  warranted S0 R0 n0 (Event c None) -> (mirrors S0 R0 L0 n0) w (record c (Some e) w (fs w)).
Proof. intros Hw. split; [done|]. by apply extends_record. Qed.

Lemma wp_read_kept {A} (c : call) (sem : node -> exn + A * node)
    (P : A -> world -> Prop) w :
  write_target c = None ->
  (∀ a n', sem (fs w) = inr (a, n') -> n' = fs w ∧ P a (record c None w (fs w))) ->
  wp (syscall fault c sem) (kept (mirrors S0 R0 L0 n0) w P) w.
Proof.
  intros Hc H. apply wp_syscall.
  assert (He : ∀ e, kept (mirrors S0 R0 L0 n0) w P (Raised e) (record c (Some e) w (fs w))).
  { intros e. split; [by apply mirrors_read|done]. }
  destruct (fault c (fs w)); [apply He|].
  destruct (sem (fs w)) as [e|[a n']]; [apply He|].
  destruct (H a n' eq_refl) as [-> HP]. split; [by apply mirrors_read|done].
Qed.

Lemma wp_query_kept {A} (c : call) (f : node -> A) (P : A -> world -> Prop) w :
  write_target c = None ->
  P (f (fs w)) (record c None w (fs w)) ->
  wp (query c f) (kept (mirrors S0 R0 L0 n0) w P) w.
Proof. intros Hc H. apply wp_query. split; [by apply mirrors_read|done]. Qed.

Lemma wp_os_listdir_kept p (P : list string -> world -> Prop) w :
  (∀ es, lookup_path p (fs w) = Some (Dir es) ->
     P (elements (dom es)) (record (Listdir p) None w (fs w))) ->
  wp (os_listdir fault p) (kept (mirrors S0 R0 L0 n0) w P) w.
Proof.
  intros H. apply wp_read_kept; [done|]. intros a n' Hs.
  destruct (lookup_path p (fs w)) as [[|es]|]; simplify_eq. split; [done|]. by apply H.
Qed.

Lemma wp_calculate_md5_kept p (P : string -> world -> Prop) w :
  (∀ w1, fs w1 = fs w -> ∀ h, P h w1) ->
  wp (calculate_md5 fault p) (kept (mirrors S0 R0 L0 n0) w P) w.
Proof.
  intros H. apply wp_bind_kept; [apply _|]. apply wp_read_kept; [done|]. intros a n' Hs.
  destruct (lookup_path p (fs w)) as [[d m|]|]; simplify_eq. split; [done|].
  apply wp_ret_kept; [apply _|]. by apply H.
Qed.

Lemma wp_log_operation_kept op w :
  wp (log_operation fault datetime_now op L0)
     (kept (mirrors S0 R0 L0 n0) w (fun _ _ => True)) w.
Proof.
  apply wp_log_operation.
  - intros e. split; [by apply mirrors_read|done].
  - intros d m n' _ Hs. split; [|done]. split; [|by apply extends_record].
    intros q _ Hl. world_simpl. by eapply set_path_separate.
Qed.

(** A write followed by its record. *)
Lemma wp_write_kept (c : call) (sem : node -> exn + unit * node) op w :
  warranted S0 R0 n0 (Event c None) ->
  (∀ n', sem (fs w) = inr (tt, n') ->
     ∃ a, set_path (R0 ++ a) (lookup_path (R0 ++ a) n') (fs w) = Some n') ->
  wp (syscall fault c sem ;; log_operation fault datetime_now op L0)
     (kept (mirrors S0 R0 L0 n0) w (fun _ _ => True)) w.
Proof.
  intros Hw H. apply wp_bind_kept; [apply _|]. apply wp_syscall.
  assert (He : ∀ e (B : unit -> world -> Prop),
            kept (mirrors S0 R0 L0 n0) w B (Raised e) (record c (Some e) w (fs w))).
  { intros e B. split; [by apply mirrors_failed|done]. }
  destruct (fault c (fs w)); [apply He|].
  destruct (sem (fs w)) as [e|[[] n']] eqn:Es; [apply He|].
  destruct (H n' eq_refl) as [a Ha].
  split; [by eapply mirrors_write|]. apply wp_log_operation_kept.
Qed.

Lemma set_path_self p v n n' :
  set_path p v n = Some n' -> set_path p (lookup_path p n') n = Some n'.
Proof. intros H. by rewrite (lookup_set_path _ _ _ _ H). Qed.

Lemma reconcile_item_mirrors self q0 i (es : gmap string node) w :
  agrees R0 L0 n0 w ->
  lookup_path (S0 ++ q0) n0 = Some (Dir es) ->
  i ∈ dom es ->
  (∀ w1, agrees R0 L0 n0 w1 ->
     wp (self (S0 ++ (q0 ++ [i])) (R0 ++ (q0 ++ [i])) L0)
        (kept (mirrors S0 R0 L0 n0) w1 (fun _ _ => True)) w1) ->
  wp (reconcile_item fault datetime_now self (S0 ++ q0) (R0 ++ q0) L0 i)
     (kept (mirrors S0 R0 L0 n0) w (fun _ _ => True)) w.
Proof.
  intros Hag HS Hi Hself.
  apply elem_of_dom in Hi as [s Hs].
  assert (Hsi : lookup_path (S0 ++ (q0 ++ [i])) n0 = Some s).
  { rewrite app_assoc. by rewrite <- Hs, <- (lookup_entry (S0 ++ q0) i n0 es). }
  unfold reconcile_item, os_path_join. rewrite <- !(app_assoc _ q0 [i]).
  apply wp_bind_kept; [apply _|]. apply wp_query_kept; [done|].
  rewrite (agree_source w _ Hag), Hsi.
  assert (Hne : q0 ++ [i] ≠ []) by by destruct q0.
  destruct s as [d m|sub]; cbn [is_dir].
  - apply wp_bind_kept; [apply _|]. apply wp_query_kept; [done|].
    apply wp_bind_kept; [apply _|].
    assert (Hcopy : ∀ w1, fs w1 = fs w ->
      wp (shutil_copy2 fault (S0 ++ (q0 ++ [i])) (R0 ++ (q0 ++ [i])) ;;
          log_operation fault datetime_now (FileCopied (R0 ++ (q0 ++ [i]))) L0)
         (kept (mirrors S0 R0 L0 n0) w1 (fun _ _ => True)) w1).
    { intros w1 E1. apply wp_write_kept.
      - exists (q0 ++ [i]). by rewrite Hsi.
      - intros n' Hn'. rewrite E1, (agree_source w _ Hag), Hsi in Hn'.
        cbv zeta in Hn'. repeat case_match; simplify_eq.
        + exists ((q0 ++ [i]) ++ [basename (S0 ++ (q0 ++ [i]))]).
          unfold os_path_join in *. rewrite app_assoc, E1. by eapply set_path_self.
        + exists (q0 ++ [i]). rewrite E1. by eapply set_path_self. }
    assert (Hdec : ∀ (b : bool) w1, fs w1 = fs w ->
      wp (if b then
            shutil_copy2 fault (S0 ++ (q0 ++ [i])) (R0 ++ (q0 ++ [i])) ;;
            log_operation fault datetime_now (FileCopied (R0 ++ (q0 ++ [i]))) L0
          else ret tt) (kept (mirrors S0 R0 L0 n0) w1 (fun _ _ => True)) w1).
    { intros [] w1 E1; [by apply Hcopy|by apply wp_ret_kept; [apply _|]]. }
    world_simpl.
    destruct (negb (bool_decide (is_Some (lookup_path (R0 ++ (q0 ++ [i])) (fs w))))).
    + apply wp_ret_kept; [apply _|]. by apply Hcopy.
    + apply wp_bind_kept; [apply _|]. apply wp_calculate_md5_kept. intros w1 E1 h1.
      apply wp_bind_kept; [apply _|]. apply wp_calculate_md5_kept. intros w2 E2 h2.
      apply wp_ret_kept; [apply _|]. apply Hdec. by rewrite E2, E1.
  - apply wp_bind_kept; [apply _|]. apply wp_query_kept; [done|]. world_simpl.
    destruct (negb (bool_decide (is_Some (lookup_path (R0 ++ (q0 ++ [i])) (fs w))))).
    + apply wp_write_kept.
      * exists (q0 ++ [i]). by rewrite Hsi.
      * intros n' Hn'. world_simpl. exists (q0 ++ [i]).
        repeat case_match; simplify_eq. by eapply set_path_self.
    + apply Hself. intros q Hq Hl. world_simpl. by apply Hag.
Qed.

Lemma prune_item_mirrors q0 i (es : gmap string node) w :
  lookup_path (S0 ++ q0) n0 = Some (Dir es) ->
  wp (prune_item fault datetime_now (dom es) (S0 ++ q0) (R0 ++ q0) L0 i)
     (kept (mirrors S0 R0 L0 n0) w (fun _ _ => True)) w.
Proof.
  intros HS. unfold prune_item, os_path_join.
  case_bool_decide as Hi; [|by apply wp_ret_kept; [apply _|]].
  assert (Hw : ∃ q i', R0 ++ q0 ++ [i] = R0 ++ q ++ [i'] ∧
                 is_dir (lookup_path (S0 ++ q) n0) = true ∧
                 lookup_path (S0 ++ q ++ [i']) n0 = None).
  { exists q0, i. split; [done|]. rewrite HS. split; [done|].
    rewrite app_assoc. change (lookup_path (os_path_join (S0 ++ q0) i) n0 = None).
    rewrite (lookup_entry (S0 ++ q0) i n0 es HS). by apply not_elem_of_dom. }
  rewrite <- !(app_assoc _ q0 [i]).
  apply wp_bind_kept; [apply _|]. apply wp_query_kept; [done|]. world_simpl.
  destruct (is_dir (lookup_path (R0 ++ q0 ++ [i]) (fs w))).
  - apply wp_write_kept; [exact Hw|].
    intros n' Hn'. world_simpl. exists (q0 ++ [i]).
    repeat case_match; simplify_eq. by eapply set_path_self.
  - apply wp_write_kept; [exact Hw|].
    intros n' Hn'. world_simpl. exists (q0 ++ [i]).
    repeat case_match; simplify_eq. by eapply set_path_self.
Qed.

Lemma sync_folders_mirrors fuel q0 w :
  agrees R0 L0 n0 w ->
  wp (sync_folders set_iter fault datetime_now fuel (S0 ++ q0) (R0 ++ q0) L0)
     (kept (mirrors S0 R0 L0 n0) w (fun _ _ => True)) w.
Proof.
  revert q0 w; induction fuel as [|fuel IH]; intros q0 w Hag.
  { by apply wp_out_of_fuel_kept; apply _. }
  cbn [sync_folders].
  apply wp_bind_kept; [apply _|]. apply wp_os_listdir_kept. intros es HS.
  rewrite (agree_source w _ Hag) in HS.
  apply wp_bind_kept; [apply _|]. apply wp_os_listdir_kept. world_simpl. intros er HR.
  rewrite !list_to_set_elements_L.
  apply wp_bind_kept; [apply _|].
  eapply wp_mono; [|apply (wp_for_each_kept (mirrors S0 R0 L0 n0))].
  - intros o w3 [H3 _]. split; [done|]. destruct o as [[]|e|]; try done.
    apply wp_for_each_kept; [apply _|]. intros x w4 Hx H4.
    by eapply prune_item_mirrors.
  - intros x w3 Hx H3.
    assert (Hag3 : agrees R0 L0 n0 w3).
    { eapply agree_step; [|exact H3]. intros q Hq. world_simpl. by apply Hag. }
    eapply reconcile_item_mirrors; [done|exact HS|by apply elem_of_set_iter in Hx|].
    intros w1 Hag1. by apply IH.
Qed.

End Mirrors.

(** X8.  Main.py, lines 41-67.  With the source apart from the replica and
    from the log file, the source as it is when the pass starts warrants
    every copy and every removal that the pass attempts, at any depth and
    whatever the outcome: a copy goes from a path of the source to the same
    relative path of the replica, [copytree] of a directory of the source
    and [copy2] of a file of the source; a removal is of a name that the
    directory of the source at the same relative path does not have. *)
Theorem writes_are_warranted_by_the_source set_iter fault datetime_now
    fuel S R L w o w' :
  (∀ X, set_iter X ≡ₚ elements X) ->
  separate S R -> separate L S ->
  sync_folders set_iter fault datetime_now fuel S R L w = (o, w') ->
  ∃ t, trace w' = trace w ++ t ∧ Forall (warranted S R (fs w)) t.
Proof.
  intros Hperm Hsep HLS Hrun.
  pose proof (sync_folders_mirrors set_iter fault datetime_now Hperm S R L (fs w)
                Hsep HLS fuel [] w (fun _ _ _ => eq_refl)) as H.
  rewrite !app_nil_r in H.
  by destruct (wp_run _ _ _ _ _ Hrun H) as [[_ X] _].
Qed.

(* ===================================================================== *)
(** * The messages of the log *)
(* ===================================================================== *)

Lemma render_path_cons x p : render_path (x :: p) = String "/" (x +:+ render_path p).
Proof. done. Qed.

Lemma render_path_head p : render_path p = "" ∨ ∃ t, render_path p = String "/" t.
Proof. destruct p as [|x p]; [by left|right]. rewrite render_path_cons. by eexists. Qed.

Lemma slash_free_cons a x : slash_free (String a x) -> a ≠ "/"%char ∧ slash_free x.
Proof.
  unfold slash_free. simpl. intros H. split.
  - intros ->. apply H. by left.
  - intros Hx. apply H. by right.
Qed.

Lemma name_then_rest x y r r' :
  slash_free x -> slash_free y ->
  (r = "" ∨ ∃ t, r = String "/" t) ->
  (r' = "" ∨ ∃ t, r' = String "/" t) ->
  x +:+ r = y +:+ r' -> x = y ∧ r = r'.
Proof.
  revert y. induction x as [|a x IH]; intros y Hx Hy Hr Hr' E.
  - destruct y as [|c y]; [done|]. simpl in E.
    apply slash_free_cons in Hy as [Hc _].
    destruct Hr as [->|[t ->]]; [done|]. by simplify_eq.
  - destruct y as [|c y]; simpl in E.
    + apply slash_free_cons in Hx as [Ha _].
      destruct Hr' as [->|[t ->]]; [done|]. by simplify_eq.
    + apply slash_free_cons in Hx as [_ Hx]. apply slash_free_cons in Hy as [_ Hy].
      simplify_eq. destruct (IH y Hx Hy Hr Hr') as [-> ->]; done.
Qed.

Lemma render_path_inj p q :
  Forall slash_free p -> Forall slash_free q ->
  render_path p = render_path q -> p = q.
Proof.
  intros Hp. revert q. induction Hp as [|x p Hx _ IH]; intros q Hq E.
  - by destruct q.
  - destruct Hq as [|y q Hy Hq]; [done|]. rewrite !render_path_cons in E.
    simplify_eq.
    destruct (name_then_rest x y (render_path p) (render_path q)) as [-> E'];
      [done|done|apply render_path_head..|done|].
    f_equal. by apply IH.
Qed.

(** X15.  Main.py, lines 48, 54, 64 and 67.  The four messages that [sync_folders]
    logs cannot be confused: when the components of the paths are file
    names, a message tells which of the four operations was done and on
    which path. *)
Theorem message_tells_the_operation (op1 op2 : operation) :
  Forall slash_free (op_path op1) ->
  Forall slash_free (op_path op2) ->
  message op1 = message op2 ->
  op1 = op2.
Proof.
  intros H1 H2 E.
  destruct op1 as [p|p|p|p], op2 as [q|q|q|q]; simpl in *; simplify_eq;
    f_equal; by apply render_path_inj.
Qed.

(* ===================================================================== *)
(** * Where the files of the replica come from *)
(* ===================================================================== *)

Lemma lookup_path_file q d m n :
  lookup_path q (File d m) = Some n -> q = [] ∧ n = File d m.
Proof. destruct q; simpl; intros H; by simplify_eq. Qed.

Lemma synced_file_origin s r r' q d m :
  synced s r r' ->
  lookup_path q r' = Some (File d m) ->
  lookup_path q s = Some (File d m) ∨
  (r ≫= lookup_path q = Some (File d m) ∧
   ∃ ds ms, lookup_path q s = Some (File ds ms) ∧ md5_of ds = md5_of d).
Proof.
  intros H. revert q.
  induction H as [s|d0 m0 d' m' Hne|d0 m0 d' m' Heq|es er er' Hdom Hch]
    using synced_strong_ind; intros q Hq.
  - by left.
  - by left.
  - apply lookup_path_file in Hq as [-> Hq]. simplify_eq. right.
    split; [done|]. by exists d0, m0.
  - destruct q as [|i q]; [done|]. simpl in Hq.
    destruct (er' !! i) as [ri|] eqn:Hri; [|done].
    assert (is_Some (es !! i)) as [si Hsi].
    { apply elem_of_dom. rewrite <- Hdom. apply elem_of_dom. by eexists. }
    destruct (Hch i si Hsi) as (r'' & Hr'' & _ & IH). simplify_eq.
    simpl. rewrite Hsi. destruct (IH q Hq) as [Hl|[Hr Hs]]; [by left|right].
    split; [|done]. by destruct (er !! i).
Qed.

Lemma same_digests_lookup a b q :
  same_digests a b -> same_at (lookup_path q a) (lookup_path q b).
Proof.
  revert a b. induction q as [|i q IH]; intros a b H.
  - by destruct H.
  - destruct H as [d m d' m' Hd|es es' Hdom Hch]; [done|]. simpl.
    destruct (es !! i) as [x|] eqn:Hx, (es' !! i) as [y|] eqn:Hy.
    + apply IH. by eapply Hch.
    + apply not_elem_of_dom in Hy. rewrite Hdom in Hy. by apply not_elem_of_dom in Hy; simplify_eq.
    + apply not_elem_of_dom in Hx. rewrite <- Hdom in Hx. by apply not_elem_of_dom in Hx; simplify_eq.
    + done.
Qed.

Section Origin.
Variable set_iter : gset string -> list string.
Variable fault : call -> node -> option exn.
Variable datetime_now : list event -> datetime.
Hypothesis set_iter_perm : ∀ X, set_iter X ≡ₚ elements X.

(** X2.  Main.py, lines 41-54.  A pass invents nothing: with the source,
    the replica and the log file apart, after a pass that has returned
    every file of the replica, at any depth, is either the file that the
    source has at the same relative path, bytes and time stamp, or the
    file that the replica already had there, bytes and time stamp
    unchanged, and then the source has a file with the same digest at that
    path. *)
Theorem replica_files_copied_or_kept fuel S R L w w' q d m :
  separate S R -> separate L S -> separate L R ->
  sync_folders set_iter fault datetime_now fuel S R L w = (Ok tt, w') ->
  lookup_path (R ++ q) (fs w') = Some (File d m) ->
  lookup_path (S ++ q) (fs w) = Some (File d m) ∨
  (lookup_path (R ++ q) (fs w) = Some (File d m) ∧
   ∃ ds ms, lookup_path (S ++ q) (fs w) = Some (File ds ms) ∧
            md5_of ds = md5_of d).
Proof.
  intros Hsep HLS HLR Hrun Hq.
  destruct (sync_folders_pass_ok _ _ _ set_iter_perm _ _ _ _ _ _ Hsep HLS HLR Hrun)
    as (es & er & r' & t & HS & HR & HR' & Hsy & _).
  rewrite lookup_path_app, HR' in Hq. simpl in Hq.
  rewrite !lookup_path_app, HS, HR. simpl.
  destruct (synced_file_origin _ _ _ _ _ _ Hsy Hq) as [Hl|[Hr Hs]]; [by left|by right].
Qed.

(** X1.  Main.py, lines 31-67.  With the source, the replica and the log
    file apart, after a pass that has returned the replica agrees with the
    source at every relative path, MD5 collisions or not: the path is
    absent from both, a directory in both, or a file in both with one MD5
    digest. *)
Theorem replica_matches_source_at_every_path fuel S R L w w' q :
  separate S R -> separate L S -> separate L R ->
  sync_folders set_iter fault datetime_now fuel S R L w = (Ok tt, w') ->
  same_at (lookup_path (S ++ q) (fs w)) (lookup_path (R ++ q) (fs w')).
Proof.
  intros Hsep HLS HLR Hrun.
  destruct (sync_folders_same_digests _ _ _ set_iter_perm _ _ _ _ _ _
              Hsep HLS HLR Hrun)
    as (s & r' & HS & HR & Hsame).
  rewrite <- (sync_folders_source_unchanged _ _ _ _ _ _ _ _ _ _ Hsep HLS Hrun).
  rewrite !lookup_path_app, HS, HR. simpl. by apply same_digests_lookup.
Qed.

End Origin.

(* ===================================================================== *)
(** * The contents of the log file *)
(* ===================================================================== *)

Section LogFile.
Variable set_iter : gset string -> list string.
Variable fault : call -> node -> option exn.
Variable datetime_now : list event -> datetime.
Variable L : path.

Lemma log_lines_app h t1 t2 :
  log_lines datetime_now h (t1 ++ t2)
  = log_lines datetime_now h t1 ++ log_lines datetime_now (h ++ t1) t2.
Proof.
  revert h; induction t1 as [|ev t1 IH]; intros h; simpl.
  - by rewrite app_nil_r.
  - by rewrite IH, <- !app_assoc.
Qed.

#[local] Instance logs_to_preorder : PreOrder (logs_to datetime_now L).
Proof.
  split.
  - intros w. exists []. by rewrite !app_nil_r.
  - intros w1 w2 w3 (t1 & E1 & D1) (t2 & E2 & D2). exists (t1 ++ t2). split.
    + by rewrite E2, E1, app_assoc.
    + by rewrite D2, D1, E1, log_lines_app, app_assoc.
Qed.
















End LogFile.

(* ===================================================================== *)
(** * The further properties on concrete runs *)
(* ===================================================================== *)

Lemma example_run_reversed_ok :
  sync_folders reverse_elements no_fault still_clock 3 ["source"] ["replica"] ["sync.log"]
    example_world
  = (Ok tt, (sync_folders reverse_elements no_fault still_clock 3
               ["source"] ["replica"] ["sync.log"] example_world).2).
Proof. apply pair_eta. vm_compute. reflexivity. Defined.

Lemma empty_source_run_ok :
  sync_folders elements no_fault still_clock 1 ["source"] ["replica"] ["sync.log"]
    empty_source_world
  = (Ok tt, (sync_folders elements no_fault still_clock 1
               ["source"] ["replica"] ["sync.log"] empty_source_world).2).
Proof. apply pair_eta. vm_compute. reflexivity. Defined.

Lemma separate_log_replica_root : separate ["sync.log"] ["replica"].
Proof. exact separate_log_replica. Defined.

Lemma result_independent_of_set_order_witness :
  lookup_path ["replica"] (fs (run ["sync.log"] example_world).2)
  = lookup_path ["replica"]
      (fs (sync_folders reverse_elements no_fault still_clock 3
             ["source"] ["replica"] ["sync.log"] example_world).2).
Proof.
  exact (result_independent_of_set_order elements reverse_elements no_fault no_fault
           still_clock still_clock
           elements_order_ok reverse_elements_ok 3 3 ["source"] ["replica"] ["sync.log"]
           example_world _ _
           separate_source_replica separate_log_source separate_log_replica
           example_run_ok example_run_reversed_ok
           ["replica"] separate_log_replica_root).
Defined.

Lemma missing_entries_copied_exactly_witness :
  (∀ i s, example_source_entries !! i = Some s ->
     example_replica_entries !! i = None ->
     lookup_path (os_path_join ["replica"] i) (fs (run ["sync.log"] example_world).2)
     = Some s) ∧
  (example_replica_entries = ∅ ->
   lookup_path ["replica"] (fs (run ["sync.log"] example_world).2)
   = Some (Dir example_source_entries)).
Proof.
  exact (missing_entries_copied_exactly elements no_fault still_clock elements_order_ok 3
           ["source"] ["replica"] ["sync.log"] example_world _ _ _
           separate_source_replica separate_log_source separate_log_replica
           example_source example_replica example_run_ok).
Defined.

Lemma empty_source_empties_replica_witness :
  lookup_path ["replica"]
    (fs (sync_folders elements no_fault still_clock 1 ["source"] ["replica"] ["sync.log"]
           empty_source_world).2)
  = Some (Dir ∅).
Proof.
  exact (empty_source_empties_replica elements no_fault still_clock elements_order_ok 1
           ["source"] ["replica"] ["sync.log"] empty_source_world _
           separate_source_replica separate_log_source separate_log_replica
           eq_refl empty_source_run_ok).
Defined.


Lemma main_loop_steady_state_witness :
  let w1 := (run ["sync.log"] example_world).2 in
  let w2 := (main_loop elements no_fault still_clock 2 3
               ["source"] ["replica"] 60 ["sync.log"] w1).2 in
  fs w2 = fs w1 ∧
  trace w2 = trace w1 ++ new_events w1 w2 ∧
  Forall read_only (new_events w1 w2) ∧
  logged (new_events w1 w2) = [].
Proof.
  exact (main_loop_steady_state elements no_fault still_clock elements_order_ok 2 3 3
           ["source"] ["replica"] 60 ["sync.log"] example_world _ _ _
           separate_source_replica separate_log_source separate_log_replica
           example_run_ok (surjective_pairing _)).
Defined.

Lemma example_depth : (depth (Dir example_source_entries) <= 3)%nat.
Proof. vm_compute. lia. Defined.

Lemma sixty_seconds : 0 <= 60 <= sleep_max.
Proof. vm_compute. split; discriminate. Defined.

Lemma main_loop_keeps_running_witness :
  let w1 := (run ["sync.log"] example_world).2 in
  (main_loop elements no_fault still_clock 2 3
     ["source"] ["replica"] 60 ["sync.log"] w1).1 = Ok tt ∧
  fs (main_loop elements no_fault still_clock 2 3
        ["source"] ["replica"] 60 ["sync.log"] w1).2 = fs w1.
Proof.
  exact (main_loop_keeps_running elements still_clock elements_order_ok 2 3 3
           ["source"] ["replica"] 60 ["sync.log"] example_world _ _
           separate_source_replica separate_log_source separate_log_replica
           sixty_seconds example_run_ok example_source example_depth).
Defined.



Lemma writes_are_warranted_by_the_source_witness :
  ∃ t, trace (run ["sync.log"] example_world).2 = trace example_world ++ t ∧
       Forall (warranted ["source"] ["replica"] (fs example_world)) t.
Proof.
  exact (writes_are_warranted_by_the_source elements no_fault still_clock 3
           ["source"] ["replica"] ["sync.log"] example_world _ _
           elements_order_ok separate_source_replica separate_log_source
           example_run_ok).
Defined.

Lemma file_names_slash_free : Forall slash_free ["replica"; "sub"; "b.txt"].
Proof.
  repeat (apply Forall_cons_2; [by apply (bool_decide_unpack _)|]).
  apply Forall_nil_2.
Defined.

Lemma message_tells_the_operation_witness :
  FileCopied ["replica"; "sub"; "b.txt"] = FileCopied ["replica"; "sub"; "b.txt"].
Proof.
  exact (message_tells_the_operation
           (FileCopied ["replica"; "sub"; "b.txt"])
           (FileCopied ["replica"; "sub"; "b.txt"])
           file_names_slash_free file_names_slash_free eq_refl).
Defined.

Lemma example_replica_file :
  lookup_path (["replica"] ++ ["a.txt"]) (fs (run ["sync.log"] example_world).2)
  = Some (File (bytes "hello") 5).
Proof. vm_compute. reflexivity. Defined.

Lemma replica_files_copied_or_kept_witness :
  lookup_path (["source"] ++ ["a.txt"]) (fs example_world)
  = Some (File (bytes "hello") 5) ∨
  (lookup_path (["replica"] ++ ["a.txt"]) (fs example_world)
   = Some (File (bytes "hello") 5) ∧
   ∃ ds ms, lookup_path (["source"] ++ ["a.txt"]) (fs example_world)
            = Some (File ds ms) ∧
            md5_of ds = md5_of (bytes "hello")).
Proof.
  exact (replica_files_copied_or_kept elements no_fault still_clock elements_order_ok 3
           ["source"] ["replica"] ["sync.log"] example_world _ ["a.txt"] (bytes "hello") 5
           separate_source_replica separate_log_source separate_log_replica
           example_run_ok example_replica_file).
Defined.

Lemma replica_matches_source_at_every_path_witness :
  same_at
    (lookup_path (["source"] ++ ["sub"; "b.txt"]) (fs example_world))
    (lookup_path (["replica"] ++ ["sub"; "b.txt"]) (fs (run ["sync.log"] example_world).2)).
Proof.
  exact (replica_matches_source_at_every_path elements no_fault still_clock
           elements_order_ok 3
           ["source"] ["replica"] ["sync.log"] example_world _ ["sub"; "b.txt"]
           separate_source_replica separate_log_source separate_log_replica
           example_run_ok).
Defined.


(** The log file of the example after the pass. *)
Lemma example_log_file :
  lookup_path ["sync.log"] (fs (run ["sync.log"] example_world).2)
  = Some (File (bytes ("[2023-11-14 22:13:20] Directory created: /replica/sub" +:+ newline
                       +:+ "[2023-11-14 22:13:20] File removed: /replica/c.txt" +:+ newline))
               1700000000).
Proof. vm_compute. reflexivity. Qed.

(* ===================================================================== *)
(** * The claims on concrete runs *)
(* ===================================================================== *)

Lemma sync_folders_converges_witness :
  lookup_path ["source"] (fs (run ["sync.log"] example_world).2)
  = Some (Dir example_source_entries) ∧
  ∃ r', lookup_path ["replica"] (fs (run ["sync.log"] example_world).2) = Some r' ∧
        mirror (Dir example_source_entries) r'.
Proof.
  exact (sync_folders_converges elements no_fault still_clock elements_order_ok 3
           ["source"] ["replica"] ["sync.log"] example_world _ _ _
           separate_source_replica separate_log_source separate_log_replica
           example_source example_replica example_no_collision example_run_ok).
Defined.

Lemma tree_rel_file_inv F d m d' m' : tree_rel F (File d m) (File d' m') -> F d d'.
Proof. by inversion 1. Qed.

(** C1 as stated fails.  First, the two trees have a file [f.bin] each, of
    the same kind, with different bytes and the same MD5 digest; the pass
    returns and the replica still holds its own bytes.  Second, with the
    log file in the replica the pass of the example returns and leaves in
    the replica a file [sync.log] that the source does not have. *)
Lemma convergence_fails_on_collision_or_log_in_replica :
  (separate ["source"] ["replica"] ∧
   (run ["sync.log"] collision_world).1 = Ok tt ∧
   ∃ s r',
     lookup_path ["source"] (fs (run ["sync.log"] collision_world).2) = Some s ∧
     lookup_path ["replica"] (fs (run ["sync.log"] collision_world).2) = Some r' ∧
     ¬ mirror s r') ∧
  ((run ["replica"; "sync.log"] example_world).1 = Ok tt ∧
   lookup_path ["source"; "sync.log"]
     (fs (run ["replica"; "sync.log"] example_world).2) = None ∧
   is_file (lookup_path ["replica"; "sync.log"]
              (fs (run ["replica"; "sync.log"] example_world).2)) = true).
Proof.
  split; [|vm_compute; by repeat split].
  split; [exact separate_source_replica|]. split; [vm_compute; reflexivity|].
  exists (dir [("f.bin", File collision_a 10)]), (dir [("f.bin", File collision_b 20)]).
  split; [vm_compute; reflexivity|]. split; [vm_compute; reflexivity|].
  intros H.
  destruct (tree_rel_dir_entry _ _ _ "f.bin" _ H eq_refl) as (b & Hb & Hab).
  change (Some (File collision_b 20) = Some b) in Hb. injection Hb as <-.
  apply tree_rel_file_inv in Hab. exact (proj1 md5_collision Hab).
Qed.

Lemma second_pass_does_nothing_witness :
  let w1 := (run ["sync.log"] example_world).2 in
  let w2 := (run ["sync.log"] w1).2 in
  fs w2 = fs w1 ∧
  trace w2 = trace w1 ++ new_events w1 w2 ∧
  Forall read_only (new_events w1 w2) ∧
  logged (new_events w1 w2) = [].
Proof.
  exact (second_pass_does_nothing elements no_fault still_clock elements_order_ok 3 3
           ["source"] ["replica"] ["sync.log"] example_world _ _ _
           separate_source_replica separate_log_source separate_log_replica
           example_run_ok (surjective_pairing _)).
Defined.

(** C2 as stated fails with the log file in the replica: the first pass of
    the example returns and leaves [sync.log] in the replica; the second
    pass, run right after it, removes that file, logs the removal and so
    writes the file again. *)
Lemma second_pass_removes_log_in_replica :
  let w1 := (run ["replica"; "sync.log"] example_world).2 in
  let w2 := (run ["replica"; "sync.log"] w1).2 in
  (run ["replica"; "sync.log"] example_world).1 = Ok tt ∧
  (run ["replica"; "sync.log"] w1).1 = Ok tt ∧
  logged (new_events w1 w2) = [FileRemoved ["replica"; "sync.log"]] ∧
  effects_at ["replica"; "sync.log"] (new_events w1 w2)
  = [Remove ["replica"; "sync.log"];
     LogOperation (FileRemoved ["replica"; "sync.log"]) ["replica"; "sync.log"]] ∧
  fs w2 ≠ fs w1.
Proof.
  cbv zeta. split; [vm_compute; reflexivity|]. split; [vm_compute; reflexivity|].
  split; [vm_compute; reflexivity|]. split; [vm_compute; reflexivity|].
  intros E. apply (f_equal (lookup_path ["replica"; "sync.log"])) in E.
  vm_compute in E. discriminate.
Qed.

Lemma copy_decided_by_digest_witness :
  let w := example_world in
  let w' := (run ["sync.log"] w).2 in
  (md5_of (bytes "hello") = md5_of (bytes "hello") ->
     effects_at ["replica"; "a.txt"] (new_events w w') = [] ∧
     lookup_path ["replica"; "a.txt"] (fs w') = Some (File (bytes "hello") 5)) ∧
  (md5_of (bytes "hello") ≠ md5_of (bytes "hello") ->
     effects_at ["replica"; "a.txt"] (new_events w w')
     = [Copy2 ["source"; "a.txt"] ["replica"; "a.txt"];
        LogOperation (FileCopied ["replica"; "a.txt"]) ["sync.log"]] ∧
     ops_at ["replica"; "a.txt"] (new_events w w') = [FileCopied ["replica"; "a.txt"]] ∧
     lookup_path ["replica"; "a.txt"] (fs w') = Some (File (bytes "hello") 1)) ∧
  (bytes "hello" = bytes "hello" -> ops_at ["replica"; "a.txt"] (new_events w w') = []).
Proof.
  exact (copy_decided_by_digest elements no_fault still_clock elements_order_ok 3
           ["source"] ["replica"] ["sync.log"] example_world _ "a.txt"
           (bytes "hello") 1 (bytes "hello") 5
           separate_source_replica separate_log_source separate_log_replica
           eq_refl eq_refl example_run_ok).
Defined.

(** C3 as stated fails.  First, two files that differ and have one MD5
    digest are not copied.  Second, with the log file at [a.txt] of the
    replica, a file that is the same in both trees before the pass is
    copied: the record of the copy of [b.txt] has been appended to it by
    the time it is compared. *)
Lemma copy_not_decided_by_bytes :
  (lookup_path ["source"; "f.bin"] (fs collision_world) = Some (File collision_a 10) ∧
   lookup_path ["replica"; "f.bin"] (fs collision_world) = Some (File collision_b 20) ∧
   collision_a ≠ collision_b ∧
   (run ["sync.log"] collision_world).1 = Ok tt ∧
   logged (trace (run ["sync.log"] collision_world).2) = [] ∧
   effects_at ["replica"; "f.bin"] (trace (run ["sync.log"] collision_world).2) = [] ∧
   lookup_path ["replica"; "f.bin"] (fs (run ["sync.log"] collision_world).2)
   = Some (File collision_b 20)) ∧
  (lookup_path ["source"; "a.txt"] (fs two_files_world)
   = lookup_path ["replica"; "a.txt"] (fs two_files_world) ∧
   (sync_folders reverse_elements no_fault still_clock 3
      ["source"] ["replica"] ["replica"; "a.txt"] two_files_world).1 = Ok tt ∧
   logged (trace (sync_folders reverse_elements no_fault still_clock 3
                    ["source"] ["replica"] ["replica"; "a.txt"] two_files_world).2)
   = [FileCopied ["replica"; "b.txt"]; FileCopied ["replica"; "a.txt"]]).
Proof.
  split; [|vm_compute; by repeat split].
  split; [reflexivity|]. split; [reflexivity|]. split; [apply md5_collision|].
  vm_compute. by repeat split.
Qed.








Lemma source_tree_untouched_witness :
  let w := example_world in
  let w' := (run ["sync.log"] w).2 in
  (trace w' = trace w ++ new_events w w' ∧
   Forall (targets (below ["replica"])) (new_events w w') ∧
   Forall (fun ev => ∀ lf, log_file_of (ev_call ev) = Some lf -> lf = ["sync.log"])
          (new_events w w')) ∧
  (∀ q, separate ["replica"] q -> separate ["sync.log"] q ->
        lookup_path q (fs w') = lookup_path q (fs w)) ∧
  (separate ["source"] ["replica"] -> separate ["sync.log"] ["source"] ->
   ∀ q, lookup_path (["source"] ++ q) (fs w') = lookup_path (["source"] ++ q) (fs w)).
Proof.
  exact (source_tree_untouched elements no_fault still_clock ["sync.log"] 3
           ["source"] ["replica"] example_world _ _ example_run_ok).
Defined.

(** C8 as stated fails.  For paths that lie one inside the other: with the
    source [/mirror/src] inside the replica [/mirror] the pass returns
    after removing the source directory; with the replica [/data/backup]
    inside the source [/data] it returns after writing below the source.
    And with the log file in the source, the pass of the example returns
    after creating [sync.log] in the source. *)
Lemma source_changes_with_nested_paths_or_log_inside :
  ((sync_folders elements no_fault still_clock 3 ["mirror"; "src"] ["mirror"]
      ["sync.log"] inverted_world).1 = Ok tt ∧
   is_dir (lookup_path ["mirror"; "src"] (fs inverted_world)) = true ∧
   lookup_path ["mirror"; "src"]
     (fs (sync_folders elements no_fault still_clock 3 ["mirror"; "src"] ["mirror"]
            ["sync.log"] inverted_world).2)
   = None) ∧
  ((sync_folders elements no_fault still_clock 3 ["data"] ["data"; "backup"]
      ["sync.log"] nested_world).1 = Ok tt ∧
   lookup_path ["data"; "backup"; "f.txt"] (fs nested_world) = None ∧
   lookup_path ["data"; "backup"; "f.txt"]
     (fs (sync_folders elements no_fault still_clock 3 ["data"] ["data"; "backup"]
            ["sync.log"] nested_world).2)
   = Some (File (bytes "x") 1)) ∧
  ((run ["source"; "sync.log"] example_world).1 = Ok tt ∧
   separate ["source"] ["replica"] ∧
   lookup_path ["source"; "sync.log"] (fs example_world) = None ∧
   is_file (lookup_path ["source"; "sync.log"]
              (fs (run ["source"; "sync.log"] example_world).2)) = true).
Proof.
  split; [vm_compute; by repeat split|]. split; [vm_compute; by repeat split|].
  split; [vm_compute; reflexivity|]. split; [exact separate_source_replica|].
  vm_compute. by repeat split.
Qed.

Lemma example_scenario_witness :
  let r := run ["sync.log"] example_world in
  r.1 = Ok tt ∧
  logged (trace r.2)
  = [DirectoryCreated ["replica"; "sub"]; FileRemoved ["replica"; "c.txt"]] ∧
  lookup_path ["replica"] (fs r.2) = Some example_result ∧
  lookup_path ["source"] (fs r.2) = Some (Dir example_source_entries) ∧
  effects_at ["replica"; "a.txt"] (trace r.2) = [] ∧
  is_file (lookup_path ["sync.log"] (fs r.2)) = true.
Proof.
  apply (example_scenario elements still_clock 3 elements_order_ok). lia.
Defined.

Lemma sync_folders_terminates_witness :
  (run ["sync.log"] example_world).1 ≠ OutOfFuel.
Proof.
  apply (sync_folders_terminates elements no_fault still_clock 3
           ["source"] ["replica"] ["sync.log"]
           example_world (Dir example_source_entries)
           separate_source_replica example_source).
  vm_compute. lia.
Defined.
